(** * Mastermind client (task1/mastermind/client.c): a shallow embedding

    The solver of [client.c] plays an 8 colour / 5 slot Mastermind game
    against a remote arbiter.  Machine integers are modelled as [Z] with
    the truncation of the C type written out ([u8], [u16]); the arrays
    [possible] and [result] are lists; the two linked lists of
    [perm_list_t] nodes are Rocq lists of their payloads; the combination
    tree keeps the two pointers [first_child] and [next] of the C struct. *)

From Stdlib Require Import ZArith List Bool Lia Arith.
Import ListNotations.

Local Open Scope Z_scope.

(** ** Constants and macros *)

Definition SLOTS : Z := 5.
Definition COLOR_WIDTH : Z := 3.
Definition COLORS : Z := Z.shiftl 1 COLOR_WIDTH.

Definition ERROR_PARITY : Z := 1.
Definition ERROR_GAME_LOST : Z := 2.

(** Assignment to a [uint8_t] / [uint16_t] object. *)
Definition u8 (x : Z) : Z := x mod 256.
Definition u16 (x : Z) : Z := x mod 65536.

Definition RED (resp : Z) : Z := Z.land resp 7.
Definition WHITE (resp : Z) : Z := Z.shiftr (Z.land resp (Z.shiftl 7 3)) 3.
Definition TOTAL (resp : Z) : Z := RED resp + WHITE resp.
Definition RESPONSE_ERROR (resp : Z) : Z := Z.shiftr resp 6.

Definition GAME_ERROR_BIT : Z := u8 (Z.shiftl 1 7).
Definition RETURN_ERROR (err : Z) : Z := u8 (Z.lor err GAME_ERROR_BIT).
Definition IS_ERROR (err : Z) : Z := Z.land err GAME_ERROR_BIT.

(** [(uint8_t) ~(0x7 << SLOTS)], i.e. 00011111. *)
Definition ALL_SLOTS : Z := u8 (Z.lnot (Z.shiftl 7 SLOTS)).

(** ** Code model: parity, colours, request bytes *)

(** The [for] loop of [compute_parity]: [n] iterations left, [p] the
    shifted copy of the request, [parity] the accumulator. *)
Fixpoint parity_loop (n : nat) (p parity : Z) : Z :=
  match n with
  | O => parity
  | S n' => parity_loop n' (Z.shiftr p 1) (u8 (Z.lxor parity (Z.land p 1)))
  end.

Definition compute_parity (req : Z) : Z :=
  let p := req in
  let req1 := u16 (Z.land req (Z.lnot (Z.shiftl 1 15))) in
  let parity := parity_loop (Z.to_nat (SLOTS * COLOR_WIDTH)) p 0 in
  u16 (Z.lor req1 (Z.shiftl parity 15)).

(** [add_color]: the status and the updated request. *)
Definition add_color (req color position : Z) : Z * Z :=
  if SLOTS <=? position then (-1, req)
  else
    let position := position * COLOR_WIDTH in
    let req1 :=
      u16 (Z.land req
             (Z.lnot (Z.lor (Z.lor (Z.shiftl 1 position)
                                   (Z.shiftl 1 (position + 1)))
                            (Z.shiftl 1 (position + 2))))) in
    (0, u16 (Z.lor req1 (Z.shiftl color position))).

(** The loop of [init_request] over [colors[i..]]; [num] is the length
    of the list handed in. *)
Fixpoint init_request_loop (colors : list Z) (i req : Z) : Z * Z :=
  match colors with
  | [] => (0, req)
  | c :: rest =>
      let '(st, req1) := add_color req c i in
      if st <? 0 then (-1, req1) else init_request_loop rest (i + 1) req1
  end.

Definition init_request (colors : list Z) : Z * Z :=
  init_request_loop colors 0 0.

(** [generate_request]: the two bytes of the send buffer, and the request
    with its parity bit. *)
Definition generate_request (req : Z) : list Z * Z :=
  let req1 := compute_parity req in
  ([u8 (Z.land req1 (Z.lnot (Z.shiftl 255 8))); u8 (Z.shiftr req1 8)], req1).

(** ** Bit counting and the mask enumeration *)

Fixpoint calculate_set_bits_loop (length : nat) (num bits_set : Z) : Z :=
  match length with
  | O => bits_set
  | S l =>
      calculate_set_bits_loop l (Z.shiftr num 1)
        (if Z.land num 1 =? 0 then bits_set else u8 (bits_set + 1))
  end.

Definition calculate_set_bits (num : Z) (length : nat) : Z :=
  calculate_set_bits_loop length num 0.

Definition combination_ok (last_combination mask count : Z) : bool :=
  (Z.land last_combination mask =? last_combination)
  && (calculate_set_bits last_combination (Z.to_nat SLOTS) =? count).

(** The [while] loop of [compute_combination].  [None] stands for a loop
    that has not ended after [fuel] iterations. *)
Fixpoint compute_combination_loop (fuel : nat) (last_combination mask count : Z)
  : option Z :=
  if combination_ok last_combination mask count then Some last_combination
  else
    match fuel with
    | O => None
    | S f =>
        let last_combination := u8 (last_combination + 1) in
        if mask <? last_combination then Some 0
        else compute_combination_loop f last_combination mask count
    end.

(** 512 iterations are enough for every [mask] below 255: the counter
    wraps at most once before it exceeds the mask. *)
Definition compute_combination (last_combination mask count : Z) : option Z :=
  compute_combination_loop 512 (u8 (last_combination + 1)) mask count.

(** ** Exact-position matches and the guess selector *)

Record perm_list_t : Type := mk_perm {
  combination : Z;
  red : Z
}.

Fixpoint compare_loop (n : nat) (cmb1 cmb2 eq : Z) : Z :=
  match n with
  | O => eq
  | S n' =>
      compare_loop n' (Z.shiftr cmb1 3) (Z.shiftr cmb2 3)
        (if Z.land cmb1 7 =? Z.land cmb2 7 then u8 (eq + 1) else eq)
  end.

Definition compare_perm_equal_pos (cmb1 cmb2 : Z) : Z :=
  compare_loop (Z.to_nat SLOTS) cmb1 cmb2 0.

(** The inner [while (q)] of [find_best_perm]: the value of [matching]
    when the loop is left. *)
Fixpoint matching_loop (p : perm_list_t) (q : list perm_list_t) : bool :=
  match q with
  | [] => true
  | q0 :: q' =>
      if negb (compare_perm_equal_pos (combination p) (combination q0) =? red q0)
      then false
      else matching_loop p q'
  end.

(** A pointer into the candidate list is the node together with the
    nodes before it and after it. *)
Definition perm_ptr : Type := (list perm_list_t * perm_list_t * list perm_list_t)%type.

(** The outer [while (p)]: [before] holds the nodes already passed. *)
Fixpoint find_best_perm_loop (before p processed : list perm_list_t)
  : option perm_ptr :=
  match p with
  | [] => None
  | p0 :: p' =>
      if matching_loop p0 processed then Some (before, p0, p')
      else find_best_perm_loop (before ++ [p0]) p' processed
  end.

Definition find_best_perm (first_perm processed : list perm_list_t)
  : option perm_ptr :=
  find_best_perm_loop [] first_perm processed.

(** ** The game state *)

(** [result_t]; the fields [red], [white], [total] carry the prefix
    [res_] because [red] is also a field of [perm_list_t]. *)
Record result_t : Type := mk_result {
  res_red : Z;
  res_white : Z;
  res_total : Z;
  real_hits : Z
}.

(** [combination_list_t]: a node with its two pointers, [NULL] for the
    null pointer. *)
Inductive combination_list_t : Type :=
| NULL
| Node (color next_color mask node_combination : Z)
       (first_child next : combination_list_t).

(** [gameinfo_t].  [connfd] is the channel itself and [colors_total] is
    never used; the tail pointers [last_perm] and [processed_last] are the
    ends of the two lists.  [partitions] is written once by [start_game]
    and is the constant [partitions] below. *)
Record gameinfo_t : Type := mk_info {
  guess : Z;
  request_buf : list Z;
  response_buf : Z;
  error : Z;
  round : Z;
  result : list result_t;
  possible : list Z;
  comb : combination_list_t;
  first_perm : list perm_list_t;
  processed : list perm_list_t
}.

Definition set_guess (g : Z) (info : gameinfo_t) : gameinfo_t :=
  mk_info g (request_buf info) (response_buf info) (error info) (round info)
    (result info) (possible info) (comb info) (first_perm info) (processed info).

Definition set_result (r : list result_t) (info : gameinfo_t) : gameinfo_t :=
  mk_info (guess info) (request_buf info) (response_buf info) (error info)
    (round info) r (possible info) (comb info) (first_perm info) (processed info).

Definition set_possible (p : list Z) (info : gameinfo_t) : gameinfo_t :=
  mk_info (guess info) (request_buf info) (response_buf info) (error info)
    (round info) (result info) p (comb info) (first_perm info) (processed info).

Definition set_comb (c : combination_list_t) (info : gameinfo_t) : gameinfo_t :=
  mk_info (guess info) (request_buf info) (response_buf info) (error info)
    (round info) (result info) (possible info) c (first_perm info) (processed info).

Definition set_first_perm (l : list perm_list_t) (info : gameinfo_t) : gameinfo_t :=
  mk_info (guess info) (request_buf info) (response_buf info) (error info)
    (round info) (result info) (possible info) (comb info) l (processed info).

(** Array access and update; every index the program uses is in range. *)
Fixpoint upd {A : Type} (l : list A) (k : nat) (v : A) : list A :=
  match l, k with
  | [], _ => []
  | _ :: t, O => v :: t
  | h :: t, S k' => h :: upd t k' v
  end.

Definition zero_result : result_t := mk_result 0 0 0 0.

Definition possible_at (info : gameinfo_t) (k : Z) : Z :=
  nth (Z.to_nat k) (possible info) 0.

Definition write_possible (k v : Z) (info : gameinfo_t) : gameinfo_t :=
  set_possible (upd (possible info) (Z.to_nat k) v) info.

Definition result_at (info : gameinfo_t) (i : nat) : result_t :=
  nth i (result info) zero_result.

Definition write_result (i : nat) (r : result_t) (info : gameinfo_t) : gameinfo_t :=
  set_result (upd (result info) i r) info.

(** [memset(&info->possible[start], 0, n)] *)
Fixpoint memset_possible (n : nat) (start : Z) (info : gameinfo_t) : gameinfo_t :=
  match n with
  | O => info
  | S n' => memset_possible n' (start + 1) (write_possible start 0 info)
  end.

(** Colours in the order of [color_t]. *)
Definition beige : Z := 0.
Definition darkblue : Z := 1.
Definition green : Z := 2.
Definition orange : Z := 3.
Definition c_red : Z := 4.
Definition black : Z := 5.
Definition violet : Z := 6.
Definition white : Z := 7.

(** The two partitions [p0] and [p1] of [start_game]. *)
Definition partitions (i : nat) : list Z :=
  match i with
  | O => [beige; beige; darkblue; green; orange]
  | _ => [c_red; c_red; black; violet; white]
  end.

(** ** One round: [commit_guess] *)

(** The transport: the answer byte to the [n]-th request (counted from 0)
    with the given two bytes.  Read and write failures of the channel are
    outside this model. *)
Definition server : Type := nat -> list Z -> Z.

(** [commit_guess].  [partition], when given, holds the [SLOTS] colours
    read by [init_request], for which [add_color] cannot fail, so the
    [bail_out] after it is never taken.  [result] is the object the
    pointer of the same name refers to; its new value is returned. *)
Definition commit_guess (srv : server) (info : gameinfo_t)
    (partition : option (list Z)) (result0 : result_t)
  : Z * result_t * gameinfo_t :=
  let round1 := u8 (round info + 1) in
  let guess1 :=
    match partition with
    | Some p => snd (init_request (firstn (Z.to_nat SLOTS) p))
    | None => guess info
    end in
  let '(buf, guess2) := generate_request guess1 in
  let resp := u8 (srv (length (processed info)) buf) in
  let err := RESPONSE_ERROR resp in
  let result1 := mk_result (RED resp) (WHITE resp) (u8 (TOTAL resp)) (real_hits result0) in
  let pl := mk_perm guess2 (res_red result1) in
  let info1 :=
    mk_info guess2 buf resp err round1 (result info) (possible info)
      (comb info) (first_perm info) (processed info ++ [pl]) in
  if 0 <? err then (RETURN_ERROR err, result1, info1)
  else if res_red result1 =? SLOTS then (round1, result1, info1)
  else (0, result1, info1).

(** ** Partition prober: [analyse_partitions] *)

(** Zero the four entries of [possible] that start at [clear_partition * 4]. *)
Definition clear_partition_entries (clear_partition : nat) (info : gameinfo_t)
  : gameinfo_t :=
  memset_possible 4 (Z.of_nat clear_partition * 4) info.

(** The body of the [for] loop for one [i] (with its [j]), after
    [commit_guess] has returned 0: the new value of [skip] and the state. *)
Definition partition_body (i j : nat) (info : gameinfo_t) : bool * gameinfo_t :=
  let '(skip1, clear1, info1) :=
    if res_total (result_at info i) =? SLOTS then
      (true, j,
       write_result j (mk_result 0 0 0 (real_hits (result_at info j))) info)
    else (false, O, info) in
  let '(skip2, clear2, info2) :=
    if res_total (result_at info1 i) =? 0 then
      (true, i,
       write_result j (mk_result 1 0 SLOTS (real_hits (result_at info1 j))) info1)
    else (skip1, clear1, info1) in
  if skip2 then (true, clear_partition_entries clear2 info2) else (false, info2).

(** The [for] loop; [n] bounds the iterations still possible ([i < 2]). *)
Fixpoint analyse_partitions_loop (srv : server) (n i j : nat) (skip : bool)
    (info : gameinfo_t) : Z * gameinfo_t :=
  match n with
  | O => (0, info)
  | S n' =>
      if (i <? 2)%nat && negb skip then
        let '(ret, r, info1) :=
          commit_guess srv info (Some (partitions i)) (result_at info i) in
        let info2 := write_result i r info1 in
        if negb (ret =? 0) then (ret, info2)
        else
          let '(skip', info3) := partition_body i j info2 in
          analyse_partitions_loop srv n' (S i) ((S i + 1) mod 2)%nat skip' info3
      else (0, info)
  end.

Definition analyse_partitions (srv : server) (info : gameinfo_t) : Z * gameinfo_t :=
  analyse_partitions_loop srv 3 0 1 false info.

(** ** Colour counter: [analyse_colors] *)

(** The locals [total], [found] and the state, threaded through the
    inner loop. *)
Record color_state : Type := mk_cs {
  cs_total : Z;
  cs_found : Z;
  cs_info : gameinfo_t
}.

(** The inner [for (j = 0, k = i * 4; k < i * 4 + 3; j++, k++)]; the first
    component is the value returned from [analyse_colors] inside the loop,
    0 when the loop is left normally. *)
Fixpoint color_loop (srv : server) (n i : nat) (j k : Z) (st : color_state)
  : Z * color_state :=
  match n with
  | O => (0, st)
  | S n' =>
      if k <? Z.of_nat i * 4 + 3 then
        let '(ret, r, info1) :=
          commit_guess srv (cs_info st) (Some [k; k; k; k; k]) zero_result in
        if negb (ret =? 0) then (ret, mk_cs (cs_total st) (cs_found st) info1)
        else if res_total r =? 0 then
          color_loop srv n' i (j + 1) (k + 1)
            (mk_cs (cs_total st) (cs_found st) (write_possible k 0 info1))
        else
          let total1 := u8 (cs_total st + res_total r) in
          let ri := result_at info1 i in
          let info2 :=
            write_result i
              (mk_result (res_red ri) (res_white ri) (res_total ri)
                 (u8 (real_hits ri + res_total r))) info1 in
          let info3 :=
            write_possible k
              (u8 (Z.lor (possible_at info2 k) (Z.shiftl (res_total r) SLOTS)))
              info2 in
          let found1 := u8 (cs_found st + 1) in
          if (found1 =? res_total (result_at info3 i))
             || (total1 =? SLOTS)
             || ((i =? 0)%nat
                 && (total1 + res_total (result_at info3 1) =? SLOTS))
          then
            (0, mk_cs total1 found1
                  (memset_possible (Z.to_nat (3 - j)) (k + 1) info3))
          else color_loop srv n' i (j + 1) (k + 1) (mk_cs total1 found1 info3)
      else (0, st)
  end.

(** One pass of the outer [for (i = 0; i < 2; i++)]: the return value (0
    to go on), the new [total], the new [last_color_missing[i]] and the
    state. *)
Definition color_partition (srv : server) (i : nat) (total : Z) (info : gameinfo_t)
  : Z * Z * bool * gameinfo_t :=
  if 0 <? res_total (result_at info i) then
    let '(ret, st) :=
      color_loop srv 4 i 0 (Z.of_nat i * 4) (mk_cs total 0 info) in
    (ret, cs_total st,
     cs_found st <? res_total (result_at (cs_info st) i), cs_info st)
  else (0, total, false, info).

(** The part of [analyse_colors] after the two partitions. *)
Definition color_remainder (srv : server) (total : Z) (missing0 missing1 : bool)
    (info : gameinfo_t) : Z * gameinfo_t :=
  if total <? SLOTS then
    let '(ret, total1, info1) :=
      if missing0 && missing1 then
        let '(ret, r, info1) :=
          commit_guess srv info (Some [7; 7; 7; 7; 7]) zero_result in
        if negb (ret =? 0) then (ret, total, info1)
        else
          let total1 := u8 (total + res_total r) in
          let r1 := result_at info1 1 in
          let info2 :=
            write_result 1
              (mk_result (res_red r1) (res_white r1) (res_total r1)
                 (u8 (real_hits r1 + res_total r))) info1 in
          (0, total1,
           write_possible 7
             (u8 (Z.lor (possible_at info2 7) (Z.shiftl (res_total r) SLOTS)))
             info2)
      else (0, total, info) in
    if negb (ret =? 0) then (ret, info1)
    else
      let i := if missing0 then O else 1%nat in
      let k := Z.of_nat i * 4 + 3 in
      let info2 :=
        if SLOTS - total1 =? 0 then write_possible k 0 info1
        else
          write_possible k
            (u8 (Z.lor (possible_at info1 k) (Z.shiftl (SLOTS - total1) SLOTS)))
            info1 in
      let ri := result_at info2 i in
      (0, write_result i
            (mk_result (res_red ri) (res_white ri) (res_total ri)
               (u8 (real_hits ri + (SLOTS - total1)))) info2)
  else (0, write_possible 7 0 (write_possible 3 0 info)).

Definition analyse_colors (srv : server) (info : gameinfo_t) : Z * gameinfo_t :=
  let '(ret0, total0, missing0, info0) := color_partition srv 0 0 info in
  if negb (ret0 =? 0) then (ret0, info0)
  else
    let '(ret1, total1, missing1, info1) := color_partition srv 1 total0 info0 in
    if negb (ret1 =? 0) then (ret1, info1)
    else color_remainder srv total1 missing0 missing1 info1.

(** ** Position refiner: [analyse_possible] *)

(** First branch, the loop over [j]: clear bit [j] of a colour that is
    still possible. *)
Fixpoint set_impossible (colors : list Z) (j : Z) (info : gameinfo_t)
  : gameinfo_t :=
  match colors with
  | [] => info
  | c :: rest =>
      set_impossible rest (j + 1)
        (if possible_at info c =? 0 then info
         else
           write_possible c
             (Z.land (possible_at info c) (u8 (Z.lnot (Z.shiftl 1 j)))) info)
  end.

(** Second branch, first loop: keep the count bits only. *)
Fixpoint clear_slots (colors : list Z) (info : gameinfo_t) : gameinfo_t :=
  match colors with
  | [] => info
  | c :: rest =>
      clear_slots rest
        (write_possible c
           (Z.land (possible_at info c) (u8 (Z.shiftl 7 SLOTS))) info)
  end.

(** Second branch, second loop: set bit [j]. *)
Fixpoint set_possible_bits (colors : list Z) (j : Z) (info : gameinfo_t)
  : gameinfo_t :=
  match colors with
  | [] => info
  | c :: rest =>
      set_possible_bits rest (j + 1)
        (if possible_at info c =? 0 then info
         else
           write_possible c
             (Z.lor (possible_at info c) (u8 (Z.shiftl 1 j))) info)
  end.

Definition analyse_possible_step (i : nat) (info : gameinfo_t) : gameinfo_t :=
  if res_red (result_at info i) =? 0 then
    set_impossible (partitions i) 0 info
  else if res_red (result_at info i) =? real_hits (result_at info i) then
    set_possible_bits (partitions i) 0 (clear_slots (partitions i) info)
  else info.

Definition analyse_possible (info : gameinfo_t) : gameinfo_t :=
  analyse_possible_step 1 (analyse_possible_step 0 info).

(** ** Combination tree builder: [build_combination_list] *)

Definition node_color (n : combination_list_t) : Z :=
  match n with NULL => 0 | Node c _ _ _ _ _ => c end.
Definition node_next_color (n : combination_list_t) : Z :=
  match n with NULL => 0 | Node _ nc _ _ _ _ => nc end.
Definition node_mask (n : combination_list_t) : Z :=
  match n with NULL => 0 | Node _ _ m _ _ _ => m end.
Definition combination_of (n : combination_list_t) : Z :=
  match n with NULL => 0 | Node _ _ _ cb _ _ => cb end.
Definition first_child_of (n : combination_list_t) : combination_list_t :=
  match n with NULL => NULL | Node _ _ _ _ fc _ => fc end.
Definition next_of (n : combination_list_t) : combination_list_t :=
  match n with NULL => NULL | Node _ _ _ _ _ nx => nx end.

Definition set_first_child (n fc : combination_list_t) : combination_list_t :=
  match n with NULL => NULL | Node c nc m cb _ nx => Node c nc m cb fc nx end.
Definition set_next (n nx : combination_list_t) : combination_list_t :=
  match n with NULL => NULL | Node c nc m cb fc _ => Node c nc m cb fc nx end.

(** [(((uint8_t) ~0) >> (COLORS - needed)) - 1], stored in a [uint8_t]. *)
Definition initial_combination (needed : Z) : Z :=
  u8 (Z.shiftr (u8 (Z.lnot 0)) (COLORS - needed) - 1).

(** [compute_combination] as the builder uses it.  The builder's masks
    have five bits, for which the loop ends (lemma
    [compute_combination_terminates]); the default is never used. *)
Definition next_combination (last_combination mask count : Z) : Z :=
  match compute_combination last_combination mask count with
  | Some v => v
  | None => 0
  end.

(** [for (i = parent->next_color; i < COLORS; ++i) if (info->possible[i])]:
    the first colour that is selected, if any. *)
Fixpoint find_color (n : nat) (possible : list Z) (i : Z) : option Z :=
  match n with
  | O => None
  | S n' =>
      if i <? COLORS then
        if negb (nth (Z.to_nat i) possible 0 =? 0) then Some i
        else find_color n' possible (i + 1)
      else None
  end.

(** What a call leaves behind: [Early] when it returned before linking
    [self] to its parent, [Linked] when it reached the end. *)
Inductive build_result : Type :=
| Early (self : combination_list_t)
| Linked (self : combination_list_t).

(** The recursive call on a node that has just been filled in: the callee
    stores into [first_child], and the caller drops a child without
    combination.  [build_child] is the recursive call. *)
Definition attach_children (build_child : Z -> Z -> build_result) (i : Z)
    (node : combination_list_t) : combination_list_t :=
  if (i <? COLORS - 1) && negb (node_mask node =? 0) then
    match build_child (node_next_color node) (node_mask node) with
    | Linked ch =>
        if combination_of ch =? 0 then node else set_first_child node ch
    | Early _ => node
    end
  else node.

Definition free_mask (p_mask combination : Z) : Z :=
  Z.land (Z.land p_mask (Z.lnot combination)) (u8 (Z.lnot (Z.shiftl 7 5))).

(** The [while] loop over the sibling combinations.  A new sibling goes
    in front of [self] when [entropy] is odd, directly behind [self]
    otherwise; its subtree depends on its own fields only, so it is
    attached here before the node is linked. *)
Fixpoint sibling_loop (fuel : nat) (build_child : Z -> Z -> build_result)
    (i mask p_mask needed combination entropy : Z) (self : combination_list_t)
  : combination_list_t :=
  match fuel with
  | O => self
  | S f =>
      let combination := next_combination combination mask needed in
      if combination =? 0 then self
      else
        let sibling :=
          attach_children build_child i
            (Node i (i + 1) (free_mask p_mask combination) combination NULL NULL) in
        let self1 :=
          if negb (Z.rem entropy 2 =? 0) then set_next sibling self
          else set_next self (set_next sibling (next_of self)) in
        sibling_loop f build_child i mask p_mask needed combination
          (entropy + 1) self1
  end.

(** [build_combination_list].  [p_next_color] and [p_mask] are the two
    fields read from [*parent]; for the root call [*parent] is [self]
    itself, with [next_color = 0] and the mask 00011111.  [depth] bounds
    the nesting of the recursion, one level per colour. *)
Fixpoint build_combination_list (depth : nat) (possible : list Z)
    (is_root : bool) (p_next_color p_mask : Z) : build_result :=
  match depth with
  | O => Early NULL
  | S d =>
      let self_mask := if is_root then p_mask else 0 in
      match find_color 8 possible p_next_color with
      | None => Linked (Node 0 0 self_mask 0 NULL NULL)
      | Some i =>
          let mask := Z.land (nth (Z.to_nat i) possible 0) (u8 (Z.lnot (Z.shiftl 7 SLOTS))) in
          let needed := Z.shiftr (nth (Z.to_nat i) possible 0) SLOTS in
          let combination := initial_combination needed in
          let mask := Z.land mask p_mask in
          if mask =? 0 then Early (Node i (i + 1) self_mask 0 NULL NULL)
          else
            let combination := next_combination combination mask needed in
            if combination =? 0 then Early (Node i (i + 1) self_mask 0 NULL NULL)
            else
              let build_child := build_combination_list d possible false in
              let self :=
                attach_children build_child i
                  (Node i (i + 1) (free_mask p_mask combination) combination
                     NULL NULL) in
              Linked (sibling_loop 32 build_child i mask p_mask needed
                        combination 1 self)
      end
  end.

(** The root call of [analyse_combinations]: [list] afterwards. *)
Definition build_root (possible : list Z) : combination_list_t :=
  match build_combination_list 9 possible true 0 (Z.land (Z.lnot 0) (u8 (Z.lnot (Z.shiftl 7 5)))) with
  | Early self => self
  | Linked self => self
  end.

(** ** Candidate generator: [process_combinations] *)

(** [for (j = 0; j < SLOTS; ++j)]: put [color] where [combination] has a bit. *)
Fixpoint set_colors (n : nat) (combination color j guess : Z) : Z :=
  match n with
  | O => guess
  | S n' =>
      set_colors n' (Z.shiftr combination 1) color (j + 1)
        (if Z.land combination 1 =? 0 then guess
         else snd (add_color guess color j))
  end.

(** [process_combinations] on [info->guess] and the candidate list; the
    result is the pair after the call. *)
Fixpoint process_combinations (guess : Z) (perms : list perm_list_t)
    (curr : combination_list_t) (counter : Z) : Z * list perm_list_t :=
  match curr with
  | NULL => (guess, perms)
  | Node color _ _ combination first_child next =>
      let saved := guess in
      let i := calculate_set_bits combination (Z.to_nat SLOTS) in
      let guess1 := set_colors (Z.to_nat SLOTS) combination color 0 guess in
      let '(guess2, perms2) :=
        match first_child with
        | NULL =>
            if counter + i =? SLOTS then (guess1, perms ++ [mk_perm guess1 0])
            else (guess1, perms)
        | Node _ _ _ _ _ _ =>
            process_combinations guess1 perms first_child (u8 (counter + i))
        end in
      match next with
      | NULL => (guess2, perms2)
      | Node _ _ _ _ _ _ => process_combinations saved perms2 next counter
      end
  end.

(** ** Round loop: [analyse_combinations], [start_game], [main] *)

(** How a run of the solver ends: a return value, [bail_out], the read
    through the null [curr] when the candidate list is empty, or a bound
    on the number of rounds of this model. *)
Inductive outcome : Type :=
| Returned (ret : Z) (info : gameinfo_t)
| BailOut (info : gameinfo_t)
| NullDeref (info : gameinfo_t)
| OutOfFuel (info : gameinfo_t).

(** [while (1)] of [analyse_combinations]; [curr] points into
    [info->first_perm]. *)
Fixpoint guess_loop (srv : server) (fuel : nat) (curr : perm_ptr)
    (info : gameinfo_t) : outcome :=
  match fuel with
  | O => OutOfFuel info
  | S f =>
      let '(before, p, after) := curr in
      let info1 := set_guess (combination p) info in
      let '(ret, r, info2) := commit_guess srv info1 None zero_result in
      if negb (ret =? 0) then Returned ret info2
      else
        let info3 := set_first_perm (before ++ after) info2 in
        match find_best_perm (first_perm info3) (processed info3) with
        | None => BailOut info3
        | Some curr' => guess_loop srv f curr' info3
        end
  end.

Definition analyse_combinations (srv : server) (fuel : nat) (info : gameinfo_t)
  : outcome :=
  let info1 := set_guess 0 info in
  let list := build_root (possible info1) in
  let info2 := set_comb list info1 in
  let '(g, perms) := process_combinations (guess info2) (first_perm info2) list 0 in
  let info3 := set_first_perm perms (set_guess g info2) in
  match first_perm info3 with
  | [] => NullDeref info3
  | p :: after => guess_loop srv fuel ([], p, after) info3
  end.

(** The state [start_game] sets up. *)
Definition initial_info : gameinfo_t :=
  mk_info 0 [0; 0] 0 0 0 [zero_result; zero_result]
    [ALL_SLOTS; ALL_SLOTS; ALL_SLOTS; ALL_SLOTS;
     ALL_SLOTS; ALL_SLOTS; ALL_SLOTS; ALL_SLOTS]
    NULL [] [].

Definition start_game (srv : server) (fuel : nat) : outcome :=
  let '(ret, info1) := analyse_partitions srv initial_info in
  if negb (ret =? 0) then Returned ret info1
  else
    let '(ret, info2) := analyse_colors srv info1 in
    if negb (ret =? 0) then Returned ret info2
    else
      let info3 := analyse_possible info2 in
      match analyse_combinations srv fuel info3 with
      | Returned ret info4 =>
          if negb (ret =? 0) then Returned ret info4
          else Returned (RETURN_ERROR (u8 0)) info4
      | o => o
      end.

(** What [main] makes of the value of [start_game]: the lines written to
    [stderr], the line written to [stdout], the exit status. *)
Inductive report : Type :=
| ParityErrorLine
| GameLostLine
| InterruptedLine
| RundenLine (rounds : Z).

Definition main_result (ret : Z) : list report * Z :=
  if negb (IS_ERROR ret =? 0) then
    let ret := Z.land ret (Z.lnot GAME_ERROR_BIT) in
    ((if negb (Z.land ret ERROR_PARITY =? 0) then [ParityErrorLine] else [])
       ++ (if negb (Z.land ret ERROR_GAME_LOST =? 0) then [GameLostLine] else [])
       ++ (if ret =? 0 then [InterruptedLine] else []),
     ret + 1)
  else ([RundenLine ret], 0).

(** ** The arbiter *)

(** Colour of slot [j] in a packed code. *)
Definition slot (code j : Z) : Z := Z.land (Z.shiftr code (COLOR_WIDTH * j)) 7.

Definition slots_of (code : Z) : list Z :=
  map (slot code) [0; 1; 2; 3; 4].

Definition count_color (c : Z) (l : list Z) : Z :=
  Z.of_nat (length (filter (Z.eqb c) l)).

Fixpoint count_equal (l1 l2 : list Z) : Z :=
  match l1, l2 with
  | a :: t1, b :: t2 => (if a =? b then 1 else 0) + count_equal t1 t2
  | _, _ => 0
  end.

(** Modelled from the spec: the remote arbiter, which is not part of the
    repository.  Section 3 (GuessResult): red is the number of slots where
    guess and secret coincide, white the number of additional colour
    matches at other positions, total their sum; section 6: the guess
    arrives low byte first, the answer byte holds red in bits 0-2 and white
    in bits 3-5. *)
Definition arbiter_red (secret g : Z) : Z :=
  count_equal (slots_of secret) (slots_of g).

Definition arbiter_total (secret g : Z) : Z :=
  fold_right Z.add 0
    (map (fun c => Z.min (count_color c (slots_of secret)) (count_color c (slots_of g)))
         [0; 1; 2; 3; 4; 5; 6; 7]).

Definition arbiter_byte (secret : Z) (buf : list Z) : Z :=
  let g := nth 0 buf 0 + 256 * nth 1 buf 0 in
  let r := arbiter_red secret g in
  r + 8 * (arbiter_total secret g - r).

(** A server whose answers carry the marks of [secret]; the error bits
    6-7 are left to the server. *)
Definition answers_for (secret : Z) (srv : server) : Prop :=
  forall n buf, Z.land (u8 (srv n buf)) 63 = arbiter_byte secret buf.

Definition honest (secret : Z) : server := fun _ buf => arbiter_byte secret buf.

(** The sum of the occurrence counts kept in bits 5-7 of [possible]. *)
Definition occurrence_count (p : Z) : Z := Z.shiftr p SLOTS.

Definition sum_counts (possible : list Z) : Z :=
  fold_right Z.add 0 (map occurrence_count possible).

(** ** The channel: [read_from_server], [write_to_server] *)

(** A value stored in a [size_t] of [bits] bits. *)
Definition size_t (bits x : Z) : Z := x mod 2 ^ bits.

(** The [do ... while] loop of [read_from_server].  [rs] holds the values
    the successive calls of [read] return; [None] stands for a list that
    is used up before the loop is left. *)
Fixpoint read_loop (bits : Z) (rs : list Z) (n bytes_read : Z) : option Z :=
  match rs with
  | [] => None
  | r :: rest =>
      if r <=? 0 then Some (size_t bits (-1))
      else
        let bytes_read := size_t bits (bytes_read + r) in
        if bytes_read <? n then read_loop bits rest n bytes_read
        else if bytes_read <? n then Some (size_t bits (-1))
        else Some bytes_read
  end.

Definition read_from_server (bits : Z) (rs : list Z) (n : Z) : option Z :=
  read_loop bits rs n 0.

(** The same loop around [write]. *)
Fixpoint write_loop (bits : Z) (ws : list Z) (n bytes_sent : Z) : option Z :=
  match ws with
  | [] => None
  | r :: rest =>
      if r <=? 0 then Some (size_t bits (-1))
      else
        let bytes_sent := size_t bits (bytes_sent + r) in
        if bytes_sent <? n then write_loop bits rest n bytes_sent
        else if bytes_sent <? n then Some (size_t bits (-1))
        else Some bytes_sent
  end.

Definition write_to_server (bits : Z) (ws : list Z) (n : Z) : option Z :=
  write_loop bits ws n 0.

(** The test [if (read_from_server(...) < 0)] of [commit_guess] on the
    [size_t] value returned: [true] when [bail_out] is called. *)
Definition transfer_failed (returned : Z) : bool := returned <? 0.

(** ** Notions used by the statements *)

(** Number of slots in which two packed codes carry the same colour. *)
Definition exact_matches (c1 c2 : Z) : Z :=
  count_equal (slots_of c1) (slots_of c2).

(** A candidate agrees with every processed guess: its match count with
    the guess's code is the recorded red count. *)
Definition consistent_with (p : perm_list_t) (processed : list perm_list_t) : Prop :=
  forall q, In q processed ->
    compare_perm_equal_pos (combination p) (combination q) = red q.

Definition disagrees_with (p : perm_list_t) (processed : list perm_list_t) : Prop :=
  exists q, In q processed /\
    compare_perm_equal_pos (combination p) (combination q) <> red q.

(** XOR of the bits [0 .. n-1] of [v]. *)
Fixpoint xor_bits (n : nat) (v : Z) : bool :=
  match n with
  | O => false
  | S k => xorb (xor_bits k v) (Z.testbit v (Z.of_nat k))
  end.

(** Number of set bits among the bits [0 .. n-1] of [v]. *)
Fixpoint count_bits (n : nat) (v : Z) : Z :=
  match n with
  | O => 0
  | S k => count_bits k v + Z.b2z (Z.testbit v (Z.of_nat k))
  end.

(** [v] is a position mask for a colour: inside [mask], with [count] set
    bits among its low five. *)
Definition fits (v mask count : Z) : Prop :=
  Z.land v mask = v /\ count_bits 5 v = count.

(** [r] is what the enumeration owes after the start value [s]: the
    smallest fitting value in [(s, mask]], or 0 when there is none. *)
Definition first_fit_above (s mask count r : Z) : Prop :=
  (s < r <= mask /\ fits r mask count /\
   forall v, s < v < r -> ~ fits v mask count)
  \/ (r = 0 /\ forall v, s < v <= mask -> ~ fits v mask count).

(** All values [0 .. n-1] pass the test [f]. *)
Definition all_below (n : nat) (f : Z -> bool) : bool :=
  forallb f (map Z.of_nat (seq 0 n)).

(** The two bytes that carry the 16-bit value [g], low byte first. *)
Definition wire_bytes (g : Z) : list Z :=
  [u8 (Z.land g (Z.lnot (Z.shiftl 255 8))); u8 (Z.shiftr g 8)].

(** The answer byte to the processed entry [p], which was the [k]-th
    request of the session (counted from 0). *)
Definition response_to (srv : server) (k : nat) (p : perm_list_t) : Z :=
  u8 (srv k (wire_bytes (combination p))).

(** The state in which a run ends. *)
Definition final_info (o : outcome) : gameinfo_t :=
  match o with
  | Returned _ info => info
  | BailOut info => info
  | NullDeref info => info
  | OutOfFuel info => info
  end.

(** The processed list is the record of the session: entry [k] holds the
    [k]-th request as it was sent and the red count of its answer, and
    [round] counts the entries (in [uint8_t] arithmetic). *)
Definition trace_ok (srv : server) (info : gameinfo_t) : Prop :=
  round info = u8 (Z.of_nat (length (processed info))) /\
  forall k p, nth_error (processed info) k = Some p ->
    red p = RED (response_to srv k p).

(** No answer so far carried an error code. *)
Definition clean (srv : server) (info : gameinfo_t) : Prop :=
  forall k p, nth_error (processed info) k = Some p ->
    RESPONSE_ERROR (response_to srv k p) = 0.

(** The last answer, and only the last, carried the error code [e]. *)
Definition errored (srv : server) (e : Z) (info : gameinfo_t) : Prop :=
  exists l p,
    processed info = l ++ [p] /\
    (forall k q, nth_error l k = Some q -> RESPONSE_ERROR (response_to srv k q) = 0) /\
    RESPONSE_ERROR (response_to srv (length l) p) = e /\
    1 <= e <= 3 /\ error info = e.

(** What a phase leaves behind: either no error so far and the phase's
    value is 0 or the number of the winning round, or the last answer
    carried an error and the value is that code with the error bit. *)
Definition phase_post (srv : server) (ret : Z) (info : gameinfo_t) : Prop :=
  trace_ok srv info /\
  ((clean srv info /\ (ret = 0 \/ ret = round info)) \/
   (exists e, ret = RETURN_ERROR e /\ errored srv e info)).

(** The part of the state that records the rounds played. *)
Definition log_of (info : gameinfo_t) : list perm_list_t * Z * Z :=
  (processed info, round info, error info).

(** What a whole run leaves behind. *)
Definition outcome_post (srv : server) (o : outcome) : Prop :=
  trace_ok srv (final_info o) /\
  (clean srv (final_info o) \/
   exists e, o = Returned (RETURN_ERROR e) (final_info o) /\
             errored srv e (final_info o)).

(** The request that probes partition [i], as it is sent. *)
Definition partition_request (i : nat) : Z :=
  snd (generate_request
         (snd (init_request (firstn (Z.to_nat SLOTS) (partitions i))))).

(** The answer to the probe of partition [i] when it is the [k]-th
    request, its total, and the entry it leaves in the processed list. *)
Definition probe_answer (srv : server) (k i : nat) : Z :=
  u8 (srv k (wire_bytes (partition_request i))).

Definition probe_total (srv : server) (k i : nat) : Z :=
  u8 (TOTAL (probe_answer srv k i)).

Definition probe_entry (srv : server) (k i : nat) : perm_list_t :=
  mk_perm (partition_request i) (RED (probe_answer srv k i)).

(** Red, white and total of a result. *)
Definition marks (r : result_t) : Z * Z * Z :=
  (res_red r, res_white r, res_total r).

(** The four entries of [possible] that belong to partition [i] are 0. *)
Definition partition_cleared (i : nat) (info : gameinfo_t) : Prop :=
  forall k, 4 * Z.of_nat i <= k < 4 * Z.of_nat i + 4 -> possible_at info k = 0.

(** The arrays have the sizes [start_game] gives them. *)
Definition well_sized (info : gameinfo_t) : Prop :=
  length (result info) = 2%nat /\ length (possible info) = 8%nat.








(** The total the arbiter reports for the probe of partition [i]. *)
Definition honest_total (secret : Z) (i : nat) : Z :=
  u8 (TOTAL (arbiter_byte secret (wire_bytes (partition_request i)))).

(** The candidate list [analyse_combinations] draws from [possible]. *)
Definition candidates (possible : list Z) : list perm_list_t :=
  snd (process_combinations 0 [] (build_root possible) 0).

(** [possible] with exactly two colours [a] and [b] in play, with the
    occurrence counts [ca] and [cb] and all five slots open; every other
    entry is 0. *)
Definition two_colors (a b ca cb : Z) : list Z :=
  map (fun k =>
         if k =? a then Z.lor (Z.shiftl ca SLOTS) ALL_SLOTS
         else if k =? b then Z.lor (Z.shiftl cb SLOTS) ALL_SLOTS
         else 0)
      [0; 1; 2; 3; 4; 5; 6; 7].

(** The code with colour [a] on the slots of mask [m] and colour [b] on
    the other slots. *)
Definition arrange (a b m : Z) : Z :=
  fold_right Z.add 0
    (map (fun j => Z.shiftl (if Z.testbit m j then a else b) (COLOR_WIDTH * j))
         [0; 1; 2; 3; 4]).

(** The slots of a code that carry colour [c], as a mask. *)
Definition mask_of_color (c code : Z) : Z :=
  fold_right Z.add 0
    (map (fun j => if slot code j =? c then Z.shiftl 1 j else 0) [0; 1; 2; 3; 4]).

(** A node and the nodes reached from it through [next]. *)
Fixpoint siblings (t : combination_list_t) : list combination_list_t :=
  match t with
  | NULL => []
  | Node _ _ _ _ _ nx => t :: siblings nx
  end.

(** The paths from a node of the chain [t] down to a leaf, as lists of
    (colour, combination), in depth-first preorder: the subtree of a node
    before its next sibling. *)
Fixpoint preorder_paths (t : combination_list_t) : list (list (Z * Z)) :=
  match t with
  | NULL => []
  | Node c _ _ cb fc nx =>
      match fc with
      | NULL => [[(c, cb)]]
      | Node _ _ _ _ _ _ => map (cons (c, cb)) (preorder_paths fc)
      end ++ preorder_paths nx
  end.

(** The paths through one node. *)
Definition node_paths (n : combination_list_t) : list (list (Z * Z)) :=
  match n with
  | NULL => []
  | Node c _ _ cb fc _ =>
      match fc with
      | NULL => [[(c, cb)]]
      | Node _ _ _ _ _ _ => map (cons (c, cb)) (preorder_paths fc)
      end
  end.

(** The working code after the colours of a path have been set. *)
Fixpoint paint (path : list (Z * Z)) (guess : Z) : Z :=
  match path with
  | [] => guess
  | (c, cb) :: rest => paint rest (set_colors (Z.to_nat SLOTS) cb c 0 guess)
  end.

(** The number of slots a path has assigned when its leaf is reached,
    with the truncation of the [counter] argument at every call. *)
Fixpoint path_counter (path : list (Z * Z)) (counter : Z) : Z :=
  match path with
  | [] => counter
  | (c, cb) :: rest =>
      let i := calculate_set_bits cb (Z.to_nat SLOTS) in
      match rest with
      | [] => counter + i
      | _ :: _ => path_counter rest (u8 (counter + i))
      end
  end.

(** Where the builder links a new sibling: in front of the chain when
    [entropy] is odd, directly behind its head otherwise. *)
Definition insert_sibling {A : Type} (entropy : Z) (x : A) (chain : list A)
  : list A :=
  if negb (Z.rem entropy 2 =? 0) then x :: chain
  else match chain with
       | [] => []
       | h :: t => h :: x :: t
       end.

Fixpoint entropy_order {A : Type} (entropy : Z) (chain new : list A) : list A :=
  match new with
  | [] => chain
  | x :: rest => entropy_order (entropy + 1) (insert_sibling entropy x chain) rest
  end.

(** The order of a sibling chain whose combinations were found in the
    order [found]. *)
Definition chain_order {A : Type} (found : list A) : list A :=
  match found with
  | [] => []
  | first :: rest => entropy_order 1 [first] rest
  end.

(** The combinations [compute_combination] yields one after the other,
    from the start value [s] on. *)
Fixpoint enumerate (fuel : nat) (s mask needed : Z) : list Z :=
  match fuel with
  | O => []
  | S f =>
      let c := next_combination s mask needed in
      if c =? 0 then [] else c :: enumerate f c mask needed
  end.

(** Boolean tests for lists of integers. *)
Fixpoint nodupb (l : list Z) : bool :=
  match l with
  | [] => true
  | x :: t => negb (existsb (Z.eqb x) t) && nodupb t
  end.

Fixpoint list_eqb (l1 l2 : list Z) : bool :=
  match l1, l2 with
  | [], [] => true
  | x :: t1, y :: t2 => (x =? y) && list_eqb t1 t2
  | _, _ => false
  end.

(** How often colour [c] occurs in the secret. *)
Definition secret_count (secret c : Z) : Z := count_color c (slots_of secret).

(** The occurrences, by the counts [n], of the colours the colour counter
    has not dealt with when it is about to probe colour [k]: the colours
    from [k] on, and orange, which is never probed in the loops. *)
Definition rest_of (n : Z -> Z) (k : Z) : Z :=
  fold_right Z.add 0
    (map (fun c => if (k <=? c) || (c =? 3) then n c else 0)
         [0; 1; 2; 3; 4; 5; 6; 7]).

(** The entries of those colours still hold no occurrence count. *)
Definition unprobed_from (k : Z) (info : gameinfo_t) : Prop :=
  forall k', 0 <= k' < 8 -> k <= k' \/ k' = 3 -> 0 <= possible_at info k' < 32.

(** What holds whenever the colour counter is about to probe colour [k]
    with the running total [total]. *)
Definition color_inv (secret k total : Z) (info : gameinfo_t) : Prop :=
  length (possible info) = 8%nat /\
  sum_counts (possible info) = total /\
  unprobed_from k info /\
  0 <= total /\
  total + rest_of (secret_count secret) k <= 5.

(** No answer of the server carries an error code. *)
Definition error_free (srv : server) : Prop :=
  forall n buf, RESPONSE_ERROR (u8 (srv n buf)) = 0.

(** The record of the session agrees with [secret]: every processed guess
    carries the number of slots in which it coincides with the secret. *)
Definition record_of (secret : Z) (info : gameinfo_t) : Prop :=
  forall q, In q (processed info) ->
    red q = exact_matches secret (combination q).

(** The code [secret] is among the candidates. *)
Definition among (secret : Z) (cands : list perm_list_t) : Prop :=
  exists c, In c cands /\ slots_of (combination c) = slots_of secret.

(** The number of guesses sent so far. *)
Definition sent (info : gameinfo_t) : nat := length (processed info).

(** ** Proof steps used more than once *)

(** Name every indicator of the goal, keeping only its range. *)
Ltac abstract_indicators :=
  repeat match goal with
         | |- context [if ?c =? ?x then 1 else 0] =>
             let v := fresh "v" in
             let Hv := fresh "Hv" in
             assert (Hv : 0 <= (if c =? x then 1 else 0) <= 1)
               by (destruct (c =? x); lia);
             set (v := if c =? x then 1 else 0) in *;
             clearbody v
         end.

(** Record that every colour count of the goal is not negative. *)
Ltac count_color_bounds :=
  repeat match goal with
         | |- context [count_color ?c ?l] =>
             lazymatch goal with
             | H : 0 <= count_color c l |- _ => fail
             | _ => assert (0 <= count_color c l) by (unfold count_color; lia)
             end
         end.

(** Name every minimum, so that the remaining goal is linear. *)
Ltac abstract_minima :=
  repeat match goal with
         | |- context [Z.min ?x ?y] =>
             let m := fresh "m" in set (m := Z.min x y) in *; clearbody m
         | H : context [Z.min ?x ?y] |- _ =>
             let m := fresh "m" in set (m := Z.min x y) in *; clearbody m
         end.

(** Case analysis on two colours [a < b]. *)
Ltac two_colours a b :=
  let Ha := fresh "Ha" in
  let Hb := fresh "Hb" in
  assert (Ha : a = 0 \/ a = 1 \/ a = 2 \/ a = 3 \/ a = 4 \/ a = 5 \/ a = 6) by lia;
  assert (Hb : b = 1 \/ b = 2 \/ b = 3 \/ b = 4 \/ b = 5 \/ b = 6 \/ b = 7) by lia;
  destruct Ha as [->|[->|[->|[->|[->|[->| ->]]]]]];
  destruct Hb as [->|[->|[->|[->|[->|[->| ->]]]]]];
  try lia.

(** Name every minimum, keeping that it lies below both arguments and,
    for arguments known not to be negative, above 0. *)
Ltac bound_minima :=
  repeat match goal with
         | |- context [Z.min ?x ?y] =>
             let m := fresh "m" in
             pose proof (Z.le_min_l x y); pose proof (Z.le_min_r x y);
             assert (0 <= Z.min x y) by (apply Z.min_glb; lia);
             set (m := Z.min x y) in *; clearbody m
         | H : context [Z.min ?x ?y] |- _ =>
             let m := fresh "m" in
             pose proof (Z.le_min_l x y); pose proof (Z.le_min_r x y);
             assert (0 <= Z.min x y) by (apply Z.min_glb; lia);
             set (m := Z.min x y) in *; clearbody m
         end.

(** * Properties *)

(** ** Guess selector *)

Lemma compare_perm_equal_pos_slots (c1 c2 : Z) :
  compare_perm_equal_pos c1 c2 = exact_matches c1 c2.
Proof.
  unfold compare_perm_equal_pos, exact_matches, slots_of, slot, COLOR_WIDTH.
  change (Z.to_nat SLOTS) with 5%nat.
  cbn [compare_loop map count_equal].
  rewrite !Z.shiftr_shiftr by lia.
  repeat match goal with
         | |- context [Z.shiftr _ ?e] =>
             lazymatch e with
             | Z.pos _ => fail
             | Z0 => fail
             | _ => let v := eval vm_compute in e in change e with v
             end
         end.
  rewrite !Z.shiftr_0_r.
  repeat match goal with
         | |- context [Z.land ?a 7 =? Z.land ?b 7] =>
             destruct (Z.land a 7 =? Z.land b 7)
         end; vm_compute; reflexivity.
Qed.

Lemma matching_loop_true (p : perm_list_t) (processed : list perm_list_t) :
  matching_loop p processed = true -> consistent_with p processed.
Proof.
  induction processed as [|q0 rest IH]; cbn [matching_loop]; intros H q Hin.
  - destruct Hin.
  - destruct (compare_perm_equal_pos (combination p) (combination q0) =? red q0)
      eqn:E; cbn [negb] in H; [|discriminate].
    destruct Hin as [<-|Hin]; [now apply Z.eqb_eq | now apply IH].
Qed.

Lemma matching_loop_false (p : perm_list_t) (processed : list perm_list_t) :
  matching_loop p processed = false -> disagrees_with p processed.
Proof.
  induction processed as [|q0 rest IH]; cbn [matching_loop]; intros H.
  - discriminate.
  - destruct (compare_perm_equal_pos (combination p) (combination q0) =? red q0)
      eqn:E; cbn [negb] in H.
    + destruct (IH H) as (q & Hin & Hq). exists q. split; [now right | exact Hq].
    + exists q0. split; [now left | now apply Z.eqb_neq].
Qed.

Lemma find_best_perm_loop_spec (processed p before : list perm_list_t) :
  match find_best_perm_loop before p processed with
  | Some (b, x, a) =>
      before ++ p = b ++ x :: a /\ consistent_with x processed /\
      exists passed, b = before ++ passed /\
                     Forall (fun y => disagrees_with y processed) passed
  | None => Forall (fun y => disagrees_with y processed) p
  end.
Proof.
  revert before. induction p as [|p0 p' IH]; intros before; cbn [find_best_perm_loop].
  - constructor.
  - destruct (matching_loop p0 processed) eqn:E.
    + split; [reflexivity|]. split; [now apply matching_loop_true|].
      exists []. rewrite app_nil_r. split; [reflexivity | constructor].
    + specialize (IH (before ++ [p0])).
      destruct (find_best_perm_loop (before ++ [p0]) p' processed) as [[[b x] a]|].
      * destruct IH as (Heq & Hc & passed & Hb & Hall).
        rewrite <- app_assoc in Heq. split; [exact Heq|]. split; [exact Hc|].
        exists (p0 :: passed). rewrite <- app_assoc in Hb. split; [exact Hb|].
        constructor; [now apply matching_loop_false | exact Hall].
      * constructor; [now apply matching_loop_false | exact IH].
Qed.

(** C1: [find_best_perm] returns the first candidate, in list order, whose
    exact-position match count with every processed guess equals that
    guess's red count: the returned candidate is consistent with every
    processed guess, every candidate before it disagrees with some
    processed guess, and when nothing is returned every candidate
    disagrees with some processed guess.  The match count is the number of
    equal slots. *)
Theorem find_best_perm_first_consistent :
  forall candidates processed : list perm_list_t,
    (forall c1 c2, compare_perm_equal_pos c1 c2 = exact_matches c1 c2) /\
    match find_best_perm candidates processed with
    | Some (before, p, after) =>
        candidates = before ++ p :: after /\
        consistent_with p processed /\
        Forall (fun y => disagrees_with y processed) before
    | None => Forall (fun y => disagrees_with y processed) candidates
    end.
Proof.
  intros candidates processed. split; [exact compare_perm_equal_pos_slots|].
  unfold find_best_perm.
  pose proof (find_best_perm_loop_spec processed candidates []) as H.
  destruct (find_best_perm_loop [] candidates processed) as [[[b x] a]|].
  - destruct H as (Heq & Hc & passed & Hb & Hall). cbn [app] in Heq, Hb.
    subst b. auto.
  - exact H.
Qed.

(** ** Parity and the request bytes *)

Lemma land_1_b2z (p : Z) : Z.land p 1 = Z.b2z (Z.testbit p 0).
Proof.
  change 1 with (Z.ones 1). rewrite Z.land_ones by lia.
  now rewrite Z.bit0_mod.
Qed.

Lemma u8_b2z (b : bool) : u8 (Z.b2z b) = Z.b2z b.
Proof. now destruct b. Qed.

Lemma lxor_b2z (a b : bool) : Z.lxor (Z.b2z a) (Z.b2z b) = Z.b2z (xorb a b).
Proof. now destruct a, b. Qed.

Lemma xor_bits_shift (n : nat) (p : Z) :
  xor_bits (S n) p = xorb (Z.testbit p 0) (xor_bits n (Z.shiftr p 1)).
Proof.
  induction n as [|n IH].
  - cbn [xor_bits]. change (Z.of_nat 0) with 0.
    now rewrite xorb_false_l, xorb_false_r.
  - change (xor_bits (S (S n)) p)
      with (xorb (xor_bits (S n) p) (Z.testbit p (Z.of_nat (S n)))).
    rewrite IH. cbn [xor_bits].
    rewrite Z.shiftr_spec by lia.
    replace (Z.of_nat n + 1) with (Z.of_nat (S n)) by lia.
    now rewrite xorb_assoc.
Qed.

Lemma xor_bits_ext (n : nat) (a b : Z) :
  (forall i, 0 <= i < Z.of_nat n -> Z.testbit a i = Z.testbit b i) ->
  xor_bits n a = xor_bits n b.
Proof.
  induction n as [|n IH]; intros H; [reflexivity|].
  cbn [xor_bits]. rewrite IH by (intros; apply H; lia).
  now rewrite H by lia.
Qed.

Lemma parity_loop_xor (n : nat) :
  forall (p : Z) (b : bool),
    parity_loop n p (Z.b2z b) = Z.b2z (xorb b (xor_bits n p)).
Proof.
  induction n as [|n IH]; intros p b.
  - cbn [parity_loop xor_bits]. now rewrite xorb_false_r.
  - cbn [parity_loop]. rewrite land_1_b2z, lxor_b2z, u8_b2z, IH.
    now rewrite xor_bits_shift, xorb_assoc.
Qed.

Lemma compute_parity_low (req i : Z) :
  0 <= i < 15 -> Z.testbit (compute_parity req) i = Z.testbit req i.
Proof.
  intros Hi. unfold compute_parity, u16.
  change 65536 with (2 ^ 16).
  rewrite Z.mod_pow2_bits_low, Z.lor_spec by lia.
  rewrite Z.mod_pow2_bits_low, Z.land_spec, Z.lnot_spec by lia.
  rewrite !Z.shiftl_spec_low by lia.
  cbn [negb]. now rewrite andb_true_r, orb_false_r.
Qed.

Lemma compute_parity_bit15 (req : Z) :
  Z.testbit (compute_parity req) 15 = xor_bits 15 req.
Proof.
  unfold compute_parity, u16.
  change 65536 with (2 ^ 16).
  rewrite Z.mod_pow2_bits_low, Z.lor_spec by lia.
  rewrite Z.mod_pow2_bits_low, Z.land_spec, Z.lnot_spec by lia.
  change (Z.testbit (Z.shiftl 1 15) 15) with true.
  cbn [negb]. rewrite andb_false_r, orb_false_l.
  change (Z.to_nat (SLOTS * COLOR_WIDTH)) with 15%nat.
  change 0 with (Z.b2z false) at 1.
  rewrite parity_loop_xor, xorb_false_l.
  rewrite Z.shiftl_spec by lia. change (15 - 15) with 0.
  now destruct (xor_bits 15 req).
Qed.

Lemma compute_parity_range (req : Z) : 0 <= compute_parity req < 65536.
Proof. unfold compute_parity, u16. apply Z.mod_pos_bound. lia. Qed.

Lemma generate_request_bytes (req : Z) :
  forall i, 0 <= i < 8 ->
    Z.testbit (nth 0 (fst (generate_request req)) 0) i
      = Z.testbit (snd (generate_request req)) i /\
    Z.testbit (nth 1 (fst (generate_request req)) 0) i
      = Z.testbit (snd (generate_request req)) (i + 8).
Proof.
  intros i Hi. unfold generate_request. cbn [fst snd nth]. unfold u8.
  change 256 with (2 ^ 8).
  rewrite !Z.mod_pow2_bits_low by lia. split.
  - rewrite Z.land_spec, Z.lnot_spec, Z.shiftl_spec by lia.
    rewrite (Z.testbit_neg_r 255) by lia. cbn [negb]. now rewrite andb_true_r.
  - rewrite Z.shiftr_spec by lia. reflexivity.
Qed.

(** C8: [generate_request] (through [compute_parity]) sets bit 15 of the
    transmitted value to the XOR of bits 0-14 of the guess, whatever its
    bit 15 was before, and keeps bits 0-14; the XOR over all 16
    transmitted bits is therefore 0; the buffer holds bits 0-7 in its
    first byte and bits 8-15 in its second. *)
Theorem generate_request_even_parity :
  forall req : Z,
    let buffer := fst (generate_request req) in
    let sent := snd (generate_request req) in
    Z.testbit sent 15 = xor_bits 15 req /\
    (forall i, 0 <= i < 15 -> Z.testbit sent i = Z.testbit req i) /\
    xor_bits 16 sent = false /\
    0 <= sent < 65536 /\
    length buffer = 2%nat /\
    (forall i, 0 <= i < 8 ->
       Z.testbit (nth 0 buffer 0) i = Z.testbit sent i /\
       Z.testbit (nth 1 buffer 0) i = Z.testbit sent (i + 8)) /\
    0 <= nth 0 buffer 0 < 256 /\ 0 <= nth 1 buffer 0 < 256.
Proof.
  intros req buffer sent.
  assert (Hs : sent = compute_parity req) by reflexivity.
  split; [rewrite Hs; apply compute_parity_bit15|].
  split; [intros i Hi; rewrite Hs; now apply compute_parity_low|].
  split.
  { change (xor_bits 16 sent)
      with (xorb (xor_bits 15 sent) (Z.testbit sent 15)).
    rewrite Hs, compute_parity_bit15.
    rewrite (xor_bits_ext 15 (compute_parity req) req)
      by (intros i Hi; apply compute_parity_low; lia).
    apply xorb_nilpotent. }
  split; [rewrite Hs; apply compute_parity_range|].
  split; [reflexivity|].
  split; [apply generate_request_bytes|].
  subst buffer. unfold generate_request, u8. cbn [fst nth].
  split; apply Z.mod_pos_bound; lia.
Qed.

(** ** Mask enumeration *)

Lemma all_below_spec (n : nat) (f : Z -> bool) :
  all_below n f = true -> forall z, 0 <= z < Z.of_nat n -> f z = true.
Proof.
  unfold all_below. intros H z Hz.
  rewrite forallb_forall in H. apply H.
  apply in_map_iff. exists (Z.to_nat z). split; [lia|].
  apply in_seq. lia.
Qed.

Lemma count_bits_shift (n : nat) (v : Z) :
  count_bits (S n) v = Z.b2z (Z.testbit v 0) + count_bits n (Z.shiftr v 1).
Proof.
  induction n as [|n IH].
  - cbn [count_bits]. change (Z.of_nat 0) with 0. lia.
  - change (count_bits (S (S n)) v)
      with (count_bits (S n) v + Z.b2z (Z.testbit v (Z.of_nat (S n)))).
    rewrite IH. cbn [count_bits].
    rewrite Z.shiftr_spec by lia.
    replace (Z.of_nat n + 1) with (Z.of_nat (S n)) by lia. lia.
Qed.

Lemma count_bits_bounds (n : nat) (v : Z) : 0 <= count_bits n v <= Z.of_nat n.
Proof.
  induction n as [|n IH]; cbn [count_bits]; [lia|].
  destruct (Z.testbit v (Z.of_nat n)); cbn [Z.b2z]; lia.
Qed.

Lemma calculate_set_bits_loop_count (n : nat) :
  forall v acc, 0 <= acc -> acc + Z.of_nat n < 256 ->
    calculate_set_bits_loop n v acc = acc + count_bits n v.
Proof.
  induction n as [|n IH]; intros v acc H0 Hacc.
  - cbn [calculate_set_bits_loop count_bits]. lia.
  - cbn [calculate_set_bits_loop]. rewrite count_bits_shift, land_1_b2z.
    destruct (Z.testbit v 0); cbn [Z.b2z Z.eqb].
    + unfold u8. rewrite Z.mod_small by lia. rewrite IH by lia. lia.
    + rewrite IH by lia. lia.
Qed.

Lemma calculate_set_bits_count (v : Z) :
  calculate_set_bits v 5 = count_bits 5 v.
Proof.
  unfold calculate_set_bits.
  rewrite calculate_set_bits_loop_count by (cbn; lia). lia.
Qed.

Lemma combination_ok_fits (v mask count : Z) :
  combination_ok v mask count = true <-> fits v mask count.
Proof.
  unfold combination_ok, fits. change (Z.to_nat SLOTS) with 5%nat.
  rewrite andb_true_iff, !Z.eqb_eq, calculate_set_bits_count. tauto.
Qed.

Lemma land_le_r (a b : Z) : 0 <= a -> 0 <= b -> Z.land a b <= b.
Proof.
  intros Ha Hb.
  rewrite <- (Z2N.id a), <- (Z2N.id b) by assumption.
  rewrite <- N2Z.inj_land. apply N2Z.inj_le, N.land_le_r.
Qed.

Lemma fits_le (v mask count : Z) :
  0 <= mask -> fits v mask count -> 0 <= v <= mask.
Proof.
  intros Hm [Hl _].
  assert (0 <= Z.land v mask) by (apply Z.land_nonneg; now right).
  assert (H1 : 0 <= v) by lia. split; [exact H1|].
  rewrite <- Hl. now apply land_le_r.
Qed.

(** The loop, entered with [last] still to be tested: it ends, with the
    first fitting value from [last] on, or with 0 when there is none up
    to [mask]. *)
Lemma compute_combination_loop_spec (mask count : Z) (fuel : nat) :
  forall last,
    0 <= last <= mask -> mask <= 254 ->
    (Z.to_nat (mask - last) < fuel)%nat ->
    exists r, compute_combination_loop fuel last mask count = Some r /\
              first_fit_above (last - 1) mask count r.
Proof.
  induction fuel as [|f IH]; intros last Hl Hm Hf; [lia|].
  cbn [compute_combination_loop].
  destruct (combination_ok last mask count) eqn:E.
  - exists last. split; [reflexivity|]. left.
    split; [lia|]. split; [now apply combination_ok_fits|]. intros v Hv. lia.
  - assert (Hn : ~ fits last mask count).
    { intros Hfit. apply combination_ok_fits in Hfit. congruence. }
    unfold u8. rewrite Z.mod_small by lia.
    destruct (mask <? last + 1) eqn:El.
    + apply Z.ltb_lt in El. exists 0. split; [reflexivity|]. right.
      split; [reflexivity|]. intros v Hv.
      assert (v = last) by lia. now subst v.
    + apply Z.ltb_ge in El.
      destruct (IH (last + 1)) as (r & Hr & Hspec); [lia | lia | lia |].
      exists r. split; [exact Hr|].
      replace (last + 1 - 1) with last in Hspec by lia.
      destruct Hspec as [(Hrange & Hfit & Hmin) | (-> & Hnone)].
      * left. split; [lia|]. split; [exact Hfit|]. intros v Hv.
        destruct (Z.eq_dec v last) as [->|Hne]; [exact Hn | apply Hmin; lia].
      * right. split; [reflexivity|]. intros v Hv.
        destruct (Z.eq_dec v last) as [->|Hne]; [exact Hn | apply Hnone; lia].
Qed.

Lemma compute_combination_loop_above (f : nat) (last mask count : Z) :
  0 <= mask < last -> last <= 254 ->
  compute_combination_loop (S f) last mask count = Some 0.
Proof.
  intros Hm Hl. cbn [compute_combination_loop].
  destruct (combination_ok last mask count) eqn:E.
  - apply combination_ok_fits in E. apply fits_le in E; lia.
  - unfold u8. rewrite Z.mod_small by lia.
    destruct (Z.ltb_spec mask (last + 1)); [reflexivity | lia].
Qed.

Lemma compute_combination_spec (s mask count : Z) :
  0 <= s <= 253 -> 0 <= mask <= 254 ->
  exists r, compute_combination s mask count = Some r /\
            first_fit_above s mask count r.
Proof.
  intros Hs Hm. unfold compute_combination, u8.
  rewrite Z.mod_small by lia.
  destruct (Z_le_gt_dec (s + 1) mask) as [Hle|Hgt].
  - destruct (compute_combination_loop_spec mask count 512 (s + 1))
      as (r & Hr & Hspec); [lia | lia | lia |].
    exists r. split; [exact Hr|].
    now replace (s + 1 - 1) with s in Hspec by lia.
  - exists 0. split.
    + apply (compute_combination_loop_above 511); lia.
    + right. split; [reflexivity|]. intros v Hv Hfit.
      apply fits_le in Hfit; lia.
Qed.

Lemma initial_combination_pow2 (count : Z) :
  1 <= count <= 7 -> initial_combination count = 2 ^ count - 2.
Proof.
  intros H.
  assert (Hc : count = 1 \/ count = 2 \/ count = 3 \/ count = 4 \/
               count = 5 \/ count = 6 \/ count = 7) by lia.
  destruct Hc as [->|[->|[->|[->|[->|[->| ->]]]]]]; reflexivity.
Qed.

Lemma lowest_mask_with_count (count : Z) :
  1 <= count <= 5 ->
  count_bits 5 (2 ^ count - 1) = count /\
  forall v, 0 <= v < 2 ^ count - 1 -> count_bits 5 v <> count.
Proof.
  intros H.
  assert (Hc : count = 1 \/ count = 2 \/ count = 3 \/ count = 4 \/ count = 5)
    by lia.
  assert (Hall : all_below 31 (fun v =>
            forallb (fun c => (2 ^ c - 1 <=? v) || negb (count_bits 5 v =? c))
                    [1; 2; 3; 4; 5]) = true) by (vm_compute; reflexivity).
  split.
  - destruct Hc as [->|[->|[->|[-> | ->]]]]; reflexivity.
  - intros v Hv.
    assert (Hv31 : 0 <= v < Z.of_nat 31).
    { assert (2 ^ count <= 2 ^ 5) by (apply Z.pow_le_mono_r; lia).
      change (2 ^ 5) with 32 in *. lia. }
    pose proof (all_below_spec _ _ Hall v Hv31) as Hb. cbn beta in Hb.
    rewrite forallb_forall in Hb.
    assert (Hin : In count [1; 2; 3; 4; 5]) by (cbn; lia).
    specialize (Hb count Hin).
    apply orb_true_iff in Hb. destruct Hb as [Hb|Hb].
    + apply Z.leb_le in Hb. lia.
    + apply negb_true_iff, Z.eqb_neq in Hb. exact Hb.
Qed.

(** C4 (as stated, refuted): for the start value 255 the increment wraps
    to 0 and the search starts over from the bottom, so with mask 1 and
    one required bit the function returns 1, although no value lies above
    255 and within the mask, for which the claim demands 0. *)
Lemma compute_combination_wraps_at_255 :
  compute_combination 255 1 1 = Some 1 /\
  ~ (exists r, compute_combination 255 1 1 = Some r /\
               first_fit_above 255 1 1 r).
Proof.
  split; [reflexivity|].
  intros (r & Hr & Hspec).
  assert (r = 1) by (vm_compute in Hr; congruence). subst r.
  destruct Hspec as [(Hrange & _) | (H0 & _)]; lia.
Qed.

(** C4 (amended): for every mask of five bits, every required bit count
    from 1 to 5 and every start value [s] from 0 to 253,
    [compute_combination] returns the smallest [v] with [s < v <= m] that
    is a subset of [m] and has exactly [c] set bits among its low five,
    and 0 when there is none; the builder's first call passes
    [2^c - 2], so that the first value tested is [2^c - 1], the lowest
    value with [c] set bits. *)
Theorem compute_combination_first_fit :
  forall s m c : Z,
    0 <= s <= 253 -> 0 <= m <= 31 -> 1 <= c <= 5 ->
    (exists r, compute_combination s m c = Some r /\ first_fit_above s m c r) /\
    initial_combination c = 2 ^ c - 2 /\
    compute_combination (initial_combination c) m c
      = compute_combination_loop 512 (2 ^ c - 1) m c /\
    count_bits 5 (2 ^ c - 1) = c /\
    (forall v, 0 <= v < 2 ^ c - 1 -> count_bits 5 v <> c).
Proof.
  intros s m c Hs Hm Hc.
  split; [apply compute_combination_spec; lia|].
  split; [apply initial_combination_pow2; lia|].
  split.
  { unfold compute_combination. rewrite initial_combination_pow2 by lia.
    assert (H2 : 2 ^ 1 <= 2 ^ c <= 2 ^ 5)
      by (split; apply Z.pow_le_mono_r; lia).
    change (2 ^ 1) with 2 in H2. change (2 ^ 5) with 32 in H2.
    unfold u8. rewrite Z.mod_small by lia.
    now replace (2 ^ c - 2 + 1) with (2 ^ c - 1) by lia. }
  apply lowest_mask_with_count. exact Hc.
Qed.

Lemma compute_combination_first_fit_witness :
  (exists r, compute_combination 3 31 2 = Some r /\ first_fit_above 3 31 2 r) /\
  initial_combination 2 = 2 ^ 2 - 2 /\
  compute_combination (initial_combination 2) 31 2
    = compute_combination_loop 512 (2 ^ 2 - 1) 31 2 /\
  count_bits 5 (2 ^ 2 - 1) = 2 /\
  (forall v, 0 <= v < 2 ^ 2 - 1 -> count_bits 5 v <> 2).
Proof. apply (compute_combination_first_fit 3 31 2); lia. Defined.

(** ** One round and the record of the session *)

Lemma generate_request_wire (g : Z) :
  fst (generate_request g) = wire_bytes (snd (generate_request g)).
Proof. reflexivity. Qed.

Lemma u8_range (x : Z) : 0 <= u8 x < 256.
Proof. unfold u8. apply Z.mod_pos_bound. lia. Qed.

Lemma RESPONSE_ERROR_range (x : Z) : 0 <= RESPONSE_ERROR (u8 x) <= 3.
Proof.
  pose proof (u8_range x) as H. unfold RESPONSE_ERROR.
  rewrite Z.shiftr_div_pow2 by lia. change (2 ^ 6) with 64.
  split; [apply Z.div_pos; lia|].
  assert (u8 x / 64 < 4) by (apply Z.div_lt_upper_bound; lia). lia.
Qed.

Lemma RETURN_ERROR_value (e : Z) : 0 <= e <= 3 -> RETURN_ERROR e = 128 + e.
Proof.
  intros H.
  assert (Hc : e = 0 \/ e = 1 \/ e = 2 \/ e = 3) by lia.
  destruct Hc as [->|[->|[->| ->]]]; reflexivity.
Qed.

(** What [commit_guess] does, whatever it returns. *)
Lemma commit_guess_effect (srv : server) (info : gameinfo_t)
    (partition : option (list Z)) (r0 : result_t) :
  forall ret r info',
    commit_guess srv info partition r0 = (ret, r, info') ->
    let g1 := match partition with
              | Some p => snd (init_request (firstn (Z.to_nat SLOTS) p))
              | None => guess info
              end in
    let entry := mk_perm (snd (generate_request g1)) (res_red r) in
    let resp := response_to srv (length (processed info)) entry in
    round info' = u8 (round info + 1) /\
    processed info' = processed info ++ [entry] /\
    guess info' = combination entry /\
    request_buf info' = wire_bytes (combination entry) /\
    response_buf info' = resp /\
    error info' = RESPONSE_ERROR resp /\
    r = mk_result (RED resp) (WHITE resp) (u8 (TOTAL resp)) (real_hits r0) /\
    result info' = result info /\ possible info' = possible info /\
    comb info' = comb info /\ first_perm info' = first_perm info /\
    ret = (if 0 <? RESPONSE_ERROR resp then RETURN_ERROR (RESPONSE_ERROR resp)
           else if RED resp =? SLOTS then round info' else 0).
Proof.
  intros ret r info' H. unfold commit_guess in H.
  cbv zeta in H. cbv zeta.
  set (g1 := match partition with
             | Some p => snd (init_request (firstn (Z.to_nat SLOTS) p))
             | None => guess info
             end) in *.
  destruct (generate_request g1) as [buf g2] eqn:Eg.
  assert (Hbuf : buf = wire_bytes g2).
  { pose proof (generate_request_wire g1) as Hw. rewrite Eg in Hw. exact Hw. }
  unfold response_to. cbn [snd combination res_red] in *.
  rewrite <- Hbuf.
  destruct (0 <? RESPONSE_ERROR (u8 (srv (length (processed info)) buf)));
    [|destruct (RED (u8 (srv (length (processed info)) buf)) =? SLOTS)];
    inversion H; subst; cbn; repeat split; reflexivity.
Qed.

Lemma nth_error_snoc {A : Type} (l : list A) (x p : A) (k : nat) :
  nth_error (l ++ [x]) k = Some p ->
  nth_error l k = Some p \/ (k = length l /\ p = x).
Proof.
  intros H. destruct (Nat.lt_ge_cases k (length l)) as [Hlt|Hge].
  - left. now rewrite nth_error_app1 in H.
  - right. rewrite nth_error_app2 in H by exact Hge.
    destruct (k - length l)%nat as [|m] eqn:E.
    + cbn in H. split; [lia | congruence].
    + cbn in H. destruct m; discriminate.
Qed.

Lemma log_of_eq (info info' : gameinfo_t) :
  log_of info' = log_of info ->
  processed info' = processed info /\ round info' = round info /\
  error info' = error info.
Proof. unfold log_of. intros H. inversion H. auto. Qed.

Lemma trace_ok_log (srv : server) (info info' : gameinfo_t) :
  log_of info' = log_of info -> trace_ok srv info -> trace_ok srv info'.
Proof.
  intros H [Hr Hp]. apply log_of_eq in H. destruct H as (Hp' & Hr' & _).
  unfold trace_ok. rewrite Hp', Hr'. auto.
Qed.

Lemma clean_log (srv : server) (info info' : gameinfo_t) :
  log_of info' = log_of info -> clean srv info -> clean srv info'.
Proof.
  intros H Hc. apply log_of_eq in H. destruct H as (Hp' & _).
  unfold clean. now rewrite Hp'.
Qed.

Lemma errored_log (srv : server) (e : Z) (info info' : gameinfo_t) :
  log_of info' = log_of info -> errored srv e info -> errored srv e info'.
Proof.
  intros H (l & p & Hp & Hl & He & Hr & Herr).
  apply log_of_eq in H. destruct H as (Hp' & _ & He').
  exists l, p. rewrite Hp', He'. auto.
Qed.

Lemma phase_post_log (srv : server) (ret : Z) (info info' : gameinfo_t) :
  log_of info' = log_of info -> phase_post srv ret info -> phase_post srv ret info'.
Proof.
  intros H [Ht Hc]. split; [now apply (trace_ok_log srv info)|].
  destruct Hc as [[Hc Hret]|(e & Hret & He)].
  - left. split; [now apply (clean_log srv info)|].
    apply log_of_eq in H. destruct H as (_ & Hr & _). now rewrite Hr.
  - right. exists e. split; [exact Hret | now apply (errored_log srv e info)].
Qed.

Lemma phase_post_zero (srv : server) (info : gameinfo_t) :
  phase_post srv 0 info -> trace_ok srv info /\ clean srv info.
Proof.
  intros [Ht [[Hc _]|(e & Hret & (l & p & _ & _ & _ & Hr & _))]];
    [now split|].
  rewrite RETURN_ERROR_value in Hret by lia. lia.
Qed.

Lemma phase_post_start (srv : server) (info : gameinfo_t) :
  trace_ok srv info -> clean srv info -> phase_post srv 0 info.
Proof. intros Ht Hc. split; [exact Ht|]. left. split; [exact Hc | now left]. Qed.

(** One round keeps the record: the new entry is the request as sent with
    the red count of its answer; after an error code nothing else is
    true of the return value than that code with the error bit. *)
Lemma commit_guess_post (srv : server) (info : gameinfo_t)
    (partition : option (list Z)) (r0 : result_t) :
  forall ret r info',
    trace_ok srv info -> clean srv info ->
    commit_guess srv info partition r0 = (ret, r, info') ->
    phase_post srv ret info'.
Proof.
  intros ret r info' [Hround Hred] Hclean H.
  apply commit_guess_effect in H. cbv zeta in H.
  destruct H as (Hr & Hp & _ & _ & _ & Herr & Hres & _ & _ & _ & _ & Hret).
  set (g1 := match partition with
             | Some p => snd (init_request (firstn (Z.to_nat SLOTS) p))
             | None => guess info
             end) in *.
  set (entry := mk_perm (snd (generate_request g1)) (res_red r)) in *.
  set (resp := response_to srv (length (processed info)) entry) in *.
  assert (Hred' : res_red r = RED resp) by (rewrite Hres; reflexivity).
  assert (Ht : trace_ok srv info').
  { split.
    - rewrite Hr, Hp, Hround, length_app. cbn [length].
      unfold u8. rewrite Z.add_mod_idemp_l by lia. f_equal. lia.
    - intros k p Hk. rewrite Hp in Hk.
      apply nth_error_snoc in Hk. destruct Hk as [Hk|[-> ->]].
      + now apply Hred.
      + exact Hred'. }
  split; [exact Ht|].
  pose proof (RESPONSE_ERROR_range (srv (length (processed info))
                                      (wire_bytes (combination entry)))) as Hrange.
  fold (response_to srv (length (processed info)) entry) in Hrange.
  fold resp in Hrange.
  destruct (0 <? RESPONSE_ERROR resp) eqn:E.
  - apply Z.ltb_lt in E. right. exists (RESPONSE_ERROR resp).
    split; [exact Hret|]. exists (processed info), entry.
    split; [exact Hp|]. split; [exact Hclean|]. split; [reflexivity|].
    split; [lia | exact Herr].
  - apply Z.ltb_ge in E. left. split.
    + intros k p Hk. rewrite Hp in Hk.
      apply nth_error_snoc in Hk. destruct Hk as [Hk|[-> ->]].
      * now apply Hclean.
      * fold resp. lia.
    + destruct (RED resp =? SLOTS); [now right | now left].
Qed.

Lemma log_of_write_possible (k v : Z) (info : gameinfo_t) :
  log_of (write_possible k v info) = log_of info.
Proof. reflexivity. Qed.

Lemma log_of_write_result (i : nat) (r : result_t) (info : gameinfo_t) :
  log_of (write_result i r info) = log_of info.
Proof. reflexivity. Qed.

Lemma log_of_memset_possible (n : nat) :
  forall start info, log_of (memset_possible n start info) = log_of info.
Proof.
  induction n as [|n IH]; intros start info; cbn [memset_possible];
    [reflexivity|]. now rewrite IH.
Qed.

Lemma log_of_partition_body (i j : nat) (info : gameinfo_t) :
  log_of (snd (partition_body i j info)) = log_of info.
Proof.
  unfold partition_body, clear_partition_entries.
  destruct (res_total (result_at info i) =? SLOTS);
    match goal with
    | |- context [res_total (result_at ?x i) =? 0] =>
        destruct (res_total (result_at x i) =? 0)
    end;
    cbn [snd]; rewrite ?log_of_memset_possible; reflexivity.
Qed.

Lemma analyse_partitions_loop_post (srv : server) (n : nat) :
  forall i j skip info ret info',
    trace_ok srv info -> clean srv info ->
    analyse_partitions_loop srv n i j skip info = (ret, info') ->
    phase_post srv ret info'.
Proof.
  induction n as [|n IH]; intros i j skip info ret info' Ht Hc H;
    cbn [analyse_partitions_loop] in H.
  - inversion H; subst. now apply phase_post_start.
  - destruct ((i <? 2)%nat && negb skip).
    + destruct (commit_guess srv info (Some (partitions i)) (result_at info i))
        as [[ret1 r1] info1] eqn:E.
      apply (commit_guess_post srv info _ _ _ _ _ Ht Hc) in E.
      apply (phase_post_log srv ret1 info1 (write_result i r1 info1)
               (log_of_write_result _ _ _)) in E.
      destruct (ret1 =? 0) eqn:Er; cbn [negb] in H.
      * apply Z.eqb_eq in Er. subst ret1.
        destruct (partition_body i j (write_result i r1 info1))
          as [skip' info3] eqn:Eb.
        apply phase_post_zero in E. destruct E as [Ht2 Hc2].
        pose proof (log_of_partition_body i j (write_result i r1 info1)) as Hl.
        rewrite Eb in Hl. cbn [snd] in Hl.
        apply (IH _ _ _ _ _ _ (trace_ok_log _ _ _ Hl Ht2)
                 (clean_log _ _ _ Hl Hc2) H).
      * inversion H; subst. exact E.
    + inversion H; subst. now apply phase_post_start.
Qed.

Lemma analyse_partitions_post (srv : server) (info : gameinfo_t) :
  forall ret info',
    trace_ok srv info -> clean srv info ->
    analyse_partitions srv info = (ret, info') -> phase_post srv ret info'.
Proof. intros ret info'. apply analyse_partitions_loop_post. Qed.

Lemma color_loop_post (srv : server) (n : nat) :
  forall i j k st ret st',
    trace_ok srv (cs_info st) -> clean srv (cs_info st) ->
    color_loop srv n i j k st = (ret, st') ->
    phase_post srv ret (cs_info st').
Proof.
  induction n as [|n IH]; intros i j k st ret st' Ht Hc H;
    cbn [color_loop] in H.
  - inversion H; subst. now apply phase_post_start.
  - destruct (k <? Z.of_nat i * 4 + 3);
      [|inversion H; subst; now apply phase_post_start].
    destruct (commit_guess srv (cs_info st) (Some [k; k; k; k; k]) zero_result)
      as [[ret1 r1] info1] eqn:E.
    apply (commit_guess_post srv _ _ _ _ _ _ Ht Hc) in E.
    destruct (ret1 =? 0) eqn:Er; cbn [negb] in H.
    + apply Z.eqb_eq in Er. subst ret1.
      apply phase_post_zero in E. destruct E as [Ht1 Hc1].
      destruct (res_total r1 =? 0).
      * apply (IH _ _ _ _ _ _) in H; [exact H | exact Ht1 | exact Hc1].
      * match type of H with
        | (if ?c then _ else _) = _ => destruct c
        end.
        -- inversion H; subst. cbn [cs_info].
           apply phase_post_start.
           ++ apply (trace_ok_log srv info1); [|exact Ht1].
              now rewrite log_of_memset_possible.
           ++ apply (clean_log srv info1); [|exact Hc1].
              now rewrite log_of_memset_possible.
        -- apply (IH _ _ _ _ _ _) in H; [exact H | exact Ht1 | exact Hc1].
    + inversion H; subst. exact E.
Qed.

Lemma color_partition_post (srv : server) (i : nat) (total : Z)
    (info : gameinfo_t) :
  forall ret total' missing info',
    trace_ok srv info -> clean srv info ->
    color_partition srv i total info = (ret, total', missing, info') ->
    phase_post srv ret info'.
Proof.
  intros ret total' missing info' Ht Hc H. unfold color_partition in H.
  destruct (0 <? res_total (result_at info i)).
  - destruct (color_loop srv 4 i 0 (Z.of_nat i * 4) (mk_cs total 0 info))
      as [ret1 st] eqn:E.
    apply color_loop_post in E; [|exact Ht|exact Hc].
    inversion H; subst. exact E.
  - inversion H; subst. now apply phase_post_start.
Qed.

Lemma color_remainder_post (srv : server) (total : Z) (m0 m1 : bool)
    (info : gameinfo_t) :
  forall ret info',
    trace_ok srv info -> clean srv info ->
    color_remainder srv total m0 m1 info = (ret, info') ->
    phase_post srv ret info'.
Proof.
  intros ret info' Ht Hc H. unfold color_remainder in H.
  destruct (total <? SLOTS).
  - destruct (m0 && m1).
    + destruct (commit_guess srv info (Some [7; 7; 7; 7; 7]) zero_result)
        as [[ret1 r1] info1] eqn:E.
      apply (commit_guess_post srv _ _ _ _ _ _ Ht Hc) in E.
      destruct (ret1 =? 0) eqn:Er; cbn [negb] in H.
      * apply Z.eqb_eq in Er. subst ret1.
        cbv beta iota zeta in H. change (0 =? 0) with true in H.
        cbn [negb] in H. cbv iota in H.
        apply phase_post_zero in E. destruct E as [Ht1 Hc1].
        inversion H; subst.
        apply phase_post_start.
        -- apply (trace_ok_log srv info1); [|exact Ht1].
           repeat match goal with
                  | |- context [if ?c then _ else _] => destruct c
                  end; reflexivity.
        -- apply (clean_log srv info1); [|exact Hc1].
           repeat match goal with
                  | |- context [if ?c then _ else _] => destruct c
                  end; reflexivity.
      * cbv beta iota zeta in H. rewrite Er in H. cbn [negb] in H.
        inversion H; subst. exact E.
    + cbv beta iota zeta in H. change (0 =? 0) with true in H.
      cbn [negb] in H. cbv iota in H. inversion H; subst.
      apply phase_post_start.
      * apply (trace_ok_log srv info); [|exact Ht].
        repeat match goal with
               | |- context [if ?c then _ else _] => destruct c
               end; reflexivity.
      * apply (clean_log srv info); [|exact Hc].
        repeat match goal with
               | |- context [if ?c then _ else _] => destruct c
               end; reflexivity.
  - inversion H; subst. now apply phase_post_start.
Qed.

Lemma analyse_colors_post (srv : server) (info : gameinfo_t) :
  forall ret info',
    trace_ok srv info -> clean srv info ->
    analyse_colors srv info = (ret, info') -> phase_post srv ret info'.
Proof.
  intros ret info' Ht Hc H. unfold analyse_colors in H.
  destruct (color_partition srv 0 0 info) as [[[ret0 total0] m0] info0] eqn:E0.
  apply color_partition_post in E0; [|exact Ht|exact Hc].
  destruct (ret0 =? 0) eqn:Er0; cbn [negb] in H;
    [|inversion H; subst; exact E0].
  apply Z.eqb_eq in Er0. subst ret0.
  apply phase_post_zero in E0. destruct E0 as [Ht0 Hc0].
  destruct (color_partition srv 1 total0 info0)
    as [[[ret1 total1] m1] info1] eqn:E1.
  apply color_partition_post in E1; [|exact Ht0|exact Hc0].
  destruct (ret1 =? 0) eqn:Er1; cbn [negb] in H;
    [|inversion H; subst; exact E1].
  apply Z.eqb_eq in Er1. subst ret1.
  apply phase_post_zero in E1. destruct E1 as [Ht1 Hc1].
  now apply (color_remainder_post srv total1 m0 m1 info1).
Qed.

Lemma log_of_set_impossible (colors : list Z) :
  forall j info, log_of (set_impossible colors j info) = log_of info.
Proof.
  induction colors as [|c rest IH]; intros j info; cbn [set_impossible];
    [reflexivity|].
  rewrite IH. now destruct (possible_at info c =? 0).
Qed.

Lemma log_of_clear_slots (colors : list Z) :
  forall info, log_of (clear_slots colors info) = log_of info.
Proof.
  induction colors as [|c rest IH]; intros info; cbn [clear_slots];
    [reflexivity|]. now rewrite IH.
Qed.

Lemma log_of_set_possible_bits (colors : list Z) :
  forall j info, log_of (set_possible_bits colors j info) = log_of info.
Proof.
  induction colors as [|c rest IH]; intros j info; cbn [set_possible_bits];
    [reflexivity|].
  rewrite IH. now destruct (possible_at info c =? 0).
Qed.

Lemma log_of_analyse_possible (info : gameinfo_t) :
  log_of (analyse_possible info) = log_of info.
Proof.
  assert (Hstep : forall i x, log_of (analyse_possible_step i x) = log_of x).
  { intros i x. unfold analyse_possible_step.
    destruct (res_red (result_at x i) =? 0);
      [apply log_of_set_impossible|].
    destruct (res_red (result_at x i) =? real_hits (result_at x i));
      [|reflexivity].
    now rewrite log_of_set_possible_bits, log_of_clear_slots. }
  unfold analyse_possible. now rewrite !Hstep.
Qed.

Lemma guess_loop_post (srv : server) (fuel : nat) :
  forall curr info,
    trace_ok srv info -> clean srv info ->
    outcome_post srv (guess_loop srv fuel curr info).
Proof.
  induction fuel as [|f IH]; intros [[before p] after] info Ht Hc;
    cbn [guess_loop].
  - split; [exact Ht | now left].
  - destruct (commit_guess srv (set_guess (combination p) info) None zero_result)
      as [[ret r] info2] eqn:E.
    apply commit_guess_post in E;
      [| apply (trace_ok_log srv info); [reflexivity | exact Ht]
       | apply (clean_log srv info); [reflexivity | exact Hc]].
    destruct (ret =? 0) eqn:Er; cbn [negb].
    + apply Z.eqb_eq in Er. subst ret.
      apply phase_post_zero in E. destruct E as [Ht2 Hc2].
      set (info3 := set_first_perm (before ++ after) info2).
      assert (Ht3 : trace_ok srv info3)
        by (apply (trace_ok_log srv info2); [reflexivity | exact Ht2]).
      assert (Hc3 : clean srv info3)
        by (apply (clean_log srv info2); [reflexivity | exact Hc2]).
      destruct (find_best_perm (first_perm info3) (processed info3)) as [curr'|].
      * now apply IH.
      * split; [exact Ht3 | now left].
    + destruct E as [Ht2 [[Hc2 _]|(e & Hret & He)]].
      * split; [exact Ht2 | now left].
      * split; [exact Ht2|]. right. exists e. cbn [final_info].
        split; [now rewrite Hret | exact He].
Qed.

Lemma analyse_combinations_post (srv : server) (fuel : nat) (info : gameinfo_t) :
  trace_ok srv info -> clean srv info ->
  outcome_post srv (analyse_combinations srv fuel info).
Proof.
  intros Ht Hc. unfold analyse_combinations.
  destruct (process_combinations _ _ _ _) as [g perms].
  cbn [first_perm set_first_perm].
  match goal with
  | |- context [guess_loop srv fuel _ ?x] => set (info3 := x)
  end.
  assert (Ht3 : trace_ok srv info3)
    by (apply (trace_ok_log srv info); [reflexivity | exact Ht]).
  assert (Hc3 : clean srv info3)
    by (apply (clean_log srv info); [reflexivity | exact Hc]).
  destruct perms as [|p after].
  - split; [exact Ht3 | now left].
  - now apply guess_loop_post.
Qed.

Lemma initial_info_trace (srv : server) :
  trace_ok srv initial_info /\ clean srv initial_info.
Proof.
  split; [split; [reflexivity|]|]; intros k p H; destruct k; discriminate.
Qed.

(** Every run of [start_game] keeps the record, and an answer with an
    error code is the last one, returned with the error bit. *)
Lemma start_game_post (srv : server) (fuel : nat) :
  outcome_post srv (start_game srv fuel).
Proof.
  unfold start_game.
  destruct (initial_info_trace srv) as [Ht Hc].
  destruct (analyse_partitions srv initial_info) as [ret1 info1] eqn:E1.
  apply analyse_partitions_post in E1; [|exact Ht|exact Hc].
  assert (Hout : forall ret info, ret <> 0 -> phase_post srv ret info ->
                                  outcome_post srv (Returned ret info)).
  { intros ret info Hne [Ht' [[Hc' _]|(e & Hret & He)]].
    - split; [exact Ht' | now left].
    - split; [exact Ht'|]. right. exists e. cbn [final_info].
      split; [now rewrite Hret | exact He]. }
  destruct (ret1 =? 0) eqn:Er1; cbn [negb];
    [|apply Hout; [now apply Z.eqb_neq | exact E1]].
  apply Z.eqb_eq in Er1. subst ret1.
  apply phase_post_zero in E1. destruct E1 as [Ht1 Hc1].
  destruct (analyse_colors srv info1) as [ret2 info2] eqn:E2.
  apply analyse_colors_post in E2; [|exact Ht1|exact Hc1].
  destruct (ret2 =? 0) eqn:Er2; cbn [negb];
    [|apply Hout; [now apply Z.eqb_neq | exact E2]].
  apply Z.eqb_eq in Er2. subst ret2.
  apply phase_post_zero in E2. destruct E2 as [Ht2 Hc2].
  pose proof (analyse_combinations_post srv fuel (analyse_possible info2)
                (trace_ok_log srv _ _ (log_of_analyse_possible info2) Ht2)
                (clean_log srv _ _ (log_of_analyse_possible info2) Hc2)) as H.
  destruct (analyse_combinations srv fuel (analyse_possible info2))
    as [ret info4|info4|info4|info4]; try exact H.
  destruct (ret =? 0) eqn:Er; cbn [negb]; [|exact H].
  apply Z.eqb_eq in Er. subst ret.
  destruct H as [Ht4 [Hc4|(e & Hret & (l & p & _ & _ & _ & Hr & _))]].
  - split; [exact Ht4 | now left].
  - cbn [final_info] in Hret. inversion Hret as [Hz].
    rewrite RETURN_ERROR_value in Hz by lia. lia.
Qed.

Lemma commit_guess_error (srv : server) (info : gameinfo_t)
    (partition : option (list Z)) (r0 : result_t) :
  forall ret r info',
    commit_guess srv info partition r0 = (ret, r, info') ->
    RESPONSE_ERROR (response_buf info') <> 0 ->
    ret = RETURN_ERROR (RESPONSE_ERROR (response_buf info')) /\
    ret = 128 + RESPONSE_ERROR (response_buf info') /\
    IS_ERROR ret <> 0 /\
    error info' = RESPONSE_ERROR (response_buf info').
Proof.
  intros ret r info' H Hne.
  apply commit_guess_effect in H. cbv zeta in H.
  destruct H as (_ & _ & _ & _ & Hresp & Herr & _ & _ & _ & _ & _ & Hret).
  rewrite <- Hresp in Hret, Herr.
  assert (Hrange : 0 <= RESPONSE_ERROR (response_buf info') <= 3).
  { rewrite Hresp. unfold response_to. apply RESPONSE_ERROR_range. }
  assert (Hpos : (0 <? RESPONSE_ERROR (response_buf info')) = true)
    by (apply Z.ltb_lt; lia).
  rewrite Hpos in Hret.
  assert (Hv := RETURN_ERROR_value _ Hrange).
  split; [exact Hret|]. split; [congruence|]. split; [|exact Herr].
  rewrite Hret, Hv.
  assert (Hc : RESPONSE_ERROR (response_buf info') = 1 \/
               RESPONSE_ERROR (response_buf info') = 2 \/
               RESPONSE_ERROR (response_buf info') = 3) by lia.
  destruct Hc as [->|[-> | ->]]; discriminate.
Qed.

Lemma start_game_error_is_last (srv : server) (fuel : nat) (k : nat)
    (p : perm_list_t) :
  nth_error (processed (final_info (start_game srv fuel))) k = Some p ->
  RESPONSE_ERROR (response_to srv k p) <> 0 ->
  S k = length (processed (final_info (start_game srv fuel))) /\
  start_game srv fuel
    = Returned (RETURN_ERROR (RESPONSE_ERROR (response_to srv k p)))
        (final_info (start_game srv fuel)).
Proof.
  intros Hk Hne.
  destruct (start_game_post srv fuel) as [_ [Hc|(e & Ho & l & q & Hp & Hl & He & _)]].
  - exfalso. apply Hne. now apply Hc.
  - rewrite Hp in Hk. apply nth_error_snoc in Hk.
    destruct Hk as [Hk|[-> ->]].
    + exfalso. apply Hne. now apply Hl.
    + rewrite Hp, length_app. cbn [length]. split; [lia|].
      now rewrite He.
Qed.

Lemma first_round_parity_error (srv : server) (fuel : nat) :
  RESPONSE_ERROR (u8 (srv 0%nat [64; 52])) = ERROR_PARITY ->
  exists info,
    start_game srv fuel = Returned 129 info /\
    length (processed info) = 1%nat /\
    main_result 129 = ([ParityErrorLine], 2).
Proof.
  intros H. unfold start_game, analyse_partitions.
  cbn [analyse_partitions_loop Nat.ltb Nat.leb andb negb].
  destruct (commit_guess srv initial_info (Some (partitions 0))
              (result_at initial_info 0)) as [[ret r] info1] eqn:E.
  apply commit_guess_effect in E. cbv zeta in E.
  destruct E as (_ & Hp & _ & _ & _ & _ & _ & _ & _ & _ & _ & Hret).
  unfold response_to in Hret. cbn [combination processed initial_info length] in Hret.
  change (wire_bytes (snd (generate_request
            (snd (init_request (firstn (Z.to_nat SLOTS) (partitions 0)))))))
    with [64; 52] in Hret.
  rewrite H in Hret. change (0 <? ERROR_PARITY) with true in Hret.
  change (RETURN_ERROR ERROR_PARITY) with 129 in Hret. subst ret.
  change (negb (129 =? 0)) with true. cbv iota.
  eexists. split; [reflexivity|]. split; [|reflexivity].
  cbn [processed write_result set_result]. rewrite Hp. reflexivity.
Qed.

(** C9: when an answer byte carries a nonzero error code in bits 6-7,
    [commit_guess] returns that code with the error bit set; each phase
    ([analyse_partitions], [analyse_colors], [analyse_combinations]) ends
    with that value and with the erroneous answer as the last entry of the
    record, so no further guess is submitted; [start_game] returns it as
    the outcome of the session; an error code 1 (parity) in the first
    round ends the game with value 129 after one guess, which [main]
    reports as a parity error. *)
Theorem error_response_ends_session :
  forall srv : server,
    (forall info partition r0 ret r info',
        commit_guess srv info partition r0 = (ret, r, info') ->
        RESPONSE_ERROR (response_buf info') <> 0 ->
        ret = RETURN_ERROR (RESPONSE_ERROR (response_buf info')) /\
        ret = 128 + RESPONSE_ERROR (response_buf info') /\
        IS_ERROR ret <> 0 /\
        error info' = RESPONSE_ERROR (response_buf info')) /\
    (forall info ret info',
        trace_ok srv info -> clean srv info ->
        analyse_partitions srv info = (ret, info') ->
        phase_post srv ret info') /\
    (forall info ret info',
        trace_ok srv info -> clean srv info ->
        analyse_colors srv info = (ret, info') ->
        phase_post srv ret info') /\
    (forall fuel info,
        trace_ok srv info -> clean srv info ->
        outcome_post srv (analyse_combinations srv fuel info)) /\
    (forall fuel k p,
        nth_error (processed (final_info (start_game srv fuel))) k = Some p ->
        RESPONSE_ERROR (response_to srv k p) <> 0 ->
        S k = length (processed (final_info (start_game srv fuel))) /\
        start_game srv fuel
          = Returned (RETURN_ERROR (RESPONSE_ERROR (response_to srv k p)))
              (final_info (start_game srv fuel))) /\
    (forall fuel,
        RESPONSE_ERROR (u8 (srv 0%nat [64; 52])) = ERROR_PARITY ->
        exists info,
          start_game srv fuel = Returned 129 info /\
          length (processed info) = 1%nat /\
          main_result 129 = ([ParityErrorLine], 2)).
Proof.
  intros srv.
  split; [intros info partition r0; apply commit_guess_error|].
  split; [apply analyse_partitions_post|].
  split; [apply analyse_colors_post|].
  split; [intros fuel info; apply analyse_combinations_post|].
  split; [intros fuel k p; apply start_game_error_is_last|].
  intros fuel. apply first_round_parity_error.
Qed.

(** A server that rejects every request with a parity error. *)
Lemma error_response_ends_session_witness :
  RESPONSE_ERROR (u8 64) = ERROR_PARITY /\
  exists info,
    start_game (fun _ _ => 64) 5 = Returned 129 info /\
    length (processed info) = 1%nat /\
    main_result 129 = ([ParityErrorLine], 2).
Proof.
  split; [reflexivity|].
  apply (proj2 (proj2 (proj2 (proj2 (proj2
           (error_response_ends_session (fun _ _ => 64))))))).
  reflexivity.
Defined.

(** C10: every call of [commit_guess] adds one to the round counter (a
    [uint8_t]) and appends one node, holding the guess as transmitted and
    the red count received, at the tail of the processed list, whatever
    value the call returns (error, win or 0); so at the end of every run
    the processed list has one entry per request, in the order in which
    they were sent, each with the red count of its answer, and the round
    counter is their number. *)
Theorem commit_guess_records_round :
  forall srv : server,
    (forall info partition r0 ret r info',
        commit_guess srv info partition r0 = (ret, r, info') ->
        round info' = u8 (round info + 1) /\
        (0 <= round info < 255 -> round info' = round info + 1) /\
        processed info' = processed info ++ [mk_perm (guess info') (res_red r)] /\
        request_buf info' = wire_bytes (guess info') /\
        response_buf info'
          = u8 (srv (length (processed info)) (request_buf info')) /\
        res_red r = RED (response_buf info') /\
        ret = (if 0 <? RESPONSE_ERROR (response_buf info')
               then RETURN_ERROR (RESPONSE_ERROR (response_buf info'))
               else if RED (response_buf info') =? SLOTS then round info'
                    else 0)) /\
    (forall fuel, trace_ok srv (final_info (start_game srv fuel))).
Proof.
  intros srv. split.
  - intros info partition r0 ret r info' H.
    apply commit_guess_effect in H. cbv zeta in H.
    destruct H as (Hr & Hp & Hg & Hb & Hresp & _ & Hres & _ & _ & _ & _ & Hret).
    cbn [combination] in Hg, Hb, Hresp.
    rewrite <- Hg in Hp, Hb.
    assert (Hresp' : response_buf info'
                     = u8 (srv (length (processed info)) (request_buf info'))).
    { rewrite Hresp, Hb. unfold response_to. cbn [combination].
      now rewrite Hg. }
    assert (Hresp2 : response_to srv (length (processed info))
                       (mk_perm (snd (generate_request
                          match partition with
                          | Some p => snd (init_request (firstn (Z.to_nat SLOTS) p))
                          | None => guess info
                          end)) (res_red r)) = response_buf info')
      by (now rewrite Hresp).
    rewrite Hresp2 in Hret, Hres.
    split; [exact Hr|].
    split; [intros Hlt; rewrite Hr; unfold u8; rewrite Z.mod_small; lia|].
    split; [exact Hp|]. split; [exact Hb|]. split; [exact Hresp'|].
    split; [now rewrite Hres | exact Hret].
  - intros fuel. apply start_game_post.
Qed.

Lemma commit_guess_records_round_witness :
  let '(ret, r, info') := commit_guess (fun _ _ => 0) initial_info None zero_result in
  0 <= round initial_info < 255 /\ round info' = round initial_info + 1.
Proof.
  split; [cbn; lia|].
  apply (proj1 (proj2
           (proj1 (commit_guess_records_round (fun _ _ => 0))
              initial_info None zero_result _ _ _ eq_refl))).
  cbn; lia.
Defined.

(** ** Array reads and writes *)

Lemma length_upd {A : Type} (l : list A) :
  forall k v, length (upd l k v) = length l.
Proof.
  induction l as [|h t IH]; intros [|k] v; cbn [upd length]; auto.
Qed.

Lemma nth_upd_same {A : Type} (l : list A) :
  forall k v d, (k < length l)%nat -> nth k (upd l k v) d = v.
Proof.
  induction l as [|h t IH]; intros [|k] v d H; cbn [length] in H;
    cbn [upd nth]; try lia; auto.
  apply IH. lia.
Qed.

Lemma nth_upd_other {A : Type} (l : list A) :
  forall k k' v d, k <> k' -> nth k' (upd l k v) d = nth k' l d.
Proof.
  induction l as [|h t IH]; intros [|k] [|k'] v d H; cbn [upd nth];
    try reflexivity; try congruence.
  apply IH. congruence.
Qed.

Lemma possible_at_write (k k' v : Z) (info : gameinfo_t) :
  0 <= k < Z.of_nat (length (possible info)) -> 0 <= k' ->
  possible_at (write_possible k v info) k'
    = if k' =? k then v else possible_at info k'.
Proof.
  intros Hk Hk'. unfold possible_at, write_possible. cbn [possible set_possible].
  destruct (k' =? k) eqn:E.
  - apply Z.eqb_eq in E. subst k'. apply nth_upd_same. lia.
  - apply Z.eqb_neq in E. apply nth_upd_other. lia.
Qed.

Lemma length_possible_write (k v : Z) (info : gameinfo_t) :
  length (possible (write_possible k v info)) = length (possible info).
Proof. unfold write_possible. cbn [possible set_possible]. apply length_upd. Qed.

Lemma result_at_write (i i' : nat) (r : result_t) (info : gameinfo_t) :
  (i < length (result info))%nat ->
  result_at (write_result i r info) i'
    = if (i' =? i)%nat then r else result_at info i'.
Proof.
  intros Hi. unfold result_at, write_result. cbn [result set_result].
  destruct (i' =? i)%nat eqn:E.
  - apply Nat.eqb_eq in E. subst i'. now apply nth_upd_same.
  - apply Nat.eqb_neq in E. apply nth_upd_other. congruence.
Qed.

Lemma length_result_write (i : nat) (r : result_t) (info : gameinfo_t) :
  length (result (write_result i r info)) = length (result info).
Proof. unfold write_result. cbn [result set_result]. apply length_upd. Qed.

Lemma possible_at_memset (n : nat) :
  forall start info k,
    0 <= start -> start + Z.of_nat n <= Z.of_nat (length (possible info)) ->
    0 <= k ->
    possible_at (memset_possible n start info) k
      = if (start <=? k) && (k <? start + Z.of_nat n) then 0
        else possible_at info k.
Proof.
  induction n as [|n IH]; intros start info k Hs Hlen Hk;
    cbn [memset_possible].
  - replace ((start <=? k) && (k <? start + Z.of_nat 0)) with false;
      [reflexivity|].
    symmetry. apply andb_false_iff.
    destruct (Z.leb_spec start k); [right; apply Z.ltb_ge; lia | now left].
  - rewrite IH by (rewrite ?length_possible_write; lia).
    rewrite possible_at_write by lia.
    destruct (Z.leb_spec (start + 1) k), (Z.leb_spec start k),
      (Z.ltb_spec k (start + 1 + Z.of_nat n)),
      (Z.ltb_spec k (start + Z.of_nat (S n))), (Z.eqb_spec k start);
      cbn [andb]; try reflexivity; lia.
Qed.

Lemma length_possible_memset (n : nat) :
  forall start info,
    length (possible (memset_possible n start info)) = length (possible info).
Proof.
  induction n as [|n IH]; intros start info; cbn [memset_possible];
    [reflexivity|]. now rewrite IH, length_possible_write.
Qed.

Lemma result_memset (n : nat) :
  forall start info, result (memset_possible n start info) = result info.
Proof.
  induction n as [|n IH]; intros start info; cbn [memset_possible];
    [reflexivity|]. now rewrite IH.
Qed.

Lemma processed_memset (n : nat) :
  forall start info, processed (memset_possible n start info) = processed info.
Proof.
  induction n as [|n IH]; intros start info; cbn [memset_possible];
    [reflexivity|]. now rewrite IH.
Qed.

(** ** The arbiter's marks *)

Lemma count_color_cons (c x : Z) (l : list Z) :
  count_color c (x :: l) = (if c =? x then 1 else 0) + count_color c l.
Proof.
  unfold count_color. cbn [filter].
  destruct (c =? x); cbn [length]; lia.
Qed.

Lemma count_color_nonneg (c : Z) (l : list Z) : 0 <= count_color c l.
Proof. unfold count_color. lia. Qed.

Lemma count_equal_nonneg (l1 : list Z) : forall l2, 0 <= count_equal l1 l2.
Proof.
  induction l1 as [|a t1 IH]; intros [|b t2]; cbn [count_equal]; try lia.
  specialize (IH t2). destruct (a =? b); lia.
Qed.

Lemma indicator_sum (a : Z) :
  0 <= (if 0 =? a then 1 else 0) + (if 1 =? a then 1 else 0)
       + (if 2 =? a then 1 else 0) + (if 3 =? a then 1 else 0)
       + (if 4 =? a then 1 else 0) + (if 5 =? a then 1 else 0)
       + (if 6 =? a then 1 else 0) + (if 7 =? a then 1 else 0) <= 1 /\
  (0 <= a < 8 ->
   (if 0 =? a then 1 else 0) + (if 1 =? a then 1 else 0)
   + (if 2 =? a then 1 else 0) + (if 3 =? a then 1 else 0)
   + (if 4 =? a then 1 else 0) + (if 5 =? a then 1 else 0)
   + (if 6 =? a then 1 else 0) + (if 7 =? a then 1 else 0) = 1).
Proof.
  destruct (Z.eqb_spec 0 a) as [<-|H0]; [cbn; lia|].
  destruct (Z.eqb_spec 1 a) as [<-|H1]; [cbn; lia|].
  destruct (Z.eqb_spec 2 a) as [<-|H2]; [cbn; lia|].
  destruct (Z.eqb_spec 3 a) as [<-|H3]; [cbn; lia|].
  destruct (Z.eqb_spec 4 a) as [<-|H4]; [cbn; lia|].
  destruct (Z.eqb_spec 5 a) as [<-|H5]; [cbn; lia|].
  destruct (Z.eqb_spec 6 a) as [<-|H6]; [cbn; lia|].
  destruct (Z.eqb_spec 7 a) as [<-|H7]; [cbn; lia|].
  lia.
Qed.

Lemma min_add_mono (x y v w : Z) :
  0 <= v -> 0 <= w -> Z.min x y <= Z.min (v + x) (w + y).
Proof. intros Hv Hw. apply Z.min_glb; lia. Qed.

(** Colour matches regardless of position, over the eight colours. *)
Lemma count_equal_le_min (l1 : list Z) :
  forall l2,
    Forall (fun x => 0 <= x < 8) l1 ->
    count_equal l1 l2
    <= fold_right Z.add 0
         (map (fun c => Z.min (count_color c l1) (count_color c l2))
              [0; 1; 2; 3; 4; 5; 6; 7]).
Proof.
  induction l1 as [|a t1 IH]; intros [|b t2] Hall; cbn [count_equal].
  - cbn. lia.
  - cbn [map fold_right]. count_color_bounds.
    repeat match goal with
           | |- context [Z.min (count_color ?c []) ?y] =>
               change (Z.min (count_color c []) y) with (Z.min 0 y);
               rewrite (Z.min_l 0 y) by assumption
           end. lia.
  - cbn [map fold_right]. count_color_bounds.
    repeat match goal with
           | |- context [Z.min ?x (count_color ?c [])] =>
               change (Z.min x (count_color c [])) with (Z.min x 0);
               rewrite (Z.min_r x 0) by assumption
           end. lia.
  - inversion Hall as [|? ? Ha Ht]; subst.
    specialize (IH t2 Ht). cbn [map fold_right] in *.
    rewrite !count_color_cons.
    destruct (Z.eqb_spec a b) as [->|Hne].
    + pose proof (proj2 (indicator_sum b) Ha) as Hsum.
      abstract_indicators. rewrite !Z.add_min_distr_l.
      abstract_minima. lia.
    + abstract_indicators.
      repeat match goal with
             | |- context [Z.min (?v + ?x) (?w + ?y)] =>
                 let m := fresh "m" in
                 pose proof (min_add_mono x y v w ltac:(lia) ltac:(lia));
                 set (m := Z.min (v + x) (w + y)) in *; clearbody m
             end.
      abstract_minima. lia.
Qed.

Lemma min_sum_le_length (l1 l2 : list Z) :
  fold_right Z.add 0
    (map (fun c => Z.min (count_color c l1) (count_color c l2))
         [0; 1; 2; 3; 4; 5; 6; 7])
  <= Z.of_nat (length l1).
Proof.
  assert (H : fold_right Z.add 0 (map (fun c => count_color c l1)
                                      [0; 1; 2; 3; 4; 5; 6; 7])
              <= Z.of_nat (length l1)).
  { induction l1 as [|a t IH]; [cbn; lia|].
    cbn [map fold_right length] in *. rewrite !count_color_cons.
    pose proof (proj1 (indicator_sum a)) as Hsum.
    abstract_indicators. lia. }
  cbn [map fold_right] in *.
  repeat match goal with
         | |- context [Z.min ?x ?y] =>
             let m := fresh "m" in
             pose proof (Z.le_min_l x y);
             set (m := Z.min x y) in *; clearbody m
         end.
  lia.
Qed.

Lemma slots_of_range (code : Z) : Forall (fun x => 0 <= x < 8) (slots_of code).
Proof.
  unfold slots_of. apply Forall_forall. intros x Hx.
  apply in_map_iff in Hx. destruct Hx as (j & <- & _).
  unfold slot. change 7 with (Z.ones 3). rewrite Z.land_ones by lia.
  apply Z.mod_pos_bound. lia.
Qed.

Lemma arbiter_marks_range (secret g : Z) :
  0 <= arbiter_red secret g <= arbiter_total secret g /\
  arbiter_total secret g <= 5.
Proof.
  unfold arbiter_red, arbiter_total. split; [split|].
  - apply count_equal_nonneg.
  - apply count_equal_le_min, slots_of_range.
  - pose proof (min_sum_le_length (slots_of secret) (slots_of g)) as H.
    exact H.
Qed.

(** The arbiter of the model answers for its secret: the hypothesis of
    the game-level statements is met by every secret. *)
Lemma honest_answers (secret : Z) : answers_for secret (honest secret).
Proof.
  intros n buf. unfold honest.
  assert (Hr : 0 <= arbiter_byte secret buf < 64).
  { unfold arbiter_byte.
    pose proof (arbiter_marks_range secret (nth 0 buf 0 + 256 * nth 1 buf 0)).
    cbv zeta. lia. }
  unfold u8. rewrite (Z.mod_small _ 256) by lia.
  change 63 with (Z.ones 6). rewrite Z.land_ones by lia.
  apply Z.mod_small. exact Hr.
Qed.


Lemma TOTAL_low_bits (x : Z) : TOTAL (Z.land x 63) = TOTAL x.
Proof.
  unfold TOTAL, RED, WHITE.
  rewrite <- !Z.land_assoc.
  change (Z.land 63 7) with 7.
  change (Z.land 63 (Z.shiftl 7 3)) with (Z.shiftl 7 3). reflexivity.
Qed.

(** The answer byte is decoded back to the marks it was made of. *)
Lemma marks_decode (r w : Z) :
  0 <= r < 8 -> 0 <= w < 8 ->
  RED (r + 8 * w) = r /\ WHITE (r + 8 * w) = w.
Proof.
  intros Hr Hw.
  assert (Hall : all_below 8 (fun r =>
            all_below 8 (fun w =>
              (RED (r + 8 * w) =? r) && (WHITE (r + 8 * w) =? w))) = true)
    by (vm_compute; reflexivity).
  pose proof (all_below_spec _ _ Hall r ltac:(lia)) as H. cbn beta in H.
  pose proof (all_below_spec _ _ H w ltac:(lia)) as H'. cbn beta in H'.
  apply andb_true_iff in H'. now rewrite !Z.eqb_eq in H'.
Qed.

Lemma total_of_arbiter_byte (secret : Z) (buf : list Z) :
  u8 (TOTAL (arbiter_byte secret buf))
  = arbiter_total secret (nth 0 buf 0 + 256 * nth 1 buf 0).
Proof.
  unfold arbiter_byte. cbv zeta.
  pose proof (arbiter_marks_range secret (nth 0 buf 0 + 256 * nth 1 buf 0))
    as Hr.
  set (r := arbiter_red secret (nth 0 buf 0 + 256 * nth 1 buf 0)) in *.
  set (t := arbiter_total secret (nth 0 buf 0 + 256 * nth 1 buf 0)) in *.
  destruct (marks_decode r (t - r)) as [Hred Hwhite]; [lia | lia |].
  unfold TOTAL. rewrite Hred, Hwhite.
  unfold u8. rewrite Z.mod_small by lia. lia.
Qed.

(** Whatever its error bits, an answer for [secret] carries the total
    of the arbiter. *)
Lemma total_of_answer (srv : server) (secret : Z) (n : nat) (buf : list Z) :
  answers_for secret srv ->
  u8 (TOTAL (u8 (srv n buf)))
  = arbiter_total secret (nth 0 buf 0 + 256 * nth 1 buf 0).
Proof.
  intros Ha. rewrite <- TOTAL_low_bits, (Ha n buf).
  apply total_of_arbiter_byte.
Qed.

Lemma count_sum_length (l : list Z) :
  Forall (fun x => 0 <= x < 8) l ->
  fold_right Z.add 0 (map (fun c => count_color c l) [0; 1; 2; 3; 4; 5; 6; 7])
  = Z.of_nat (length l).
Proof.
  induction l as [|a t IH]; intros Hall; [reflexivity|].
  inversion Hall as [|? ? Ha Ht]; subst. specialize (IH Ht).
  cbn [map fold_right length] in *. rewrite !count_color_cons.
  pose proof (proj2 (indicator_sum a) Ha) as Hsum.
  abstract_indicators. lia.
Qed.

(** ** Partition prober *)

Lemma result_at_memset (n : nat) (start : Z) (info : gameinfo_t) (i : nat) :
  result_at (memset_possible n start info) i = result_at info i.
Proof. unfold result_at. now rewrite result_memset. Qed.

Lemma partition_body_spec (i j : nat) (info : gameinfo_t) :
  well_sized info -> (i < 2)%nat -> (j < 2)%nat -> i <> j ->
  forall skip info',
    partition_body i j info = (skip, info') ->
    well_sized info' /\ processed info' = processed info /\
    (res_total (result_at info i) = 5 ->
     skip = true /\ marks (result_at info' j) = (0, 0, 0) /\
     partition_cleared j info') /\
    (res_total (result_at info i) = 0 ->
     skip = true /\ marks (result_at info' j) = (1, 0, 5) /\
     partition_cleared i info') /\
    (res_total (result_at info i) <> 5 -> res_total (result_at info i) <> 0 ->
     skip = false /\ info' = info).
Proof.
  intros [Hr Hp] Hi Hj Hij skip info' H. unfold partition_body in H.
  assert (Hclear : forall c x, (c < 2)%nat -> length (possible x) = 8%nat ->
            partition_cleared c (clear_partition_entries c x)).
  { intros c x Hc Hx k Hk. unfold clear_partition_entries.
    rewrite possible_at_memset by lia.
    replace (Z.of_nat c * 4) with (4 * Z.of_nat c) by lia.
    destruct (Z.leb_spec (4 * Z.of_nat c) k),
      (Z.ltb_spec k (4 * Z.of_nat c + Z.of_nat 4)); cbn [andb];
      try reflexivity; lia. }
  destruct (res_total (result_at info i) =? SLOTS) eqn:E5.
  - apply Z.eqb_eq in E5. change SLOTS with 5 in E5.
    rewrite result_at_write in H by lia.
    assert (Hne : (i =? j)%nat = false) by now apply Nat.eqb_neq.
    rewrite Hne in H. rewrite E5 in H. change (5 =? 0) with false in H.
    inversion H; subst; clear H.
    unfold well_sized, clear_partition_entries.
    rewrite length_possible_memset, result_memset, processed_memset.
    split; [split; [now rewrite length_result_write | exact Hp]|].
    split; [reflexivity|].
    split; [|split; intros; lia].
    intros _. split; [reflexivity|]. split.
    + rewrite result_at_memset, result_at_write by lia.
      now rewrite Nat.eqb_refl.
    + apply Hclear; [exact Hj | exact Hp].
  - apply Z.eqb_neq in E5. change SLOTS with 5 in E5.
    destruct (res_total (result_at info i) =? 0) eqn:E0.
    + apply Z.eqb_eq in E0. inversion H; subst; clear H.
      unfold well_sized, clear_partition_entries.
      rewrite length_possible_memset, result_memset, processed_memset.
      split; [split; [now rewrite length_result_write | exact Hp]|].
      split; [reflexivity|].
      split; [intros; lia|]. split; [|intros; lia].
      intros _. split; [reflexivity|]. split.
      * rewrite result_at_memset, result_at_write by lia.
        now rewrite Nat.eqb_refl.
      * apply Hclear; [exact Hi | exact Hp].
    + apply Z.eqb_neq in E0. inversion H; subst; clear H.
      split; [now split|]. split; [reflexivity|].
      split; [intros; lia|]. split; [intros; lia|]. intros _ _. now split.
Qed.

(** One probe: what the state holds after [commit_guess] has returned 0
    and the result has been stored. *)
Lemma partition_probe_spec (srv : server) (i : nat) (info : gameinfo_t) :
  well_sized info -> (i < 2)%nat ->
  forall r info1,
    commit_guess srv info (Some (partitions i)) (result_at info i)
      = (0, r, info1) ->
    let info2 := write_result i r info1 in
    well_sized info2 /\
    processed info2
      = processed info ++ [probe_entry srv (length (processed info)) i] /\
    res_total (result_at info2 i) = probe_total srv (length (processed info)) i.
Proof.
  intros [Hr Hp] Hi r info1 H. apply commit_guess_effect in H. cbv zeta in H.
  destruct H as (_ & Hproc & _ & _ & _ & _ & Hres & Hresult & Hposs & _).
  cbv zeta. unfold well_sized.
  rewrite length_result_write, Hresult.
  split; [split; [exact Hr | cbn [possible write_result set_result]; congruence]|].
  split.
  - cbn [processed write_result set_result]. rewrite Hproc.
    rewrite Hres. reflexivity.
  - rewrite result_at_write by (rewrite Hresult; lia).
    rewrite Nat.eqb_refl, Hres. reflexivity.
Qed.

Lemma analyse_partitions_spec (srv : server) (info info' : gameinfo_t) :
  well_sized info ->
  analyse_partitions srv info = (0, info') ->
  let n := length (processed info) in
  (probe_total srv n 0 = 5 ->
   marks (result_at info' 1) = (0, 0, 0) /\ partition_cleared 1 info' /\
   processed info' = processed info ++ [probe_entry srv n 0]) /\
  (probe_total srv n 0 = 0 ->
   marks (result_at info' 1) = (1, 0, 5) /\ partition_cleared 0 info' /\
   processed info' = processed info ++ [probe_entry srv n 0]) /\
  (probe_total srv n 0 <> 5 -> probe_total srv n 0 <> 0 ->
   processed info'
     = processed info ++ [probe_entry srv n 0; probe_entry srv (S n) 1] /\
   (probe_total srv (S n) 1 = 5 ->
    marks (result_at info' 0) = (0, 0, 0) /\ partition_cleared 0 info') /\
   (probe_total srv (S n) 1 = 0 ->
    marks (result_at info' 0) = (1, 0, 5) /\ partition_cleared 1 info')).
Proof.
  intros Hw H. unfold analyse_partitions in H.
  cbn [analyse_partitions_loop Nat.ltb Nat.leb andb negb] in H.
  destruct (commit_guess srv info (Some (partitions 0)) (result_at info 0))
    as [[ret0 r0] info1] eqn:E0.
  destruct (ret0 =? 0) eqn:Er0; cbn [negb] in H;
    [|inversion H; subst; discriminate].
  apply Z.eqb_eq in Er0. subst ret0.
  destruct (partition_probe_spec srv 0 info Hw ltac:(lia) _ _ E0)
    as (Hw2 & Hp2 & Ht2).
  destruct (partition_body 0 1 (write_result 0 r0 info1)) as [skip info3] eqn:Eb.
  destruct (partition_body_spec 0 1 _ Hw2 ltac:(lia) ltac:(lia) ltac:(lia) _ _ Eb)
    as (Hw3 & Hp3 & H5 & H0 & Hn).
  rewrite Ht2 in H5, H0, Hn. rewrite Hp2 in Hp3.
  cbv zeta. split; [|split].
  - intros Ht. destruct (H5 Ht) as (-> & Hm & Hc).
    cbn [andb negb Nat.add Nat.modulo] in H. inversion H; subst. auto.
  - intros Ht. destruct (H0 Ht) as (-> & Hm & Hc).
    cbn [andb negb Nat.add Nat.modulo] in H. inversion H; subst. auto.
  - intros Ht5 Ht0. destruct (Hn Ht5 Ht0) as (-> & ->).
    change ((1 + 1) mod 2)%nat with 0%nat in H.
    cbn [andb negb Nat.ltb Nat.leb] in H.
    destruct (commit_guess srv (write_result 0 r0 info1) (Some (partitions 1))
                (result_at (write_result 0 r0 info1) 1))
      as [[ret1 r1] info4] eqn:E1.
    destruct (ret1 =? 0) eqn:Er1; cbn [negb] in H;
      [|inversion H; subst; discriminate].
    apply Z.eqb_eq in Er1. subst ret1.
    destruct (partition_probe_spec srv 1 _ Hw2 ltac:(lia) _ _ E1)
      as (Hw5 & Hp5 & Ht5').
    destruct (partition_body 1 0 (write_result 1 r1 info4))
      as [skip' info6] eqn:Eb'.
    destruct (partition_body_spec 1 0 _ Hw5 ltac:(lia) ltac:(lia) ltac:(lia)
                _ _ Eb') as (Hw6 & Hp6 & H5' & H0' & _).
    assert (Hinfo : info' = info6).
    { cbn [analyse_partitions_loop Nat.ltb Nat.leb andb] in H.
      now inversion H. }
    subst info6.
    rewrite Hp2 in Hp5, Ht5'. rewrite length_app in Hp5, Ht5'. cbn [length] in Hp5, Ht5'.
    replace (length (processed info) + 1)%nat
      with (S (length (processed info))) in Hp5, Ht5' by lia.
    rewrite Ht5' in H5', H0'. rewrite Hp5, <- app_assoc in Hp6. cbn [app] in Hp6.
    split; [exact Hp6|]. split.
    + intros Ht. destruct (H5' Ht) as (_ & Hm & Hc). auto.
    + intros Ht. destruct (H0' Ht) as (_ & Hm & Hc). auto.
Qed.

Lemma probe_total_honest (srv : server) (secret : Z) (k i : nat) :
  answers_for secret srv -> probe_total srv k i = honest_total secret i.
Proof.
  intros H. unfold probe_total, honest_total, probe_answer.
  now rewrite <- (H k), TOTAL_low_bits.
Qed.

Lemma honest_total_value (secret : Z) (i : nat) :
  honest_total secret i
  = fold_right Z.add 0
      (map (fun c => Z.min (count_color c (slots_of secret))
                           (count_color c (partitions i)))
           [0; 1; 2; 3; 4; 5; 6; 7]).
Proof.
  unfold honest_total. rewrite total_of_arbiter_byte. unfold arbiter_total.
  assert (Hs : slots_of (nth 0 (wire_bytes (partition_request i)) 0
                         + 256 * nth 1 (wire_bytes (partition_request i)) 0)
               = partitions i)
    by (destruct i as [|i]; vm_compute; reflexivity).
  now rewrite Hs.
Qed.

(** Against an arbiter that answers for a secret, the second partition
    reports 5 only when the first has reported 0, in which case the second
    is not probed at all: five marks for red, red, black, violet, white
    leave no slot for a colour of the first partition. *)
Lemma second_total_five (srv : server) (secret : Z) (k k' : nat) :
  0 <= secret < 32768 -> answers_for secret srv ->
  probe_total srv k' 1 = 5 -> probe_total srv k 0 = 0.
Proof.
  intros Hs Ha H5.
  rewrite (probe_total_honest srv secret) in * by exact Ha.
  rewrite honest_total_value in *.
  pose proof (count_sum_length (slots_of secret) (slots_of_range secret)) as Hsum.
  change (length (slots_of secret)) with 5%nat in Hsum.
  cbn [map fold_right] in *.
  repeat match goal with
         | H : context [count_color ?c (partitions ?i)] |- _ =>
             let v := eval vm_compute in (count_color c (partitions i)) in
             change (count_color c (partitions i)) with v in H
         | |- context [count_color ?c (partitions ?i)] =>
             let v := eval vm_compute in (count_color c (partitions i)) in
             change (count_color c (partitions i)) with v
         end.
  count_color_bounds.
  repeat match goal with
         | |- context [count_color ?c ?l] =>
             lazymatch goal with
             | H : 0 <= count_color c l |- _ => fail
             | _ => assert (0 <= count_color c l) by (unfold count_color; lia)
             end
         | H : context [count_color ?c ?l] |- _ =>
             lazymatch goal with
             | H' : 0 <= count_color c l |- _ => fail
             | _ => assert (0 <= count_color c l) by (unfold count_color; lia)
             end
         end.
  bound_minima. lia.
Qed.

(** C7: in [analyse_partitions], when the probe of a partition reports
    total = 5 (and the phase goes on to the colour counter, that is,
    returns 0), the result of the complementary partition is red = white
    = total = 0 and its four entries of [possible] are 0; when the probe
    reports total = 0, the partition's own four entries are 0 and the
    result of the complementary partition is red = 1, white = 0, total =
    5.  After such a report no further probe is sent: when it comes from
    the first partition, the second is never probed; the second partition
    is probed only after a first total other than 0 and 5, and then, with
    an arbiter answering for a secret, never reports 5. *)
Theorem analyse_partitions_degenerate :
  forall (srv : server) (info info' : gameinfo_t),
    well_sized info ->
    analyse_partitions srv info = (0, info') ->
    let n := length (processed info) in
    (probe_total srv n 0 = 5 ->
     marks (result_at info' 1) = (0, 0, 0) /\ partition_cleared 1 info' /\
     processed info' = processed info ++ [probe_entry srv n 0]) /\
    (probe_total srv n 0 = 0 ->
     marks (result_at info' 1) = (1, 0, 5) /\ partition_cleared 0 info' /\
     processed info' = processed info ++ [probe_entry srv n 0]) /\
    (probe_total srv n 0 <> 5 -> probe_total srv n 0 <> 0 ->
     processed info'
       = processed info ++ [probe_entry srv n 0; probe_entry srv (S n) 1] /\
     (probe_total srv (S n) 1 = 5 ->
      marks (result_at info' 0) = (0, 0, 0) /\ partition_cleared 0 info') /\
     (probe_total srv (S n) 1 = 0 ->
      marks (result_at info' 0) = (1, 0, 5) /\ partition_cleared 1 info')) /\
    (forall secret, 0 <= secret < 32768 -> answers_for secret srv ->
       probe_total srv (S n) 1 = 5 -> probe_total srv n 0 = 0).
Proof.
  intros srv info info' Hw H n.
  pose proof (analyse_partitions_spec srv info info' Hw H) as Hspec.
  cbv zeta in Hspec. fold n in Hspec.
  destruct Hspec as (H5 & H0 & Hn).
  split; [exact H5|]. split; [exact H0|]. split; [exact Hn|].
  intros secret Hs Ha. now apply (second_total_five srv secret).
Qed.

(** The first probe answered with five white marks. *)
Lemma analyse_partitions_degenerate_witness :
  let srv : server := fun _ _ => 40 in
  let info' := snd (analyse_partitions srv initial_info) in
  (well_sized initial_info /\
   analyse_partitions srv initial_info = (0, info') /\
   probe_total srv 0 0 = 5) /\
  marks (result_at info' 1) = (0, 0, 0) /\ partition_cleared 1 info' /\
  processed info' = [probe_entry srv 0 0].
Proof.
  assert (H : well_sized initial_info /\
              analyse_partitions (fun _ _ => 40) initial_info
              = (0, snd (analyse_partitions (fun _ _ => 40) initial_info)) /\
              probe_total (fun _ _ => 40) 0 0 = 5).
  { split; [split; reflexivity|]. split; reflexivity. }
  split; [exact H|].
  destruct H as (H1 & H2 & H3).
  exact (proj1 (analyse_partitions_degenerate _ _ _ H1 H2) H3).
Defined.

(** ** Position refiner *)
















(** ** Colour counter *)

(** A round that returns 0 has seen an answer without error bits, which
    is the arbiter's byte. *)
Lemma commit_guess_honest (srv : server) (secret : Z) (info : gameinfo_t)
    (partition : option (list Z)) (r0 : result_t) :
  answers_for secret srv ->
  forall r info',
    commit_guess srv info partition r0 = (0, r, info') ->
    commit_guess (honest secret) info partition r0 = (0, r, info').
Proof.
  intros Ha r info' H. unfold commit_guess in *. cbv zeta in *.
  destruct (generate_request _) as [buf g2].
  set (n := length (processed info)) in *.
  assert (Hrange := u8_range (srv n buf)).
  assert (He := RESPONSE_ERROR_range (srv n buf)).
  destruct (0 <? RESPONSE_ERROR (u8 (srv n buf))) eqn:E.
  { inversion H as [[Hret Hr Hi]].
    rewrite RETURN_ERROR_value in Hret by lia. lia. }
  apply Z.ltb_ge in E.
  assert (Hz : RESPONSE_ERROR (u8 (srv n buf)) = 0) by lia.
  assert (Hresp : u8 (honest secret n buf) = u8 (srv n buf)).
  { unfold honest. rewrite <- (Ha n buf).
    unfold RESPONSE_ERROR in Hz. rewrite Z.shiftr_div_pow2 in Hz by lia.
    change (2 ^ 6) with 64 in Hz.
    assert (Hlt : u8 (srv n buf) < 64).
    { destruct (Z_lt_ge_dec (u8 (srv n buf)) 64) as [Hl|Hg]; [exact Hl|].
      assert (1 <= u8 (srv n buf) / 64) by (apply Z.div_le_lower_bound; lia).
      lia. }
    change 63 with (Z.ones 6). rewrite Z.land_ones by lia.
    change (2 ^ 6) with 64. rewrite Z.mod_small by lia.
    unfold u8 at 1. apply Z.mod_small. lia. }
  rewrite Hresp. rewrite <- Z.ltb_ge in E. rewrite E. exact H.
Qed.

Lemma analyse_partitions_loop_honest (srv : server) (secret : Z) (n : nat) :
  answers_for secret srv ->
  forall i j skip info info',
    analyse_partitions_loop srv n i j skip info = (0, info') ->
    analyse_partitions_loop (honest secret) n i j skip info = (0, info').
Proof.
  intros Ha. induction n as [|n IH]; intros i j skip info info' H;
    cbn [analyse_partitions_loop] in *; [exact H|].
  destruct ((i <? 2)%nat && negb skip); [|exact H].
  destruct (commit_guess srv info (Some (partitions i)) (result_at info i))
    as [[ret r] info1] eqn:E.
  destruct (ret =? 0) eqn:Er; cbn [negb] in H.
  - apply Z.eqb_eq in Er. subst ret.
    rewrite (commit_guess_honest srv secret _ _ _ Ha _ _ E).
    change (negb (0 =? 0)) with false. cbv iota.
    destruct (partition_body i j (write_result i r info1)) as [skip' info3].
    now apply IH.
  - inversion H; subst. discriminate.
Qed.

Lemma color_loop_honest (srv : server) (secret : Z) (n : nat) :
  answers_for secret srv ->
  forall i j k st st',
    color_loop srv n i j k st = (0, st') ->
    color_loop (honest secret) n i j k st = (0, st').
Proof.
  intros Ha. induction n as [|n IH]; intros i j k st st' H;
    cbn [color_loop] in *; [exact H|].
  destruct (k <? Z.of_nat i * 4 + 3); [|exact H].
  destruct (commit_guess srv (cs_info st) (Some [k; k; k; k; k]) zero_result)
    as [[ret r] info1] eqn:E.
  destruct (ret =? 0) eqn:Er; cbn [negb] in H.
  - apply Z.eqb_eq in Er. subst ret.
    rewrite (commit_guess_honest srv secret _ _ _ Ha _ _ E).
    change (negb (0 =? 0)) with false. cbv iota.
    destruct (res_total r =? 0); [now apply IH|].
    match type of H with
    | (if ?c then _ else _) = _ => destruct c
    end; [exact H | now apply IH].
  - inversion H; subst. discriminate.
Qed.

Lemma color_partition_honest (srv : server) (secret : Z) (i : nat)
    (total : Z) (info : gameinfo_t) :
  answers_for secret srv ->
  forall total' missing info',
    color_partition srv i total info = (0, total', missing, info') ->
    color_partition (honest secret) i total info = (0, total', missing, info').
Proof.
  intros Ha total' missing info' H. unfold color_partition in *.
  destruct (0 <? res_total (result_at info i)); [|exact H].
  destruct (color_loop srv 4 i 0 (Z.of_nat i * 4) (mk_cs total 0 info))
    as [ret st] eqn:E.
  assert (ret = 0) by (inversion H; reflexivity). subst ret.
  rewrite (color_loop_honest srv secret 4 Ha _ _ _ _ _ E). exact H.
Qed.

Lemma color_remainder_honest (srv : server) (secret : Z) (total : Z)
    (m0 m1 : bool) (info : gameinfo_t) :
  answers_for secret srv ->
  forall info',
    color_remainder srv total m0 m1 info = (0, info') ->
    color_remainder (honest secret) total m0 m1 info = (0, info').
Proof.
  intros Ha info' H. unfold color_remainder in *.
  destruct (total <? SLOTS); [|exact H].
  destruct (m0 && m1); [|exact H].
  destruct (commit_guess srv info (Some [7; 7; 7; 7; 7]) zero_result)
    as [[ret r] info1] eqn:E.
  destruct (ret =? 0) eqn:Er.
  - apply Z.eqb_eq in Er. subst ret.
    rewrite (commit_guess_honest srv secret _ _ _ Ha _ _ E). exact H.
  - cbn [negb] in H. cbv beta iota zeta in H. rewrite Er in H.
    cbn [negb] in H. inversion H; subst. discriminate.
Qed.

Lemma analyse_colors_honest (srv : server) (secret : Z) (info : gameinfo_t) :
  answers_for secret srv ->
  forall info',
    analyse_colors srv info = (0, info') ->
    analyse_colors (honest secret) info = (0, info').
Proof.
  intros Ha info' H. unfold analyse_colors in *.
  destruct (color_partition srv 0 0 info) as [[[ret0 total0] m0] info0] eqn:E0.
  destruct (ret0 =? 0) eqn:Er0; cbn [negb] in H;
    [|inversion H; subst; discriminate].
  apply Z.eqb_eq in Er0. subst ret0.
  rewrite (color_partition_honest srv secret _ _ _ Ha _ _ _ E0).
  change (negb (0 =? 0)) with false. cbv iota.
  destruct (color_partition srv 1 total0 info0)
    as [[[ret1 total1] m1] info1] eqn:E1.
  destruct (ret1 =? 0) eqn:Er1; cbn [negb] in H;
    [|inversion H; subst; discriminate].
  apply Z.eqb_eq in Er1. subst ret1.
  rewrite (color_partition_honest srv secret _ _ _ Ha _ _ _ E1).
  change (negb (0 =? 0)) with false. cbv iota.
  now apply (color_remainder_honest srv).
Qed.

(** *** The counts add up *)

Lemma occurrence_low (p : Z) : 0 <= p < 32 -> occurrence_count p = 0.
Proof.
  intros H. unfold occurrence_count. rewrite Z.shiftr_div_pow2 by (cbv; congruence).
  change (2 ^ SLOTS) with 32. apply Z.div_small. exact H.
Qed.

Lemma occurrence_store (p t : Z) :
  0 <= p < 32 -> 0 <= t < 8 ->
  occurrence_count (u8 (Z.lor p (Z.shiftl t SLOTS))) = t.
Proof.
  intros Hp Ht.
  assert (Hall : all_below 32 (fun p =>
            all_below 8 (fun t =>
              occurrence_count (u8 (Z.lor p (Z.shiftl t SLOTS))) =? t)) = true)
    by (vm_compute; reflexivity).
  pose proof (all_below_spec _ _ Hall p ltac:(lia)) as H. cbn beta in H.
  pose proof (all_below_spec _ _ H t ltac:(lia)) as H'. cbn beta in H'.
  now apply Z.eqb_eq.
Qed.

Lemma occurrence_store_5 (p t : Z) :
  0 <= p < 32 -> 0 <= t < 8 ->
  occurrence_count (u8 (Z.lor p (Z.shiftl t 5))) = t.
Proof. exact (occurrence_store p t). Qed.

Lemma sum_counts_upd (l : list Z) :
  forall k v, (k < length l)%nat ->
    sum_counts (upd l k v)
    = sum_counts l - occurrence_count (nth k l 0) + occurrence_count v.
Proof.
  unfold sum_counts.
  induction l as [|h t IH]; intros [|k] v Hk; cbn [length] in Hk;
    cbn [upd map fold_right nth]; try lia.
  rewrite IH by lia. lia.
Qed.

Lemma sum_counts_write (k v : Z) (info : gameinfo_t) :
  0 <= k < Z.of_nat (length (possible info)) ->
  sum_counts (possible (write_possible k v info))
  = sum_counts (possible info) - occurrence_count (possible_at info k)
    + occurrence_count v.
Proof.
  intros Hk. unfold write_possible, possible_at. cbn [possible set_possible].
  apply sum_counts_upd. lia.
Qed.

Lemma sum_counts_memset (n : nat) :
  forall start info,
    0 <= start ->
    start + Z.of_nat n <= Z.of_nat (length (possible info)) ->
    (forall k', start <= k' < start + Z.of_nat n ->
                0 <= possible_at info k' < 32) ->
    sum_counts (possible (memset_possible n start info))
    = sum_counts (possible info).
Proof.
  induction n as [|n IH]; intros start info Hs Hlen Hlow;
    cbn [memset_possible]; [reflexivity|].
  rewrite IH.
  - rewrite sum_counts_write by lia.
    rewrite (occurrence_low (possible_at info start)) by (apply Hlow; lia).
    change (occurrence_count 0) with 0. lia.
  - lia.
  - rewrite length_possible_write. lia.
  - intros k' Hk'. rewrite possible_at_write by lia.
    destruct (Z.eqb_spec k' start); [lia|]. apply Hlow. lia.
Qed.

Lemma secret_count_facts (secret : Z) :
  (forall c, 0 <= secret_count secret c) /\
  fold_right Z.add 0 (map (secret_count secret) [0; 1; 2; 3; 4; 5; 6; 7]) = 5.
Proof.
  split; [intros c; apply count_color_nonneg|].
  unfold secret_count.
  now rewrite (count_sum_length (slots_of secret) (slots_of_range secret)).
Qed.

(** The counts of the colours not yet dealt with: orange is among them
    throughout, every other colour leaves when it is probed. *)
Lemma rest_of_facts (n : Z -> Z) :
  (forall c, 0 <= n c) ->
  fold_right Z.add 0 (map n [0; 1; 2; 3; 4; 5; 6; 7]) = 5 ->
  rest_of n 0 = 5 /\
  (forall k, 0 <= k < 8 -> k <> 3 -> rest_of n k = n k + rest_of n (k + 1)) /\
  (forall k, 0 <= k < 8 -> 0 <= n k <= 5) /\
  (forall k k', 0 <= k <= k' -> k' <= 8 -> 0 <= rest_of n k' <= rest_of n k) /\
  rest_of n 7 = n 7 + n 3.
Proof.
  intros Hn Hsum. cbn [map fold_right] in Hsum.
  pose proof (Hn 0); pose proof (Hn 1); pose proof (Hn 2); pose proof (Hn 3);
    pose proof (Hn 4); pose proof (Hn 5); pose proof (Hn 6); pose proof (Hn 7).
  assert (Hcases : forall k, 0 <= k <= 8 ->
            k = 0 \/ k = 1 \/ k = 2 \/ k = 3 \/ k = 4 \/ k = 5 \/ k = 6 \/
            k = 7 \/ k = 8) by (intros; lia).
  assert (Hval : rest_of n 0 = 5 /\ rest_of n 1 = 5 - n 0 /\
                 rest_of n 2 = 5 - n 0 - n 1 /\
                 rest_of n 3 = 5 - n 0 - n 1 - n 2 /\
                 rest_of n 4 = 5 - n 0 - n 1 - n 2 /\
                 rest_of n 5 = 5 - n 0 - n 1 - n 2 - n 4 /\
                 rest_of n 6 = 5 - n 0 - n 1 - n 2 - n 4 - n 5 /\
                 rest_of n 7 = n 7 + n 3 /\ rest_of n 8 = n 3).
  { unfold rest_of. cbn [map fold_right Z.leb Z.eqb Z.compare Pos.compare
                         Pos.compare_cont Pos.eqb orb].
    repeat split; lia. }
  destruct Hval as (R0 & R1 & R2 & R3 & R4 & R5 & R6 & R7 & R8).
  split; [exact R0|]. split; [|split; [|split]].
  - intros k Hk Hk3.
    destruct (Hcases k ltac:(lia)) as [->|[->|[->|[->|[->|[->|[->|[->| ->]]]]]]]];
      cbn [Z.add Pos.add Pos.succ]; lia.
  - intros k Hk.
    destruct (Hcases k ltac:(lia)) as [->|[->|[->|[->|[->|[->|[->|[->| ->]]]]]]]];
      lia.
  - intros k k' Hk Hk'.
    destruct (Hcases k ltac:(lia)) as [->|[->|[->|[->|[->|[->|[->|[->| ->]]]]]]]];
      destruct (Hcases k' ltac:(lia))
        as [->|[->|[->|[->|[->|[->|[->|[->| ->]]]]]]]]; lia.
  - exact R7.
Qed.

Lemma single_color_slots (k : Z) :
  0 <= k < 8 ->
  slots_of
    (nth 0 (wire_bytes (snd (generate_request
              (snd (init_request (firstn (Z.to_nat SLOTS) [k; k; k; k; k])))))) 0
     + 256 * nth 1 (wire_bytes (snd (generate_request
              (snd (init_request (firstn (Z.to_nat SLOTS) [k; k; k; k; k])))))) 0)
  = [k; k; k; k; k].
Proof.
  intros Hk.
  assert (Hc : k = 0 \/ k = 1 \/ k = 2 \/ k = 3 \/ k = 4 \/ k = 5 \/ k = 6 \/
               k = 7) by lia.
  destruct Hc as [->|[->|[->|[->|[->|[->|[->| ->]]]]]]]; vm_compute; reflexivity.
Qed.

Lemma single_color_min_sum (n : Z -> Z) (k : Z) :
  (forall c, 0 <= c < 8 -> 0 <= n c <= 5) -> 0 <= k < 8 ->
  fold_right Z.add 0
    (map (fun c => Z.min (n c) (count_color c [k; k; k; k; k]))
         [0; 1; 2; 3; 4; 5; 6; 7])
  = n k.
Proof.
  intros Hle Hk.
  pose proof (Hle 0 ltac:(lia)); pose proof (Hle 1 ltac:(lia));
    pose proof (Hle 2 ltac:(lia)); pose proof (Hle 3 ltac:(lia));
    pose proof (Hle 4 ltac:(lia)); pose proof (Hle 5 ltac:(lia));
    pose proof (Hle 6 ltac:(lia)); pose proof (Hle 7 ltac:(lia)).
  assert (Hc : k = 0 \/ k = 1 \/ k = 2 \/ k = 3 \/ k = 4 \/ k = 5 \/ k = 6 \/
               k = 7) by lia.
  destruct Hc as [->|[->|[->|[->|[->|[->|[->| ->]]]]]]];
    cbn [map fold_right];
    repeat match goal with
           | |- context [count_color ?c (?a :: ?l)] =>
               let v := eval vm_compute in (count_color c (a :: l)) in
               change (count_color c (a :: l)) with v
           end;
    rewrite ?Z.min_r, ?Z.min_l by lia; lia.
Qed.

Lemma single_color_arbiter_total (secret k : Z) :
  0 <= k < 8 ->
  arbiter_total secret
    (nth 0 (wire_bytes (snd (generate_request
              (snd (init_request (firstn (Z.to_nat SLOTS) [k; k; k; k; k])))))) 0
     + 256 * nth 1 (wire_bytes (snd (generate_request
              (snd (init_request (firstn (Z.to_nat SLOTS) [k; k; k; k; k])))))) 0)
  = secret_count secret k.
Proof.
  intros Hk.
  destruct (secret_count_facts secret) as [Hn Hsum].
  destruct (rest_of_facts (secret_count secret) Hn Hsum) as (_ & _ & Hle & _).
  unfold arbiter_total. rewrite single_color_slots by exact Hk.
  exact (single_color_min_sum (secret_count secret) k Hle Hk).
Qed.

(** The answer to the probe of the single colour [k] carries, as its
    total, the number of occurrences of [k] in the secret. *)
Lemma single_color_total (srv : server) (secret : Z) (info : gameinfo_t)
    (k : Z) (r0 : result_t) :
  answers_for secret srv -> 0 <= k < 8 ->
  forall ret r info',
    commit_guess srv info (Some [k; k; k; k; k]) r0 = (ret, r, info') ->
    res_total r = secret_count secret k /\ possible info' = possible info.
Proof.
  intros Ha Hk ret r info' H.
  apply commit_guess_effect in H. cbv zeta in H.
  destruct H as (_ & _ & _ & _ & _ & _ & Hres & _ & Hposs & _).
  split; [|exact Hposs].
  rewrite Hres. cbn [res_total]. unfold response_to. cbn [combination].
  rewrite (total_of_answer srv secret) by exact Ha.
  now apply single_color_arbiter_total.
Qed.

Lemma color_inv_possible (secret k total : Z) (info info' : gameinfo_t) :
  possible info' = possible info ->
  color_inv secret k total info -> color_inv secret k total info'.
Proof.
  intros Hp (Hlen & Hsum & Hlow & Ht & Hrest).
  unfold color_inv, unprobed_from, possible_at in *. rewrite Hp. auto.
Qed.

Lemma color_inv_later (secret k k' total : Z) (info : gameinfo_t) :
  0 <= k <= k' -> k' <= 8 ->
  color_inv secret k total info -> color_inv secret k' total info.
Proof.
  intros Hk Hk' (Hlen & Hsum & Hlow & Ht & Hrest).
  destruct (secret_count_facts secret) as [Hn Hs].
  destruct (rest_of_facts (secret_count secret) Hn Hs) as (_ & _ & _ & Hmono & _).
  specialize (Hmono k k' Hk Hk').
  split; [exact Hlen|]. split; [exact Hsum|]. split; [|split; [exact Ht | lia]].
  intros c Hc Hin. apply Hlow; [exact Hc | lia].
Qed.

(** Storing a count for colour [k], or clearing its entry. *)
Lemma color_inv_store (secret k total t v : Z) (info : gameinfo_t) :
  0 <= k < 8 -> k <> 3 ->
  color_inv secret k total info ->
  secret_count secret k = t ->
  occurrence_count v = t ->
  color_inv secret (k + 1) (total + t) (write_possible k v info).
Proof.
  intros Hk Hk3 (Hlen & Hsum & Hlow & Ht & Hrest) Hcount Hv.
  destruct (secret_count_facts secret) as [Hn Hs].
  destruct (rest_of_facts (secret_count secret) Hn Hs)
    as (_ & Hstep & Hle & _ & _).
  specialize (Hstep k Hk Hk3). specialize (Hle k Hk).
  split; [now rewrite length_possible_write|]. split; [|split; [|split]].
  - rewrite sum_counts_write by lia.
    rewrite (occurrence_low (possible_at info k)) by (apply Hlow; lia). lia.
  - intros c Hc Hin. rewrite possible_at_write by lia.
    destruct (Z.eqb_spec c k); [lia|]. apply Hlow; [exact Hc | lia].
  - lia.
  - lia.
Qed.

Lemma color_inv_memset (secret k total : Z) (n : nat) (info : gameinfo_t) :
  0 <= k -> k + Z.of_nat n <= 8 ->
  color_inv secret k total info ->
  color_inv secret k total (memset_possible n k info).
Proof.
  intros Hk Hn (Hlen & Hsum & Hlow & Ht & Hrest).
  split; [now rewrite length_possible_memset|]. split; [|split; [|split]].
  - rewrite sum_counts_memset; [exact Hsum | lia | lia |].
    intros c Hc. apply Hlow; lia.
  - intros c Hc Hin. rewrite possible_at_memset by lia.
    destruct ((k <=? c) && (c <? k + Z.of_nat n)); [lia|].
    now apply Hlow.
  - exact Ht.
  - exact Hrest.
Qed.

Lemma color_loop_inv (srv : server) (secret : Z) (n : nat) :
  answers_for secret srv ->
  forall i j k st st',
    (i < 2)%nat -> k = Z.of_nat i * 4 + j -> 0 <= j <= 3 ->
    color_inv secret k (cs_total st) (cs_info st) ->
    color_loop srv n i j k st = (0, st') ->
    color_inv secret (Z.of_nat i * 4 + 3) (cs_total st') (cs_info st').
Proof.
  intros Ha. induction n as [|n IH]; intros i j k st st' Hi Hk Hj Hinv H;
    cbn [color_loop] in H.
  - inversion H; subst. apply (color_inv_later secret (Z.of_nat i * 4 + j));
      [lia | lia | exact Hinv].
  - destruct (Z.ltb_spec k (Z.of_nat i * 4 + 3)) as [Hlt|Hge].
    2:{ inversion H; subst. apply (color_inv_later secret (Z.of_nat i * 4 + j));
          [lia | lia | exact Hinv]. }
    destruct (commit_guess srv (cs_info st) (Some [k; k; k; k; k]) zero_result)
      as [[ret r] info1] eqn:E.
    destruct (single_color_total srv secret _ k _ Ha ltac:(lia) _ _ _ E)
      as [Htot Hposs].
    apply (color_inv_possible secret k _ _ info1 Hposs) in Hinv.
    destruct (ret =? 0) eqn:Er; cbn [negb] in H;
      [|inversion H; subst; discriminate].
    destruct (secret_count_facts secret) as [Hn Hs].
    destruct (rest_of_facts (secret_count secret) Hn Hs)
      as (_ & Hstep & Hle & Hmono & _).
    specialize (Hstep k ltac:(lia) ltac:(lia)). specialize (Hle k ltac:(lia)).
    specialize (Hmono k (k + 1) ltac:(lia) ltac:(lia)).
    pose proof Hinv as (Hlen & Hsum & Hlow & Ht & Hrest).
    destruct (Z.eqb_spec (res_total r) 0) as [Hz|Hnz].
    + apply (IH i (j + 1) (k + 1)) in H; [exact H | exact Hi | lia | lia |].
      cbn [cs_total cs_info].
      replace (cs_total st) with (cs_total st + 0) by lia.
      apply color_inv_store; [lia | lia | exact Hinv | lia | reflexivity].
    + set (info2 := write_result i _ info1) in H.
      assert (Hinv2 : color_inv secret k (cs_total st) info2)
        by (apply (color_inv_possible secret k _ info1); [reflexivity | exact Hinv]).
      assert (Hp2 : possible_at info2 k = possible_at info1 k) by reflexivity.
      assert (Hinv3 : color_inv secret (k + 1) (cs_total st + res_total r)
                (write_possible k
                   (u8 (Z.lor (possible_at info2 k) (Z.shiftl (res_total r) SLOTS)))
                   info2)).
      { apply color_inv_store; [lia | lia | exact Hinv2 | lia |].
        apply occurrence_store; [rewrite Hp2; apply Hlow; lia | lia]. }
      assert (Hu8 : u8 (cs_total st + res_total r) = cs_total st + res_total r)
        by (unfold u8; apply Z.mod_small; lia).
      rewrite Hu8 in H.
      match type of H with
      | (if ?c then _ else _) = _ => destruct c
      end.
      * injection H as <-. cbn [cs_total cs_info].
        apply (color_inv_later secret (k + 1)); [lia | lia |].
        apply color_inv_memset; [lia | | exact Hinv3].
        change (k + 1 + Z.of_nat (Z.to_nat (3 - j)) <= 8). lia.
      * apply (IH i (j + 1) (k + 1)) in H; [exact H | exact Hi | lia | lia |].
        exact Hinv3.
Qed.

Lemma color_partition_inv (srv : server) (secret : Z) (i : nat) (total : Z)
    (info : gameinfo_t) :
  answers_for secret srv -> (i < 2)%nat ->
  color_inv secret (Z.of_nat i * 4) total info ->
  forall total' missing info',
    color_partition srv i total info = (0, total', missing, info') ->
    color_inv secret (Z.of_nat i * 4 + 3) total' info'.
Proof.
  intros Ha Hi Hinv total' missing info' H. unfold color_partition in H.
  destruct (0 <? res_total (result_at info i)).
  - destruct (color_loop srv 4 i 0 (Z.of_nat i * 4) (mk_cs total 0 info))
      as [ret st] eqn:E.
    assert (ret = 0) by (inversion H; reflexivity). subst ret.
    apply (color_loop_inv srv secret 4 Ha i 0) in E;
      [| exact Hi | lia | lia | exact Hinv].
    inversion H; subst. exact E.
  - inversion H; subst.
    apply (color_inv_later secret (Z.of_nat i * 4)); [lia | lia | exact Hinv].
Qed.

Lemma pair_snd_eq {A B : Type} (a a' : A) (b b' : B) :
  (a, b) = (a', b') -> b = b'.
Proof. congruence. Qed.

Lemma color_remainder_sum (srv : server) (secret : Z) (total : Z)
    (m0 m1 : bool) (info : gameinfo_t) :
  answers_for secret srv ->
  color_inv secret 7 total info ->
  forall info',
    color_remainder srv total m0 m1 info = (0, info') ->
    sum_counts (possible info') = SLOTS.
Proof.
  intros Ha Hinv info' H. unfold color_remainder in H.
  destruct (secret_count_facts secret) as [Hn Hs].
  destruct (rest_of_facts (secret_count secret) Hn Hs)
    as (_ & _ & Hle & _ & H7).
  pose proof (Hle 3 ltac:(lia)) as Hn3. pose proof (Hle 7 ltac:(lia)) as Hn7.
  assert (HS : SLOTS = 5) by reflexivity.
  destruct (Z.ltb_spec total SLOTS) as [Hlt|Hge].
  - assert (Hfill : forall k t x,
              (k = 3 \/ k = 7) -> 0 <= t <= 5 ->
              length (possible x) = 8%nat -> sum_counts (possible x) = t ->
              0 <= possible_at x k < 32 ->
              sum_counts (possible
                (if SLOTS - t =? 0 then write_possible k 0 x
                 else write_possible k
                        (u8 (Z.lor (possible_at x k)
                                   (Z.shiftl (SLOTS - t) SLOTS))) x))
              = SLOTS).
    { intros k t x Hk Ht Hlen Hsum Hlow.
      destruct (Z.eqb_spec (SLOTS - t) 0).
      - rewrite sum_counts_write by lia.
        rewrite (occurrence_low _ Hlow). change (occurrence_count 0) with 0. lia.
      - rewrite sum_counts_write by lia.
        rewrite (occurrence_low _ Hlow).
        rewrite (occurrence_store (possible_at x k) (SLOTS - t)) by lia. lia. }
    destruct (m0 && m1) eqn:Em.
    + destruct (commit_guess srv info (Some [7; 7; 7; 7; 7]) zero_result)
        as [[ret r] info1] eqn:E.
      destruct (single_color_total srv secret _ 7 _ Ha ltac:(lia) _ _ _ E)
        as [Htot Hposs].
      apply (color_inv_possible secret 7 _ _ info1 Hposs) in Hinv.
      destruct Hinv as (Hlen & Hsum & Hlow & Ht & Hrest).
      cbv beta iota zeta in H.
      destruct (ret =? 0) eqn:Er.
      2:{ change (negb false) with true in H. cbv beta iota zeta in H.
          rewrite Er in H. change (negb false) with true in H. cbv iota in H.
          inversion H; subst; discriminate. }
      change (negb true) with false in H. cbv beta iota zeta in H.
      change (0 =? 0) with true in H. change (negb true) with false in H.
      cbv iota in H.
      apply andb_true_iff in Em. destruct Em as [-> _].
      apply pair_snd_eq in H. subst info'.
      assert (Hu8 : u8 (total + res_total r) = total + res_total r)
        by (unfold u8; apply Z.mod_small; lia).
      rewrite Hu8.
      set (info2 := write_result 1 _ info1).
      set (info3 := write_possible 7 _ info2).
      assert (Hlen3 : length (possible info3) = 8%nat)
        by (unfold info3; now rewrite length_possible_write).
      assert (Hsum3 : sum_counts (possible info3) = total + res_total r).
      { unfold info3. rewrite sum_counts_write by (cbn; lia).
        change (possible_at info2 7) with (possible_at info1 7).
        rewrite (occurrence_low (possible_at info1 7)) by (apply Hlow; lia).
        rewrite occurrence_store by (try apply Hlow; lia).
        change (sum_counts (possible info2)) with (sum_counts (possible info1)).
        lia. }
      assert (Hlow3 : 0 <= possible_at info3 3 < 32).
      { unfold info3. rewrite possible_at_write by (cbn; lia).
        change (3 =? 7) with false. cbv iota. apply Hlow; lia. }
      cbn [possible write_result set_result].
      change (Z.of_nat 0 * 4 + 3) with 3.
      exact (Hfill 3 (total + res_total r) info3 ltac:(lia) ltac:(lia)
               Hlen3 Hsum3 Hlow3).
    + destruct Hinv as (Hlen & Hsum & Hlow & Ht & Hrest).
      cbv beta iota zeta in H. change (0 =? 0) with true in H.
      change (negb true) with false in H. cbv iota in H. apply pair_snd_eq in H. subst info'.
      cbn [possible write_result set_result].
      destruct m0.
      * change (Z.of_nat 0 * 4 + 3) with 3.
        apply Hfill; [lia | lia | exact Hlen | exact Hsum | apply Hlow; lia].
      * change (Z.of_nat 1 * 4 + 3) with 7.
        apply Hfill; [lia | lia | exact Hlen | exact Hsum | apply Hlow; lia].
  - destruct Hinv as (Hlen & Hsum & Hlow & Ht & Hrest).
    apply pair_snd_eq in H. subst info'.
    rewrite sum_counts_write by (rewrite length_possible_write; lia).
    rewrite possible_at_write by lia. change (7 =? 3) with false. cbv iota.
    rewrite sum_counts_write by lia.
    rewrite (occurrence_low (possible_at info 3)) by (apply Hlow; lia).
    rewrite (occurrence_low (possible_at info 7)) by (apply Hlow; lia).
    change (occurrence_count 0) with 0. lia.
Qed.

(** The prober writes nothing but zeros into [possible]. *)
Lemma Forall_upd {A : Type} (P : A -> Prop) (l : list A) :
  forall k v, Forall P l -> P v -> Forall P (upd l k v).
Proof.
  induction l as [|h t IH]; intros [|k] v Hl Hv; cbn [upd];
    inversion Hl; subst; auto.
Qed.

Lemma low_memset (n : nat) :
  forall start info,
    Forall (fun p => 0 <= p < 32) (possible info) ->
    Forall (fun p => 0 <= p < 32) (possible (memset_possible n start info)).
Proof.
  induction n as [|n IH]; intros start info H; cbn [memset_possible];
    [exact H|].
  apply IH. unfold write_possible. cbn [possible set_possible].
  apply Forall_upd; [exact H | lia].
Qed.

Lemma low_partition_body (i j : nat) (info : gameinfo_t) :
  Forall (fun p => 0 <= p < 32) (possible info) ->
  Forall (fun p => 0 <= p < 32) (possible (snd (partition_body i j info))).
Proof.
  intros H. unfold partition_body, clear_partition_entries.
  repeat match goal with
         | |- context [if ?c then _ else _] => destruct c
         end; cbn [snd]; try apply low_memset; exact H.
Qed.

Lemma analyse_partitions_loop_low (srv : server) (n : nat) :
  forall i j skip info ret info',
    Forall (fun p => 0 <= p < 32) (possible info) ->
    analyse_partitions_loop srv n i j skip info = (ret, info') ->
    length (possible info') = length (possible info) /\
    Forall (fun p => 0 <= p < 32) (possible info').
Proof.
  induction n as [|n IH]; intros i j skip info ret info' Hlow H;
    cbn [analyse_partitions_loop] in H; [inversion H; subst; auto|].
  destruct ((i <? 2)%nat && negb skip); [|inversion H; subst; auto].
  destruct (commit_guess srv info (Some (partitions i)) (result_at info i))
    as [[ret1 r1] info1] eqn:E.
  apply commit_guess_effect in E. cbv zeta in E.
  destruct E as (_ & _ & _ & _ & _ & _ & _ & _ & Hposs & _).
  assert (Hp2 : possible (write_result i r1 info1) = possible info)
    by (cbn [possible write_result set_result]; exact Hposs).
  destruct (negb (ret1 =? 0)).
  { inversion H; subst. rewrite Hp2. auto. }
  pose proof (low_partition_body i j (write_result i r1 info1)) as Hb.
  rewrite Hp2 in Hb. specialize (Hb Hlow).
  assert (Hlen : length (possible (snd (partition_body i j (write_result i r1 info1))))
                 = length (possible info)).
  { rewrite <- Hp2. unfold partition_body, clear_partition_entries.
    repeat match goal with
           | |- context [if ?c then _ else _] => destruct c
           end; cbn [snd]; rewrite ?length_possible_memset; reflexivity. }
  destruct (partition_body i j (write_result i r1 info1)) as [skip' info3].
  cbn [snd] in Hb, Hlen.
  apply (IH _ _ _ _ _ _ Hb) in H. destruct H as [H1 H2].
  split; [congruence | exact H2].
Qed.

Lemma color_inv_start (srv : server) (secret : Z) (info1 : gameinfo_t) :
  0 <= secret < 32768 ->
  analyse_partitions srv initial_info = (0, info1) ->
  color_inv secret 0 0 info1.
Proof.
  intros Hsec H. unfold analyse_partitions in H.
  apply analyse_partitions_loop_low in H.
  2:{ cbn [possible initial_info]. repeat constructor; cbv; congruence. }
  destruct H as [Hlen Hlow].
  destruct (secret_count_facts secret) as [Hn Hs].
  destruct (rest_of_facts (secret_count secret) Hn Hs) as (H0 & _).
  split; [exact Hlen|]. split; [|split; [|split; [lia | lia]]].
  - unfold sum_counts.
    assert (Hz : forall l, Forall (fun p => 0 <= p < 32) l ->
                 fold_right Z.add 0 (map occurrence_count l) = 0).
    { induction 1 as [|p l Hp _ IHl]; cbn [map fold_right]; [reflexivity|].
      rewrite (occurrence_low p Hp). lia. }
    apply Hz. exact Hlow.
  - intros k Hk _. unfold possible_at.
    destruct (nth_in_or_default (Z.to_nat k) (possible info1) 0) as [Hin|Hd];
      [|rewrite Hd; lia].
    rewrite Forall_forall in Hlow. apply Hlow. exact Hin.
Qed.

(** C2: when the colour counter returns 0, in a game whose answers carry
    the marks of a fixed secret of five slots, the occurrence counts kept
    in the high three bits of the eight [possible] entries add up to
    exactly 5, whichever branch the phase took. *)
Theorem analyse_colors_counts_sum :
  forall (srv : server) (secret : Z) (info1 info2 : gameinfo_t),
    0 <= secret < 32768 ->
    answers_for secret srv ->
    analyse_partitions srv initial_info = (0, info1) ->
    analyse_colors srv info1 = (0, info2) ->
    sum_counts (possible info2) = SLOTS.
Proof.
  intros srv secret info1 info2 Hsec Ha H1 H2.
  pose proof (color_inv_start srv secret info1 Hsec H1) as Hinv.
  unfold analyse_colors in H2.
  destruct (color_partition srv 0 0 info1) as [[[ret0 total0] miss0] infoA] eqn:E0.
  destruct (ret0 =? 0) eqn:Er0; cbn [negb] in H2;
    [apply Z.eqb_eq in Er0; subst ret0 | inversion H2; subst; discriminate].
  apply (color_partition_inv srv secret 0 0 info1 Ha ltac:(lia) Hinv) in E0.
  apply (color_inv_later secret _ (Z.of_nat 1 * 4)) in E0; [|cbn; lia|cbn; lia].
  destruct (color_partition srv 1 total0 infoA) as [[[ret1 total1] miss1] infoB] eqn:E1.
  destruct (ret1 =? 0) eqn:Er1; cbn [negb] in H2;
    [apply Z.eqb_eq in Er1; subst ret1 | inversion H2; subst; discriminate].
  apply (color_partition_inv srv secret 1 total0 infoA Ha ltac:(lia) E0) in E1.
  exact (color_remainder_sum srv secret total1 miss0 miss1 infoB Ha E1 info2 H2).
Qed.

(** The secret beige, darkblue, darkblue, green, violet. *)
Lemma analyse_colors_counts_sum_witness :
  let secret := 0 + 8 * 1 + 64 * 1 + 512 * 2 + 4096 * 6 in
  let info1 := snd (analyse_partitions (honest secret) initial_info) in
  let info2 := snd (analyse_colors (honest secret) info1) in
  (0 <= secret < 32768 /\ answers_for secret (honest secret) /\
   analyse_partitions (honest secret) initial_info = (0, info1) /\
   analyse_colors (honest secret) info1 = (0, info2)) /\
  sum_counts (possible info2) = SLOTS.
Proof.
  cbv zeta.
  assert (H : 0 <= 0 + 8 * 1 + 64 * 1 + 512 * 2 + 4096 * 6 < 32768 /\
              answers_for (0 + 8 * 1 + 64 * 1 + 512 * 2 + 4096 * 6)
                (honest (0 + 8 * 1 + 64 * 1 + 512 * 2 + 4096 * 6)) /\
              analyse_partitions (honest (0 + 8 * 1 + 64 * 1 + 512 * 2 + 4096 * 6))
                initial_info
              = (0, snd (analyse_partitions
                           (honest (0 + 8 * 1 + 64 * 1 + 512 * 2 + 4096 * 6))
                           initial_info)) /\
              analyse_colors (honest (0 + 8 * 1 + 64 * 1 + 512 * 2 + 4096 * 6))
                (snd (analyse_partitions
                        (honest (0 + 8 * 1 + 64 * 1 + 512 * 2 + 4096 * 6))
                        initial_info))
              = (0, snd (analyse_colors
                           (honest (0 + 8 * 1 + 64 * 1 + 512 * 2 + 4096 * 6))
                           (snd (analyse_partitions
                                   (honest (0 + 8 * 1 + 64 * 1 + 512 * 2 + 4096 * 6))
                                   initial_info))))).
  { split; [lia|]. split; [apply honest_answers|].
    split; vm_compute; reflexivity. }
  split; [exact H|].
  destruct H as (H1 & H2 & H3 & H4).
  exact (analyse_colors_counts_sum _ _ _ _ H1 H2 H3 H4).
Defined.

(** ** Tree and candidates for two colours *)

Lemma nodupb_sound (l : list Z) : nodupb l = true -> NoDup l.
Proof.
  induction l as [|x t IH]; cbn [nodupb]; intros H; constructor.
  - apply andb_true_iff in H. destruct H as [H _].
    apply negb_true_iff in H. intros Hin.
    assert (existsb (Z.eqb x) t = true)
      by (apply existsb_exists; exists x; split; [exact Hin | apply Z.eqb_refl]).
    congruence.
  - apply IH. apply andb_true_iff in H. tauto.
Qed.

Lemma list_eqb_sound (l1 : list Z) :
  forall l2, list_eqb l1 l2 = true -> l1 = l2.
Proof.
  induction l1 as [|x t1 IH]; intros [|y t2] H; cbn [list_eqb] in H;
    try discriminate; [reflexivity|].
  apply andb_true_iff in H. destruct H as [Hxy Ht].
  apply Z.eqb_eq in Hxy. subst y. f_equal. now apply IH.
Qed.

(** The state of [possible] the two-colour scenario needs: colour [a]
    with count 2 and colour [b] with count 3, both with all five slots
    open, and nothing in the entries of the other colours before [b].
    The entries of the colours after [b] are left open: the builder does
    not read them. *)
Lemma two_colors_general (possible : list Z) (a b : Z) :
  length possible = 8%nat ->
  0 <= a < b -> b < 8 ->
  nth (Z.to_nat a) possible 0 = Z.lor (Z.shiftl 2 SLOTS) ALL_SLOTS ->
  nth (Z.to_nat b) possible 0 = Z.lor (Z.shiftl 3 SLOTS) ALL_SLOTS ->
  (forall c, 0 <= c < b -> c <> a -> nth (Z.to_nat c) possible 0 = 0) ->
  candidates possible
  = map (fun m => mk_perm (arrange a b m) 0)
        [24; 18; 20; 12; 17; 9; 10; 5; 6; 3] /\
  map (fun n => (node_color n, combination_of n, first_child_of n))
      (siblings (build_root possible))
  = map (fun m => (a, m, Node b (b + 1) 0 (31 - m) NULL NULL))
        [24; 18; 20; 12; 17; 9; 10; 5; 6; 3] /\
  nodupb (map combination (candidates possible)) = true.
Proof.
  intros Hlen Hab Hb Ha Hb' Hz.
  destruct possible as [|x0 [|x1 [|x2 [|x3 [|x4 [|x5 [|x6 [|x7 [|x8 t]]]]]]]]];
    try discriminate.
  assert (H0 : 0 <> a -> 0 < b -> x0 = 0) by (intros; apply (Hz 0); lia).
  assert (H1 : 1 <> a -> 1 < b -> x1 = 0) by (intros; apply (Hz 1); lia).
  assert (H2 : 2 <> a -> 2 < b -> x2 = 0) by (intros; apply (Hz 2); lia).
  assert (H3 : 3 <> a -> 3 < b -> x3 = 0) by (intros; apply (Hz 3); lia).
  assert (H4 : 4 <> a -> 4 < b -> x4 = 0) by (intros; apply (Hz 4); lia).
  assert (H5 : 5 <> a -> 5 < b -> x5 = 0) by (intros; apply (Hz 5); lia).
  assert (H6 : 6 <> a -> 6 < b -> x6 = 0) by (intros; apply (Hz 6); lia).
  clear Hz Hlen.
  two_colours a b; vm_compute in Ha; vm_compute in Hb'; subst;
    repeat match goal with
           | H : _ <> _ -> _ < _ -> ?x = 0 |- _ =>
               first [ specialize (H ltac:(lia) ltac:(lia)); subst x | clear H ]
           end;
    repeat split; vm_compute; reflexivity.
Qed.

(** The ten masks are the masks of five bits with two bits set. *)
Lemma two_of_five_masks (m : Z) :
  In m [24; 18; 20; 12; 17; 9; 10; 5; 6; 3]
  <-> 0 <= m < 32 /\ count_bits 5 m = 2.
Proof.
  split.
  - cbn [In]. intros H.
    repeat match goal with
           | H : _ \/ _ |- _ => destruct H as [H|H]
           | H : False |- _ => destruct H
           end; subst; split; (lia || reflexivity).
  - intros [Hm Hc].
    assert (Hall : all_below 32 (fun v =>
              negb (count_bits 5 v =? 2)
              || existsb (Z.eqb v) [24; 18; 20; 12; 17; 9; 10; 5; 6; 3]) = true)
      by (vm_compute; reflexivity).
    pose proof (all_below_spec _ _ Hall m ltac:(lia)) as H. cbn beta in H.
    apply orb_true_iff in H. destruct H as [H|H].
    + apply negb_true_iff, Z.eqb_neq in H. contradiction.
    + apply existsb_exists in H. destruct H as (x & Hin & Hx).
      apply Z.eqb_eq in Hx. now subst x.
Qed.

Lemma complement_mask (m : Z) :
  In m [24; 18; 20; 12; 17; 9; 10; 5; 6; 3] ->
  count_bits 5 (31 - m) = 3 /\ Z.land m (31 - m) = 0 /\ Z.lor m (31 - m) = 31.
Proof.
  cbn [In]. intros H.
  repeat match goal with
         | H : _ \/ _ |- _ => destruct H as [H|H]
         | H : False |- _ => destruct H
         end; subst; repeat split.
Qed.

(** C3 (as stated, refuted): in [31; 95; 127; 0; 0; 0; 0; 0] exactly two
    colours, darkblue and green, have occurrence counts other than 0,
    namely 2 and 3, and both have all five slots open; beige has the count
    0 but still its initial entry.  The builder stops at beige, the root
    stays without combination and no candidate is generated.  The same
    happens when the colour without count lies between the two. *)
Lemma two_colors_no_candidates :
  let possible := [ALL_SLOTS; 95; 127; 0; 0; 0; 0; 0] in
  map occurrence_count possible = [0; 2; 3; 0; 0; 0; 0; 0] /\
  Z.land (nth 1 possible 0) ALL_SLOTS = ALL_SLOTS /\
  Z.land (nth 2 possible 0) ALL_SLOTS = ALL_SLOTS /\
  build_root possible = Node 0 1 31 0 NULL NULL /\
  candidates possible = [] /\
  length (candidates possible) <> 10%nat /\
  map occurrence_count [95; ALL_SLOTS; 127; 0; 0; 0; 0; 0]
  = [2; 0; 3; 0; 0; 0; 0; 0] /\
  candidates [95; ALL_SLOTS; 127; 0; 0; 0; 0; 0] = [].
Proof.
  cbv zeta. repeat split; try (vm_compute; reflexivity).
  vm_compute. discriminate.
Qed.

(** C3 (amended): when the lower-indexed colour [a] has the occurrence
    count 2 and the colour [b] the count 3, both with all five slots
    open, and the entry of every other colour before [b] is 0 (the
    entries of the colours after [b] are not read, whatever they hold),
    the tree built has for the first colour one node for each of the
    C(5,2) = 10 masks with two bits, each with exactly one child, which
    holds the complementary mask of three bits for the second colour; the
    candidate generator yields exactly 10 distinct codes, one per mask,
    with the first colour on the slots of the mask and the second colour
    on the other slots. *)
Theorem two_colors_ten_candidates :
  forall (possible : list Z) (a b : Z),
    length possible = 8%nat ->
    0 <= a < b -> b < 8 ->
    nth (Z.to_nat a) possible 0 = Z.lor (Z.shiftl 2 SLOTS) ALL_SLOTS ->
    nth (Z.to_nat b) possible 0 = Z.lor (Z.shiftl 3 SLOTS) ALL_SLOTS ->
    (forall c, 0 <= c < b -> c <> a -> nth (Z.to_nat c) possible 0 = 0) ->
    let masks := [24; 18; 20; 12; 17; 9; 10; 5; 6; 3] in
    candidates possible = map (fun m => mk_perm (arrange a b m) 0) masks /\
    length (candidates possible) = 10%nat /\
    NoDup (map combination (candidates possible)) /\
    NoDup masks /\
    (forall m, In m masks <-> 0 <= m < 32 /\ count_bits 5 m = 2) /\
    map (fun n => (node_color n, combination_of n, first_child_of n))
        (siblings (build_root possible))
    = map (fun m => (a, m, Node b (b + 1) 0 (31 - m) NULL NULL)) masks /\
    (forall m, In m masks ->
       count_bits 5 (31 - m) = 3 /\ Z.land m (31 - m) = 0 /\
       Z.lor m (31 - m) = 31).
Proof.
  intros possible a b Hlen Hab Hb Ha Hb' Hz masks.
  destruct (two_colors_general possible a b Hlen Hab Hb Ha Hb' Hz)
    as (Hc & Ht & Hd).
  split; [exact Hc|].
  split; [rewrite Hc; reflexivity|].
  split; [apply nodupb_sound; exact Hd|].
  split; [apply nodupb_sound; reflexivity|].
  split; [apply two_of_five_masks|].
  split; [exact Ht|].
  apply complement_mask.
Qed.

(** Orange twice and red three times, with white still at its initial
    entry: the state an honest game on the secret red, red, red, orange,
    orange leaves to the builder. *)
Lemma two_colors_ten_candidates_witness :
  let possible := [0; 0; 0; 95; 127; 0; 0; ALL_SLOTS] in
  length (candidates possible) = 10%nat /\
  map (fun p => slots_of (combination p)) (candidates possible)
  = map (fun m => slots_of (arrange orange c_red m))
        [24; 18; 20; 12; 17; 9; 10; 5; 6; 3].
Proof.
  intros possible.
  destruct (two_colors_ten_candidates possible orange c_red) as (Hc & Hl & _).
  - reflexivity.
  - unfold orange, c_red. lia.
  - unfold c_red. lia.
  - reflexivity.
  - reflexivity.
  - intros c Hc Hne. unfold orange, c_red in *.
    assert (H : c = 0 \/ c = 1 \/ c = 2) by lia.
    destruct H as [->|[->| ->]]; reflexivity.
  - split; [exact Hl|]. rewrite Hc, map_map. reflexivity.
Defined.

(** ** Order of the candidate list *)

Lemma preorder_paths_nonempty (t : combination_list_t) :
  forall p, In p (preorder_paths t) -> p <> [].
Proof.
  induction t as [|c nc m cb fc IHfc nx IHnx]; intros p Hin;
    cbn [preorder_paths] in Hin; [destruct Hin|].
  apply in_app_or in Hin. destruct Hin as [Hin|Hin]; [|now apply IHnx].
  destruct fc as [|c' nc' m' cb' fc' nx'].
  - destruct Hin as [<-|[]]. discriminate.
  - apply in_map_iff in Hin. destruct Hin as (q & <- & _). discriminate.
Qed.

Lemma filter_map_comm {A B : Type} (f : B -> bool) (g : A -> B) (l : list A) :
  filter f (map g l) = map g (filter (fun x => f (g x)) l).
Proof.
  induction l as [|x t IH]; cbn [map filter]; [reflexivity|].
  destruct (f (g x)); cbn [map]; now rewrite IH.
Qed.

Lemma filter_ext_in' {A : Type} (f g : A -> bool) (l : list A) :
  (forall x, In x l -> f x = g x) -> filter f l = filter g l.
Proof.
  induction l as [|x t IH]; intros H; cbn [filter]; [reflexivity|].
  rewrite (H x) by now left.
  rewrite IH by (intros y Hy; apply H; now right). reflexivity.
Qed.

(** The generator appends the complete paths of the tree in depth-first
    preorder. *)
Lemma process_combinations_preorder (t : combination_list_t) :
  forall guess perms counter,
    snd (process_combinations guess perms t counter)
    = perms ++ map (fun path => mk_perm (paint path guess) 0)
                   (filter (fun path => path_counter path counter =? SLOTS)
                           (preorder_paths t)).
Proof.
  induction t as [|c nc m cb fc IHfc nx IHnx]; intros guess perms counter.
  - cbn. now rewrite app_nil_r.
  - cbn [process_combinations preorder_paths].
    set (i := calculate_set_bits cb (Z.to_nat SLOTS)).
    set (guess1 := set_colors (Z.to_nat SLOTS) cb c 0 guess).
    rewrite filter_app, map_app, app_assoc.
    assert (Hfirst :
      snd (match fc with
           | NULL =>
               if counter + i =? SLOTS
               then (guess1, perms ++ [mk_perm guess1 0])
               else (guess1, perms)
           | Node _ _ _ _ _ _ =>
               process_combinations guess1 perms fc (u8 (counter + i))
           end)
      = perms ++ map (fun path => mk_perm (paint path guess) 0)
                     (filter (fun path => path_counter path counter =? SLOTS)
                        match fc with
                        | NULL => [[(c, cb)]]
                        | Node _ _ _ _ _ _ => map (cons (c, cb)) (preorder_paths fc)
                        end)).
    { destruct fc as [|c' nc' m' cb' fc' nx'].
      - cbn [filter path_counter]. fold i.
        destruct (counter + i =? SLOTS); cbn [snd map paint];
          [reflexivity | now rewrite app_nil_r].
      - rewrite IHfc. f_equal.
        rewrite filter_map_comm, map_map.
        rewrite (filter_ext_in'
                   (fun x => path_counter ((c, cb) :: x) counter =? SLOTS)
                   (fun path => path_counter path (u8 (counter + i)) =? SLOTS)).
        + reflexivity.
        + intros p Hp. apply preorder_paths_nonempty in Hp.
          destruct p as [|q rest]; [congruence|]. reflexivity. }
    destruct (match fc with
              | NULL =>
                  if counter + i =? SLOTS
                  then (guess1, perms ++ [mk_perm guess1 0])
                  else (guess1, perms)
              | Node _ _ _ _ _ _ =>
                  process_combinations guess1 perms fc (u8 (counter + i))
              end) as [guess2 perms2].
    cbn [snd] in Hfirst. subst perms2.
    destruct nx as [|c' nc' m' cb' fc' nx'].
    + cbn [snd preorder_paths filter map]. now rewrite app_nil_r.
    + apply IHnx.
Qed.

Lemma preorder_paths_by_sibling (t : combination_list_t) :
  preorder_paths t = flat_map node_paths (siblings t).
Proof.
  induction t as [|c nc m cb fc IHfc nx IHnx];
    cbn [preorder_paths siblings flat_map node_paths]; [reflexivity|].
  now rewrite IHnx.
Qed.

Lemma node_paths_head (n : combination_list_t) (p : list (Z * Z)) :
  In p (node_paths n) ->
  exists rest, p = (node_color n, combination_of n) :: rest.
Proof.
  destruct n as [|c nc m cb fc nx]; cbn [node_paths]; [intros []|].
  destruct fc as [|c' nc' m' cb' fc' nx'].
  - intros [<-|[]]. now exists [].
  - intros Hin. apply in_map_iff in Hin. destruct Hin as (q & <- & _).
    now exists q.
Qed.

Lemma attach_children_shape (build_child : Z -> Z -> build_result)
    (i c nc m cb : Z) :
  exists fc,
    attach_children build_child i (Node c nc m cb NULL NULL)
    = Node c nc m cb fc NULL.
Proof.
  unfold attach_children. cbn [node_mask node_next_color].
  destruct ((i <? COLORS - 1) && negb (m =? 0)); [|now exists NULL].
  destruct (build_child nc m) as [ch|ch]; [now exists NULL|].
  destruct (combination_of ch =? 0); [now exists NULL|].
  now exists ch.
Qed.

(** The chain the sibling loop leaves: the combinations found, linked in
    the builder's order. *)
Lemma sibling_loop_chain (build_child : Z -> Z -> build_result)
    (i mask p_mask needed : Z) (fuel : nat) :
  forall combination entropy self,
    self <> NULL ->
    map combination_of
        (siblings (sibling_loop fuel build_child i mask p_mask needed
                     combination entropy self))
    = entropy_order entropy (map combination_of (siblings self))
        (enumerate fuel combination mask needed).
Proof.
  induction fuel as [|f IH]; intros combination entropy self Hself;
    cbn [sibling_loop enumerate]; [reflexivity|].
  set (c := next_combination combination mask needed). clearbody c.
  destruct (c =? 0); [reflexivity|].
  destruct (attach_children_shape build_child i i (i + 1)
              (free_mask p_mask c) c) as (fc & ->).
  cbn [entropy_order]. rewrite IH.
  - f_equal. unfold insert_sibling.
    destruct (negb (Z.rem entropy 2 =? 0)).
    + reflexivity.
    + destruct self as [|c0 nc0 m0 cb0 fc0 nx0]; [congruence|]. reflexivity.
  - destruct (negb (Z.rem entropy 2 =? 0)); [discriminate|].
    destruct self; [congruence | discriminate].
Qed.

Lemma Linked_inj (a b : combination_list_t) : Linked a = Linked b -> a = b.
Proof. intros H. now injection H. Qed.

Lemma build_combination_list_unfold (d : nat) (possible : list Z)
    (is_root : bool) (p_next_color p_mask : Z) :
  build_combination_list (S d) possible is_root p_next_color p_mask
  = let self_mask := if is_root then p_mask else 0 in
    match find_color 8 possible p_next_color with
    | None => Linked (Node 0 0 self_mask 0 NULL NULL)
    | Some i =>
        let mask :=
          Z.land (nth (Z.to_nat i) possible 0) (u8 (Z.lnot (Z.shiftl 7 SLOTS))) in
        let needed := Z.shiftr (nth (Z.to_nat i) possible 0) SLOTS in
        let combination := initial_combination needed in
        let mask := Z.land mask p_mask in
        if mask =? 0 then Early (Node i (i + 1) self_mask 0 NULL NULL)
        else
          let combination := next_combination combination mask needed in
          if combination =? 0 then Early (Node i (i + 1) self_mask 0 NULL NULL)
          else
            let build_child := build_combination_list d possible false in
            let self :=
              attach_children build_child i
                (Node i (i + 1) (free_mask p_mask combination) combination
                   NULL NULL) in
            Linked (sibling_loop 32 build_child i mask p_mask needed
                      combination 1 self)
    end.
Proof. reflexivity. Qed.

Lemma enumerate_unfold (f : nat) (s mask needed : Z) :
  enumerate (S f) s mask needed
  = let c := next_combination s mask needed in
    if c =? 0 then [] else c :: enumerate f c mask needed.
Proof. reflexivity. Qed.

Lemma build_chain_order (d : nat) (possible : list Z) (is_root : bool)
    (p_next_color p_mask : Z) (self : combination_list_t) (i : Z) :
  build_combination_list (S d) possible is_root p_next_color p_mask
    = Linked self ->
  find_color 8 possible p_next_color = Some i ->
  let p := nth (Z.to_nat i) possible 0 in
  let mask := Z.land (Z.land p ALL_SLOTS) p_mask in
  let needed := occurrence_count p in
  map combination_of (siblings self)
  = chain_order (enumerate 33 (initial_combination needed) mask needed).
Proof.
  intros H Hfind p mask needed.
  rewrite build_combination_list_unfold, Hfind in H. cbv zeta in H.
  rewrite (enumerate_unfold 32). cbv zeta.
  fold p in H. change (u8 (Z.lnot (Z.shiftl 7 SLOTS))) with ALL_SLOTS in H.
  fold mask in H. change (Z.shiftr p SLOTS) with needed in H.
  destruct (mask =? 0); [discriminate|].
  generalize dependent (next_combination (initial_combination needed) mask needed).
  intros c1 H.
  destruct (c1 =? 0); [discriminate|].
  apply Linked_inj in H. subst self.
  destruct (attach_children_shape
              (build_combination_list d possible false) i i (i + 1)
              (free_mask p_mask c1) c1) as (fc & Hshape).
  rewrite Hshape. rewrite sibling_loop_chain by discriminate.
  unfold chain_order. cbn [siblings map combination_of]. reflexivity.
Qed.

(** The enumeration itself is ascending: it lists the fitting masks in
    the order of the numbers 1 to 31. *)
Lemma enumerate_ascending_all :
  all_below 32 (fun mask =>
    all_below 8 (fun needed =>
      list_eqb (enumerate 33 (initial_combination needed) mask needed)
               (filter (fun v => combination_ok v mask needed)
                       (map Z.of_nat (seq 1 31))))) = true.
Proof. vm_cast_no_check (eq_refl true). Qed.

Lemma enumerate_ascending (mask needed : Z) :
  0 <= mask < 32 -> 0 <= needed < 8 ->
  enumerate 33 (initial_combination needed) mask needed
  = filter (fun v => combination_ok v mask needed) (map Z.of_nat (seq 1 31)).
Proof.
  intros Hm Hn.
  pose proof (all_below_spec _ _ enumerate_ascending_all mask ltac:(lia)) as H.
  cbn beta in H.
  pose proof (all_below_spec _ _ H needed ltac:(lia)) as H'. cbn beta in H'.
  now apply list_eqb_sound.
Qed.

(** C5 (as stated, refuted): for beige twice and darkblue three times the
    masks are enumerated in ascending order, 3 5 6 9 10 12 17 18 20 24,
    but the candidate list carries the masks of beige in the order 24 18
    20 12 17 9 10 5 6 3, which is not ascending. *)
Lemma candidate_order_not_ascending :
  let cands := candidates (two_colors beige darkblue 2 3) in
  let first_mask := fun k => mask_of_color beige (combination (nth k cands (mk_perm 0 0))) in
  enumerate 33 (initial_combination 2) 31 2 = [3; 5; 6; 9; 10; 12; 17; 18; 20; 24] /\
  map (fun p => mask_of_color beige (combination p)) cands
  = [24; 18; 20; 12; 17; 9; 10; 5; 6; 3] /\
  ~ (forall i j, (i < j < length cands)%nat -> first_mask i <= first_mask j).
Proof.
  cbv zeta. split; [vm_compute; reflexivity|]. split; [vm_compute; reflexivity|].
  intros H. specialize (H 0%nat 1%nat).
  assert (Hlen : (0 < 1 < length (candidates (two_colors beige darkblue 2 3)))%nat)
    by (vm_compute; lia).
  specialize (H Hlen). vm_compute in H. apply H. reflexivity.
Qed.

(** C5 (amended): the candidate list is the depth-first preorder of the
    combination tree, the subtree of a node before its next sibling, so
    that the list is made of one block per node of the first colour, in
    chain order, and the first colour's mask varies slowest.  The nodes of
    one colour are enumerated in ascending mask order but are not linked
    in that order: the first mask found stays at the end of the chain and
    each later one is put in front of the chain or directly behind its
    head, in turn. *)
Theorem candidate_order_preorder :
  (forall possible,
      candidates possible
      = map (fun path => mk_perm (paint path 0) 0)
            (filter (fun path => path_counter path 0 =? SLOTS)
                    (preorder_paths (build_root possible)))) /\
  (forall t, preorder_paths t = flat_map node_paths (siblings t)) /\
  (forall n p, In p (node_paths n) ->
               exists rest, p = (node_color n, combination_of n) :: rest) /\
  (forall d possible is_root p_next_color p_mask self i,
      build_combination_list (S d) possible is_root p_next_color p_mask
        = Linked self ->
      find_color 8 possible p_next_color = Some i ->
      let p := nth (Z.to_nat i) possible 0 in
      let mask := Z.land (Z.land p ALL_SLOTS) p_mask in
      let needed := occurrence_count p in
      map combination_of (siblings self)
      = chain_order (enumerate 33 (initial_combination needed) mask needed)) /\
  (forall mask needed,
      0 <= mask < 32 -> 0 <= needed < 8 ->
      enumerate 33 (initial_combination needed) mask needed
      = filter (fun v => combination_ok v mask needed)
               (map Z.of_nat (seq 1 31))).
Proof.
  split.
  { intros possible. unfold candidates.
    now rewrite process_combinations_preorder. }
  split; [exact preorder_paths_by_sibling|].
  split; [exact node_paths_head|].
  split; [exact build_chain_order|].
  exact enumerate_ascending.
Qed.

(** The root chain for beige twice and darkblue three times. *)
Lemma candidate_order_preorder_witness :
  let possible := two_colors beige darkblue 2 3 in
  (build_combination_list 9 possible true 0 31 = Linked (build_root possible) /\
   find_color 8 possible 0 = Some beige) /\
  map combination_of (siblings (build_root possible))
  = chain_order (enumerate 33 (initial_combination 2) 31 2).
Proof.
  cbv zeta.
  assert (H : build_combination_list 9 (two_colors beige darkblue 2 3) true 0 31
              = Linked (build_root (two_colors beige darkblue 2 3)) /\
              find_color 8 (two_colors beige darkblue 2 3) 0 = Some beige)
    by (split; vm_compute; reflexivity).
  split; [exact H|].
  destruct H as [H1 H2].
  exact (proj1 (proj2 (proj2 (proj2 candidate_order_preorder)))
           8%nat _ true 0 31 _ beige H1 H2).
Defined.

(** ** The bounds of the model are never reached *)

(** [compute_combination] ends for every mask below 255, wherever the
    search starts. *)
Lemma compute_combination_loop_ends (mask count : Z) (fuel : nat) :
  forall last,
    0 <= last <= 255 -> 0 <= mask <= 254 ->
    (Z.to_nat (if (last <=? mask)%Z then (mask - last)%Z
               else (256 - last + mask + 1)%Z) < fuel)%nat ->
    exists v, compute_combination_loop fuel last mask count = Some v.
Proof.
  induction fuel as [|f IH]; intros last Hl Hm Hf; [lia|].
  cbn [compute_combination_loop].
  destruct (combination_ok last mask count); [now exists last|].
  destruct (Z.leb_spec last mask) as [Hle|Hgt].
  - unfold u8. rewrite Z.mod_small by lia.
    destruct (Z.ltb_spec mask (last + 1)); [now exists 0|].
    apply IH; [lia | lia |].
    destruct (Z.leb_spec (last + 1) mask); lia.
  - destruct (Z.eq_dec last 255) as [->|Hne].
    + change (u8 (255 + 1)) with 0.
      destruct (Z.ltb_spec mask 0); [now exists 0|].
      apply IH; [lia | lia |].
      destruct (Z.leb_spec 0 mask); lia.
    + unfold u8. rewrite Z.mod_small by lia.
      destruct (Z.ltb_spec mask (last + 1)); [now exists 0 | lia].
Qed.

Lemma compute_combination_terminates (s mask count : Z) :
  0 <= mask <= 254 -> exists v, compute_combination s mask count = Some v.
Proof.
  intros Hm. unfold compute_combination.
  pose proof (u8_range (s + 1)) as Hr.
  apply compute_combination_loop_ends; [lia | lia |].
  destruct (Z.leb_spec (u8 (s + 1)) mask); lia.
Qed.

(** The recursion of the builder is at most one level per colour deep:
    a larger [depth] builds the same tree. *)
Lemma find_color_range (n : nat) (possible : list Z) :
  forall i0 i, find_color n possible i0 = Some i -> i0 <= i < COLORS.
Proof.
  induction n as [|n IH]; intros i0 i H; cbn [find_color] in H;
    [discriminate|].
  destruct (Z.ltb_spec i0 COLORS); [|discriminate].
  destruct (negb (nth (Z.to_nat i0) possible 0 =? 0)).
  - inversion H; subst. lia.
  - apply IH in H. lia.
Qed.

Lemma attach_children_ext (bc1 bc2 : Z -> Z -> build_result) (i c m cb : Z) :
  (i < COLORS - 1 -> forall m', bc1 (i + 1) m' = bc2 (i + 1) m') ->
  attach_children bc1 i (Node c (i + 1) m cb NULL NULL)
  = attach_children bc2 i (Node c (i + 1) m cb NULL NULL).
Proof.
  intros H. unfold attach_children. cbn [node_mask node_next_color].
  destruct (Z.ltb_spec i (COLORS - 1)); cbn [andb]; [|reflexivity].
  destruct (negb (m =? 0)); [|reflexivity].
  now rewrite H.
Qed.

Lemma sibling_loop_ext (bc1 bc2 : Z -> Z -> build_result)
    (i mask p_mask needed : Z) (fuel : nat) :
  (i < COLORS - 1 -> forall m', bc1 (i + 1) m' = bc2 (i + 1) m') ->
  forall combination entropy self,
    sibling_loop fuel bc1 i mask p_mask needed combination entropy self
    = sibling_loop fuel bc2 i mask p_mask needed combination entropy self.
Proof.
  intros H. induction fuel as [|f IH]; intros combination entropy self;
    cbn [sibling_loop]; [reflexivity|].
  destruct (next_combination combination mask needed =? 0); [reflexivity|].
  rewrite (attach_children_ext bc1 bc2) by exact H. apply IH.
Qed.

Lemma build_combination_list_depth (possible : list Z) (d : nat) :
  forall is_root p_next_color p_mask,
    (Z.to_nat (COLORS - p_next_color) < d)%nat ->
    build_combination_list (S d) possible is_root p_next_color p_mask
    = build_combination_list d possible is_root p_next_color p_mask.
Proof.
  induction d as [|d IH]; intros is_root p_next_color p_mask Hd; [lia|].
  rewrite (build_combination_list_unfold (S d)), (build_combination_list_unfold d).
  cbv zeta.
  destruct (find_color 8 possible p_next_color) as [i|] eqn:Hfind;
    [|reflexivity].
  apply find_color_range in Hfind. change COLORS with 8 in *.
  destruct (_ =? 0); [reflexivity|].
  destruct (_ =? 0); [reflexivity|].
  assert (Hext : i < 8 - 1 -> forall m',
            build_combination_list (S d) possible false (i + 1) m'
            = build_combination_list d possible false (i + 1) m').
  { intros Hi m'. apply IH. lia. }
  rewrite (attach_children_ext _ _ i i _ _ Hext).
  rewrite (sibling_loop_ext (build_combination_list (S d) possible false)
             (build_combination_list d possible false) i _ _ _ 32 Hext).
  reflexivity.
Qed.

Lemma build_root_depth (possible : list Z) (k : nat) :
  build_combination_list (9 + k) possible true 0 31
  = build_combination_list 9 possible true 0 31.
Proof.
  induction k as [|k IH]; [reflexivity|].
  replace (9 + S k)%nat with (S (9 + k)) by lia.
  rewrite build_combination_list_depth; [exact IH|].
  change (Z.to_nat (COLORS - 0)) with 8%nat. lia.
Qed.

(** The sibling loop stops because the enumeration is exhausted: with a
    five-bit mask there are at most 31 combinations. *)
Lemma enumerate_length (mask needed : Z) :
  0 <= mask < 32 -> 0 <= needed < 8 ->
  (length (enumerate 33 (initial_combination needed) mask needed) <= 31)%nat.
Proof.
  intros Hm Hn. rewrite enumerate_ascending by assumption.
  etransitivity; [apply filter_length_le|].
  now rewrite length_map, length_seq.
Qed.

Lemma enumerate_more_fuel (mask needed : Z) (f : nat) :
  forall s,
    (length (enumerate f s mask needed) < f)%nat ->
    enumerate (S f) s mask needed = enumerate f s mask needed.
Proof.
  induction f as [|f IH]; intros s H; [cbn in H; lia|].
  rewrite (enumerate_unfold (S f)), (enumerate_unfold f). cbv zeta.
  rewrite (enumerate_unfold f) in H. cbv zeta in H.
  destruct (next_combination s mask needed =? 0); [reflexivity|].
  cbn [length] in H. f_equal. apply IH. lia.
Qed.

(** The round loop ends within as many rounds as there are candidates. *)
Lemma find_best_perm_points (cands processed : list perm_list_t) :
  forall before p after,
    find_best_perm cands processed = Some (before, p, after) ->
    cands = before ++ p :: after.
Proof.
  intros before p after H.
  pose proof (find_best_perm_loop_spec processed cands []) as Hs.
  unfold find_best_perm in H. rewrite H in Hs.
  destruct Hs as (Heq & _). exact Heq.
Qed.

Lemma guess_loop_fuel (srv : server) (fuel : nat) :
  forall before p after info,
    first_perm info = before ++ p :: after ->
    (length (first_perm info) <= fuel)%nat ->
    forall info', guess_loop srv fuel (before, p, after) info <> OutOfFuel info'.
Proof.
  induction fuel as [|f IH]; intros before p after info Hptr Hlen info';
    [rewrite Hptr, length_app in Hlen; cbn [length] in Hlen; lia|].
  cbn [guess_loop].
  destruct (commit_guess srv (set_guess (combination p) info) None zero_result)
    as [[ret r] info2] eqn:E.
  destruct (negb (ret =? 0)); [discriminate|].
  destruct (find_best_perm _ _) as [[[b' p'] a']|] eqn:Ef; [|discriminate].
  apply find_best_perm_points in Ef. cbn [first_perm set_first_perm] in Ef.
  apply IH.
  - exact Ef.
  - cbn [first_perm set_first_perm].
    rewrite Hptr in Hlen. rewrite length_app in *. cbn [length] in Hlen. lia.
Qed.

(** ** Packing colours into a request: [add_color], [init_request] *)

Lemma u16_testbit (x i : Z) :
  0 <= i < 16 -> Z.testbit (u16 x) i = Z.testbit x i.
Proof.
  intros Hi. unfold u16. change 65536 with (2 ^ 16).
  apply Z.mod_pow2_bits_low. lia.
Qed.

Lemma u16_range (x : Z) : 0 <= u16 x < 65536.
Proof. unfold u16. apply Z.mod_pos_bound. lia. Qed.

Lemma color_high_bits (c k : Z) : 0 <= c < 8 -> 3 <= k -> Z.testbit c k = false.
Proof.
  intros Hc Hk. destruct (Z.eq_dec c 0) as [->|Hne]; [apply Z.bits_0|].
  apply Z.bits_above_log2; [lia|].
  assert (Z.log2 c < 3) by (apply Z.log2_lt_pow2; [lia | change (2 ^ 3) with 8; lia]).
  lia.
Qed.

Lemma slot_bits (x j n : Z) :
  0 <= j -> 0 <= n ->
  Z.testbit (slot x j) n = (n <? 3) && Z.testbit x (n + 3 * j).
Proof.
  intros Hj Hn. unfold slot, COLOR_WIDTH.
  rewrite Z.land_spec, Z.shiftr_spec by lia.
  change 7 with (Z.ones 3). rewrite Z.testbit_ones_nonneg by lia.
  apply andb_comm.
Qed.

Lemma slot_range (x j : Z) : 0 <= slot x j < 8.
Proof.
  unfold slot. change 7 with (Z.ones 3). rewrite Z.land_ones by lia.
  change (2 ^ 3) with 8. apply Z.mod_pos_bound. lia.
Qed.

(** Two values with the same three bits at slot [j] hold the same colour
    there. *)
Lemma slot_ext (x y j : Z) :
  0 <= j ->
  (forall n, 0 <= n < 3 -> Z.testbit x (n + 3 * j) = Z.testbit y (n + 3 * j)) ->
  slot x j = slot y j.
Proof.
  intros Hj H. apply Z.bits_inj'. intros n Hn. rewrite !slot_bits by lia.
  destruct (Z.ltb_spec n 3); cbn [andb]; [apply H; lia | reflexivity].
Qed.

Lemma slot_is (x c j : Z) :
  0 <= j -> 0 <= c < 8 ->
  (forall n, 0 <= n < 3 -> Z.testbit x (n + 3 * j) = Z.testbit c n) ->
  slot x j = c.
Proof.
  intros Hj Hc H. apply Z.bits_inj'. intros n Hn. rewrite slot_bits by lia.
  destruct (Z.ltb_spec n 3); cbn [andb]; [apply H; lia|].
  symmetry. apply color_high_bits; lia.
Qed.

(** Bit [i] of the request after [add_color]: the three bits of the slot
    come from the colour, every other bit is kept. *)
Lemma add_color_bits (req color position i : Z) :
  0 <= position < SLOTS -> 0 <= color < 8 -> 0 <= i < 16 ->
  Z.testbit (snd (add_color req color position)) i
  = if (3 * position <=? i) && (i <? 3 * position + 3)
    then Z.testbit color (i - 3 * position)
    else Z.testbit req i.
Proof.
  intros Hp Hc Hi. unfold add_color, SLOTS, COLOR_WIDTH in *.
  destruct (Z.leb_spec 5 position); [lia|]. cbn [snd].
  rewrite u16_testbit, Z.lor_spec, u16_testbit by lia.
  rewrite Z.land_spec, Z.lnot_spec, !Z.lor_spec by lia.
  rewrite !Z.shiftl_1_l, !Z.pow2_bits_eqb by lia.
  rewrite Z.shiftl_spec by lia.
  replace (i - position * 3) with (i - 3 * position) by lia.
  destruct (Z.leb_spec (3 * position) i) as [Hlo|Hlo];
    destruct (Z.ltb_spec i (3 * position + 3)) as [Hhi|Hhi]; cbn [andb].
  - destruct (Z.eqb_spec (position * 3) i); destruct (Z.eqb_spec (position * 3 + 1) i);
      destruct (Z.eqb_spec (position * 3 + 2) i); try lia;
      cbn [orb negb]; now rewrite andb_false_r.
  - rewrite (color_high_bits color (i - 3 * position)) by lia.
    destruct (Z.eqb_spec (position * 3) i); destruct (Z.eqb_spec (position * 3 + 1) i);
      destruct (Z.eqb_spec (position * 3 + 2) i); try lia.
    cbn [orb negb]. now rewrite andb_true_r, orb_false_r.
  - rewrite (Z.testbit_neg_r color (i - 3 * position)) by lia.
    destruct (Z.eqb_spec (position * 3) i); destruct (Z.eqb_spec (position * 3 + 1) i);
      destruct (Z.eqb_spec (position * 3 + 2) i); try lia.
    cbn [orb negb]. now rewrite andb_true_r, orb_false_r.
  - lia.
Qed.

Lemma add_color_range (req color position : Z) :
  0 <= req < 65536 -> 0 <= snd (add_color req color position) < 65536.
Proof.
  intros Hr. unfold add_color.
  destruct (SLOTS <=? position); cbn [snd]; [exact Hr | apply u16_range].
Qed.

Lemma add_color_slot_same (req color position : Z) :
  0 <= position < SLOTS -> 0 <= color < 8 ->
  slot (snd (add_color req color position)) position = color.
Proof.
  intros Hp Hc. apply slot_is; [lia | exact Hc |]. intros n Hn.
  unfold SLOTS in Hp. rewrite add_color_bits by (unfold SLOTS; lia).
  destruct (Z.leb_spec (3 * position) (n + 3 * position)); [|lia].
  destruct (Z.ltb_spec (n + 3 * position) (3 * position + 3)); [|lia].
  cbn [andb]. f_equal. lia.
Qed.

Lemma add_color_slot_other (req color position j : Z) :
  0 <= position < SLOTS -> 0 <= color < 8 -> 0 <= j < SLOTS -> j <> position ->
  slot (snd (add_color req color position)) j = slot req j.
Proof.
  intros Hp Hc Hj Hne. apply slot_ext; [lia|]. intros n Hn.
  unfold SLOTS in Hp, Hj. rewrite add_color_bits by (unfold SLOTS; lia).
  destruct (Z.leb_spec (3 * position) (n + 3 * j));
    destruct (Z.ltb_spec (n + 3 * j) (3 * position + 3)); cbn [andb];
    try reflexivity; lia.
Qed.

(** X1: a colour below 8 put at a position below [SLOTS] is accepted
    (status 0), becomes the colour of that slot, leaves the four other
    slots and the parity bit as they were; a position from [SLOTS] on is
    refused with -1 and the request is not touched. *)
Theorem add_color_sets_slot :
  forall req color position : Z,
    0 <= color < COLORS ->
    (0 <= position < SLOTS ->
       fst (add_color req color position) = 0 /\
       slot (snd (add_color req color position)) position = color /\
       (forall j, 0 <= j < SLOTS -> j <> position ->
                  slot (snd (add_color req color position)) j = slot req j) /\
       Z.testbit (snd (add_color req color position)) 15 = Z.testbit req 15) /\
    (SLOTS <= position -> add_color req color position = (-1, req)).
Proof.
  intros req color position Hc. change COLORS with 8 in Hc. split.
  - intros Hp. split; [|split; [|split]].
    + unfold add_color. destruct (Z.leb_spec SLOTS position); [lia | reflexivity].
    + now apply add_color_slot_same.
    + intros j Hj Hne. now apply add_color_slot_other.
    + rewrite add_color_bits by (unfold SLOTS in *; lia).
      unfold SLOTS in Hp.
      destruct (Z.leb_spec (3 * position) 15);
        destruct (Z.ltb_spec 15 (3 * position + 3)); cbn [andb];
        try reflexivity; lia.
  - intros Hp. unfold add_color.
    destruct (Z.leb_spec SLOTS position); [reflexivity | lia].
Qed.

Lemma add_color_sets_slot_witness :
  fst (add_color 0 4 2) = 0 /\ slot (snd (add_color 0 4 2)) 2 = 4.
Proof.
  destruct (add_color_sets_slot 0 4 2 ltac:(cbv; split; congruence)) as [H _].
  destruct (H ltac:(cbv; split; congruence)) as (H1 & H2 & _).
  split; [exact H1 | exact H2].
Defined.

(** The loop of [init_request] from position [i] on. *)
Lemma init_request_loop_slots (colors : list Z) :
  forall i req,
    0 <= i -> i + Z.of_nat (length colors) <= SLOTS ->
    Forall (fun c => 0 <= c < 8) colors ->
    fst (init_request_loop colors i req) = 0 /\
    (forall j, 0 <= j < SLOTS ->
       slot (snd (init_request_loop colors i req)) j
       = if (i <=? j) && (j <? i + Z.of_nat (length colors))
         then nth (Z.to_nat (j - i)) colors 0
         else slot req j) /\
    Z.testbit (snd (init_request_loop colors i req)) 15 = Z.testbit req 15.
Proof.
  induction colors as [|c rest IH]; intros i req Hi Hlen Hall.
  - cbn [init_request_loop fst snd length]. split; [reflexivity|].
    split; [|reflexivity]. intros j Hj.
    destruct (Z.leb_spec i j); destruct (Z.ltb_spec j (i + Z.of_nat 0));
      cbn [andb]; try reflexivity; lia.
  - cbn [length] in Hlen. inversion Hall as [|c' rest' Hc Hrest]; subst.
    cbn [init_request_loop].
    assert (Hpos : 0 <= i < SLOTS) by lia.
    assert (Hst : fst (add_color req c i) = 0)
      by (unfold add_color; destruct (Z.leb_spec SLOTS i); [lia | reflexivity]).
    destruct (add_color req c i) as [st req1] eqn:Ea. cbn [fst] in Hst. subst st.
    change (0 <? 0) with false. cbv iota.
    destruct (IH (i + 1) req1 ltac:(lia) ltac:(lia) Hrest) as (H1 & H2 & H3).
    split; [exact H1|]. split.
    + intros j Hj. rewrite H2 by exact Hj.
      assert (Hreq1 : req1 = snd (add_color req c i)) by now rewrite Ea.
      destruct (Z.leb_spec (i + 1) j) as [Hlo|Hlo];
        destruct (Z.ltb_spec j (i + 1 + Z.of_nat (length rest))) as [Hhi|Hhi];
        destruct (Z.leb_spec i j) as [Hlo'|Hlo'];
        destruct (Z.ltb_spec j (i + Z.of_nat (length (c :: rest)))) as [Hhi'|Hhi'];
        cbn [length] in *; cbn [andb]; try lia.
      * replace (Z.to_nat (j - i)) with (S (Z.to_nat (j - (i + 1)))) by lia.
        reflexivity.
      * rewrite Hreq1. apply add_color_slot_other; [exact Hpos | exact Hc | exact Hj | lia].
      * assert (j = i) by lia. subst j. rewrite Z.sub_diag. cbn [Z.to_nat nth].
        rewrite Hreq1. now apply add_color_slot_same.
      * rewrite Hreq1. apply add_color_slot_other; [exact Hpos | exact Hc | exact Hj | lia].
    + rewrite H3.
      assert (Hreq1 : req1 = snd (add_color req c i)) by now rewrite Ea.
      rewrite Hreq1, add_color_bits by (unfold SLOTS in *; lia).
      unfold SLOTS in Hpos.
      destruct (Z.leb_spec (3 * i) 15); destruct (Z.ltb_spec 15 (3 * i + 3));
        cbn [andb]; try reflexivity; lia.
Qed.

Lemma init_request_loop_range (colors : list Z) :
  forall i req, 0 <= req < 65536 ->
    0 <= snd (init_request_loop colors i req) < 65536.
Proof.
  induction colors as [|c rest IH]; intros i req Hr; cbn [init_request_loop].
  - exact Hr.
  - pose proof (add_color_range req c i Hr) as Hr1.
    destruct (add_color req c i) as [st req1]. cbn [snd] in Hr1.
    destruct (st <? 0); [exact Hr1 | now apply IH].
Qed.

Lemma init_request_five (colors : list Z) :
  length colors = 5%nat ->
  Forall (fun c => 0 <= c < COLORS) colors ->
  fst (init_request colors) = 0 /\
  slots_of (snd (init_request colors)) = colors /\
  0 <= snd (init_request colors) < 32768.
Proof.
  intros Hlen Hall. change COLORS with 8 in Hall.
  unfold init_request.
  destruct (init_request_loop_slots colors 0 0 ltac:(lia)
              ltac:(rewrite Hlen; cbv; congruence) Hall) as (H1 & H2 & H3).
  split; [exact H1|]. split.
  - unfold slots_of. cbn [map].
    rewrite !H2 by (cbv; split; congruence). rewrite Hlen.
    destruct colors as [|a [|b [|c [|d [|e [|f t]]]]]]; try discriminate.
    reflexivity.
  - pose proof (init_request_loop_range colors 0 0 ltac:(lia)) as Hr.
    rewrite Z.bits_0 in H3.
    destruct (Z.ltb_spec (snd (init_request_loop colors 0 0)) 32768) as [|Hge];
      [lia|].
    exfalso.
    assert (Hb : Z.testbit (snd (init_request_loop colors 0 0)) 15 = true).
    { apply Z.testbit_true; [lia|]. change (2 ^ 15) with 32768.
      assert (Hd : snd (init_request_loop colors 0 0) / 32768 = 1).
      { symmetry.
        apply (Z.div_unique _ 32768 1 (snd (init_request_loop colors 0 0) - 32768));
          lia. }
      rewrite Hd. reflexivity. }
    congruence.
Qed.


Lemma init_request_round_trip_aux (colors : list Z) :
  length colors = 5%nat ->
  Forall (fun c => 0 <= c < COLORS) colors ->
  slots_of (snd (init_request colors)) = colors.
Proof. intros Hlen Hall. now apply init_request_five. Qed.

(** Colours beyond the fifth: the loop stops with -1 at position 5 and
    keeps what the first five left. *)
Lemma init_request_overflow (five more : list Z) :
  forall i req,
    i + Z.of_nat (length five) = SLOTS -> (0 < length more)%nat ->
    Forall (fun c => 0 <= c < 8) five -> 0 <= i ->
    fst (init_request_loop (five ++ more) i req) = -1 /\
    snd (init_request_loop (five ++ more) i req)
    = snd (init_request_loop five i req).
Proof.
  induction five as [|c rest IH]; intros i req Hlen Hmore Hall Hi.
  - cbn [length] in Hlen. cbn [app init_request_loop snd].
    destruct more as [|f t]; [cbn [length] in Hmore; lia|].
    cbn [init_request_loop]. unfold add_color.
    destruct (Z.leb_spec SLOTS i); [|lia]. split; reflexivity.
  - cbn [length] in Hlen. inversion Hall as [|c' rest' Hc Hrest]; subst.
    cbn [app init_request_loop].
    assert (Hst : fst (add_color req c i) = 0)
      by (unfold add_color; destruct (Z.leb_spec SLOTS i); [lia | reflexivity]).
    destruct (add_color req c i) as [st req1]. cbn [fst] in Hst. subst st.
    change (0 <? 0) with false. cbv iota.
    apply IH; [lia | exact Hmore | exact Hrest | lia].
Qed.

(** X2: [init_request] on five colours below 8 returns 0 and packs them
    so that [slots_of] reads them back in order; the parity bit is clear,
    so the request is below 2^15. *)
Theorem init_request_round_trip :
  forall colors : list Z,
    length colors = 5%nat ->
    Forall (fun c => 0 <= c < COLORS) colors ->
    fst (init_request colors) = 0 /\
    slots_of (snd (init_request colors)) = colors /\
    0 <= snd (init_request colors) < 32768.
Proof. intros colors. apply init_request_five. Qed.

Lemma init_request_round_trip_witness :
  slots_of (snd (init_request [0; 0; 1; 2; 3])) = [0; 0; 1; 2; 3].
Proof.
  apply (init_request_round_trip [0; 0; 1; 2; 3] eq_refl).
  repeat constructor; cbv; congruence.
Defined.

(** X3: [init_request] handed more colours than there are slots stops at
    the sixth with -1 (the case [commit_guess] answers with [bail_out]);
    the request then holds the first five. *)
Theorem init_request_too_many :
  forall colors : list Z,
    (5 < length colors)%nat ->
    Forall (fun c => 0 <= c < COLORS) colors ->
    fst (init_request colors) = -1 /\
    slots_of (snd (init_request colors)) = firstn 5 colors.
Proof.
  intros colors Hlen Hall.
  assert (Hf : Forall (fun c => 0 <= c < COLORS) (firstn 5 colors)).
  { rewrite <- (firstn_skipn 5 colors) in Hall.
    apply Forall_app in Hall. exact (proj1 Hall). }
  assert (Hl : length (firstn 5 colors) = 5%nat)
    by (rewrite length_firstn; lia).
  destruct (init_request_overflow (firstn 5 colors) (skipn 5 colors) 0 0)
    as (H1 & H2).
  - rewrite Hl. reflexivity.
  - rewrite length_skipn. lia.
  - exact Hf.
  - lia.
  - rewrite firstn_skipn in H1, H2. unfold init_request.
    split; [exact H1|]. rewrite H2.
    exact (init_request_round_trip_aux (firstn 5 colors) Hl Hf).
Qed.

Lemma init_request_too_many_witness :
  fst (init_request [0; 1; 2; 3; 4; 5]) = -1.
Proof.
  apply (init_request_too_many [0; 1; 2; 3; 4; 5]).
  - cbn [length]. lia.
  - repeat constructor; cbv; congruence.
Defined.

(** ** Painting a colour over a mask: [set_colors] *)

Lemma set_colors_slots (n : nat) (color : Z) :
  0 <= color < 8 ->
  forall combination j0 guess,
    0 <= j0 -> j0 + Z.of_nat n <= SLOTS ->
    forall j, 0 <= j < SLOTS ->
      slot (set_colors n combination color j0 guess) j
      = if (j0 <=? j) && (j <? j0 + Z.of_nat n) && Z.testbit combination (j - j0)
        then color else slot guess j.
Proof.
  intros Hc. induction n as [|n IH]; intros combination j0 guess Hj0 Hn j Hj.
  - cbn [set_colors].
    destruct (Z.leb_spec j0 j); destruct (Z.ltb_spec j (j0 + Z.of_nat 0));
      cbn [andb]; try reflexivity; lia.
  - cbn [set_colors]. rewrite IH by lia. rewrite land_1_b2z.
    destruct (Z.leb_spec (j0 + 1) j) as [Hlo|Hlo];
      destruct (Z.ltb_spec j (j0 + 1 + Z.of_nat n)) as [Hhi|Hhi];
      destruct (Z.leb_spec j0 j) as [Hlo'|Hlo'];
      destruct (Z.ltb_spec j (j0 + Z.of_nat (S n))) as [Hhi'|Hhi'];
      cbn [andb]; try lia.
    + rewrite Z.shiftr_spec by lia.
      replace (j - (j0 + 1) + 1) with (j - j0) by lia.
      destruct (Z.testbit combination (j - j0)); [reflexivity|].
      destruct (Z.testbit combination 0); cbn [Z.b2z Z.eqb]; [|reflexivity].
      apply add_color_slot_other; lia.
    + destruct (Z.testbit combination 0); cbn [Z.b2z Z.eqb]; [|reflexivity].
      apply add_color_slot_other; lia.
    + assert (j = j0) by lia. subst j. rewrite Z.sub_diag.
      destruct (Z.testbit combination 0); cbn [Z.b2z Z.eqb]; [|reflexivity].
      apply add_color_slot_same; lia.
    + destruct (Z.testbit combination 0); cbn [Z.b2z Z.eqb]; [|reflexivity].
      apply add_color_slot_other; lia.
Qed.

(** X4: the loop of [process_combinations] that paints a colour over a
    mask gives the colour to exactly the slots whose bit is set in the
    mask and keeps the colour of every other slot. *)
Theorem set_colors_paints_mask :
  forall combination color guess j : Z,
    0 <= color < COLORS -> 0 <= j < SLOTS ->
    slot (set_colors (Z.to_nat SLOTS) combination color 0 guess) j
    = if Z.testbit combination j then color else slot guess j.
Proof.
  intros combination color guess j Hc Hj. change COLORS with 8 in Hc.
  rewrite (set_colors_slots (Z.to_nat SLOTS) color Hc combination 0 guess)
    by (cbv; congruence || exact Hj).
  rewrite Z.sub_0_r. unfold SLOTS in *.
  destruct (Z.leb_spec 0 j); [|lia].
  destruct (Z.ltb_spec j (0 + Z.of_nat (Z.to_nat 5))); [reflexivity|].
  change (Z.of_nat (Z.to_nat 5)) with 5 in *. lia.
Qed.

Lemma set_colors_paints_mask_witness :
  slot (set_colors (Z.to_nat SLOTS) 5 6 0 0) 2 = 6.
Proof.
  apply (set_colors_paints_mask 5 6 0 2); cbv; split; congruence.
Defined.

(** ** Exact-position matches: [compare_perm_equal_pos] *)

Lemma count_equal_sym (l1 : list Z) :
  forall l2, count_equal l1 l2 = count_equal l2 l1.
Proof.
  induction l1 as [|a t IH]; intros [|b t']; cbn [count_equal]; try reflexivity.
  rewrite IH, (Z.eqb_sym a b). reflexivity.
Qed.

Lemma count_equal_le_length (l1 : list Z) :
  forall l2, count_equal l1 l2 <= Z.of_nat (length l1).
Proof.
  induction l1 as [|a t IH]; intros [|b t']; cbn [count_equal length]; try lia.
  specialize (IH t'). destruct (a =? b); lia.
Qed.

Lemma count_equal_full (l1 : list Z) :
  forall l2, length l1 = length l2 ->
    (count_equal l1 l2 = Z.of_nat (length l1) <-> l1 = l2).
Proof.
  induction l1 as [|a t IH]; intros [|b t'] Hlen; cbn [length] in Hlen;
    try discriminate; cbn [count_equal length].
  - split; reflexivity.
  - pose proof (count_equal_le_length t t') as Hle.
    specialize (IH t' ltac:(lia)).
    destruct (Z.eqb_spec a b) as [->|Hne]; split; intros H.
    + f_equal. apply IH. lia.
    + inversion H; subst. assert (count_equal t' t' = Z.of_nat (length t'))
        by (apply IH; reflexivity). lia.
    + lia.
    + inversion H; subst. congruence.
Qed.

Lemma slots_of_compute_parity (g : Z) :
  slots_of (compute_parity g) = slots_of g.
Proof.
  assert (H : forall j, 0 <= j < 5 -> slot (compute_parity g) j = slot g j).
  { intros j Hj. apply slot_ext; [lia|]. intros n Hn.
    apply compute_parity_low. lia. }
  unfold slots_of. cbn [map]. rewrite !H by lia. reflexivity.
Qed.

(** X5: the match count of two codes lies between 0 and [SLOTS], does not
    depend on the order of its arguments, and is [SLOTS] exactly when the
    two codes agree in all five slots (so a code matches itself in all
    five). *)
Theorem compare_perm_equal_pos_metric :
  forall c1 c2 : Z,
    0 <= compare_perm_equal_pos c1 c2 <= SLOTS /\
    compare_perm_equal_pos c1 c2 = compare_perm_equal_pos c2 c1 /\
    (compare_perm_equal_pos c1 c2 = SLOTS <-> slots_of c1 = slots_of c2).
Proof.
  intros c1 c2. rewrite !compare_perm_equal_pos_slots. unfold exact_matches.
  split; [|split].
  - split; [apply count_equal_nonneg|].
    exact (count_equal_le_length (slots_of c1) (slots_of c2)).
  - apply count_equal_sym.
  - exact (count_equal_full (slots_of c1) (slots_of c2) eq_refl).
Qed.

(** X6: the parity bit that [generate_request] adds to a guess plays no
    part in the comparison: a processed guess, stored with its parity bit,
    compares like the candidate it was sent from. *)
Theorem compare_perm_equal_pos_ignores_parity :
  forall g c : Z,
    compare_perm_equal_pos (snd (generate_request g)) c
    = compare_perm_equal_pos g c /\
    compare_perm_equal_pos c (snd (generate_request g))
    = compare_perm_equal_pos c g.
Proof.
  intros g c. rewrite !compare_perm_equal_pos_slots. unfold exact_matches.
  cbn [generate_request snd]. now rewrite slots_of_compute_parity.
Qed.

(** ** Bit counting and the search for the next mask *)

(** X7: for an 8-bit [num], [calculate_set_bits] over [length] bits is the
    number of set bits among the bits [0 .. length-1] of [num], as long as
    the [uint8_t] counter cannot wrap ([length] at most 255); it never
    exceeds [length]. *)
Theorem calculate_set_bits_popcount :
  forall (num : Z) (length : nat),
    0 <= num < 256 -> (length <= 255)%nat ->
    calculate_set_bits num length = count_bits length num /\
    0 <= calculate_set_bits num length <= Z.of_nat length.
Proof.
  intros num length _ Hlen. unfold calculate_set_bits.
  rewrite calculate_set_bits_loop_count by lia.
  pose proof (count_bits_bounds length num). split; lia.
Qed.

Lemma calculate_set_bits_popcount_witness :
  calculate_set_bits 22 5 = count_bits 5 22.
Proof.
  apply (calculate_set_bits_popcount 22 5); [lia | lia].
Defined.

Lemma compute_combination_loop_result (mask count : Z) (fuel : nat) :
  forall last v,
    compute_combination_loop fuel last mask count = Some v ->
    v = 0 \/ combination_ok v mask count = true.
Proof.
  induction fuel as [|f IH]; intros last v H; cbn [compute_combination_loop] in H.
  - destruct (combination_ok last mask count) eqn:E; [|discriminate].
    inversion H; subst. now right.
  - destruct (combination_ok last mask count) eqn:E.
    + inversion H; subst. now right.
    + destruct (mask <? u8 (last + 1)).
      * inversion H; subst. now left.
      * now apply IH in H.
Qed.

(** X8: for every mask below 255 the search of [compute_combination] ends,
    whatever the start value and the count: it returns 0, or a value that
    lies inside the mask and has [count] bits set among its low five. *)
Theorem compute_combination_total :
  forall s mask count : Z,
    0 <= mask <= 254 ->
    exists v,
      compute_combination s mask count = Some v /\
      (v = 0 \/ fits v mask count) /\ 0 <= v <= mask.
Proof.
  intros s mask count Hm.
  destruct (compute_combination_terminates s mask count Hm) as [v Hv].
  exists v. split; [exact Hv|].
  unfold compute_combination in Hv.
  destruct (compute_combination_loop_result _ _ _ _ _ Hv) as [->|Hok].
  - split; [now left | lia].
  - apply combination_ok_fits in Hok. split; [now right|].
    destruct Hok as [Hland _].
    destruct (Z.neg_nonneg_cases v) as [Hneg|Hpos].
    + exfalso.
      assert (0 <= Z.land v mask) by (apply Z.land_nonneg; right; lia). lia.
    + split; [exact Hpos|]. rewrite <- Hland. apply land_le_r; lia.
Qed.

Lemma compute_combination_total_witness :
  exists v, compute_combination 6 29 2 = Some v /\
            (v = 0 \/ fits v 29 2) /\ 0 <= v <= 29.
Proof. apply (compute_combination_total 6 29 2). lia. Defined.

(** X9: with the mask 255 the exit test [last_combination > mask] can
    never hold for a [uint8_t], so for a count that no value has (more
    than five bits among the low five) the loop of [compute_combination]
    does not end: no number of iterations gives a result. *)
Theorem compute_combination_mask_255_no_exit :
  forall (fuel : nat) (last count : Z),
    0 <= last <= 255 -> SLOTS < count ->
    compute_combination_loop fuel last 255 count = None.
Proof.
  induction fuel as [|f IH]; intros last count Hl Hc;
    cbn [compute_combination_loop].
  - destruct (combination_ok last 255 count) eqn:E; [|reflexivity].
    apply combination_ok_fits in E. destruct E as [_ E].
    pose proof (count_bits_bounds 5 last). unfold SLOTS in Hc. cbn in *. lia.
  - destruct (combination_ok last 255 count) eqn:E.
    + apply combination_ok_fits in E. destruct E as [_ E].
      pose proof (count_bits_bounds 5 last). unfold SLOTS in Hc. cbn in *. lia.
    + pose proof (u8_range (last + 1)) as Hr.
      destruct (Z.ltb_spec 255 (u8 (last + 1))); [lia|].
      apply IH; [lia | exact Hc].
Qed.

Lemma compute_combination_mask_255_no_exit_witness :
  compute_combination_loop 512 1 255 6 = None.
Proof.
  apply (compute_combination_mask_255_no_exit 512 1 6); [lia | cbv; reflexivity].
Defined.

(** ** How many guesses a phase sends *)

Lemma sent_log (info info' : gameinfo_t) :
  log_of info' = log_of info -> sent info' = sent info.
Proof. unfold log_of, sent. intros H. now inversion H. Qed.

Lemma commit_guess_sent (srv : server) (info : gameinfo_t)
    (partition : option (list Z)) (r0 : result_t) :
  forall ret r info',
    commit_guess srv info partition r0 = (ret, r, info') ->
    sent info' = S (sent info).
Proof.
  intros ret r info' H. apply commit_guess_effect in H. cbv zeta in H.
  destruct H as (_ & Hp & _). unfold sent. rewrite Hp, length_app.
  cbn [length]. lia.
Qed.

Lemma analyse_partitions_loop_sent (srv : server) (n : nat) :
  forall i j skip info ret info',
    analyse_partitions_loop srv n i j skip info = (ret, info') ->
    (sent info <= sent info' <= sent info + (2 - i))%nat.
Proof.
  induction n as [|n IH]; intros i j skip info ret info' H;
    cbn [analyse_partitions_loop] in H; [inversion H; subst; lia|].
  destruct ((i <? 2)%nat && negb skip) eqn:Ec; [|inversion H; subst; lia].
  apply andb_true_iff in Ec. destruct Ec as [Hi _]. apply Nat.ltb_lt in Hi.
  destruct (commit_guess srv info (Some (partitions i)) (result_at info i))
    as [[ret1 r1] info1] eqn:E.
  apply commit_guess_sent in E.
  destruct (negb (ret1 =? 0)).
  - inversion H; subst. change (sent (write_result i r1 info1)) with (sent info1).
    lia.
  - pose proof (sent_log _ _ (log_of_partition_body i j (write_result i r1 info1)))
      as Hb.
    destruct (partition_body i j (write_result i r1 info1)) as [skip' info3].
    cbn [snd] in Hb. change (sent (write_result i r1 info1)) with (sent info1) in Hb.
    apply IH in H. lia.
Qed.

Lemma analyse_partitions_loop_first (srv : server) (n j : nat)
    (info : gameinfo_t) :
  forall ret info',
    analyse_partitions_loop srv (S n) 0 j false info = (ret, info') ->
    (sent info + 1 <= sent info')%nat.
Proof.
  intros ret info' H. cbn [analyse_partitions_loop] in H.
  change ((0 <? 2)%nat && negb false) with true in H. cbv iota in H.
  destruct (commit_guess srv info (Some (partitions 0)) (result_at info 0))
    as [[ret1 r1] info1] eqn:E.
  apply commit_guess_sent in E.
  destruct (negb (ret1 =? 0)).
  - inversion H; subst. change (sent (write_result 0 r1 info1)) with (sent info1).
    lia.
  - pose proof (sent_log _ _ (log_of_partition_body 0 j (write_result 0 r1 info1)))
      as Hb.
    destruct (partition_body 0 j (write_result 0 r1 info1)) as [skip' info3].
    cbn [snd] in Hb. change (sent (write_result 0 r1 info1)) with (sent info1) in Hb.
    apply analyse_partitions_loop_sent in H. lia.
Qed.

(** X10: the partition prober sends one guess or two, whatever the
    answers are. *)
Theorem analyse_partitions_sends_one_or_two :
  forall (srv : server) (info : gameinfo_t) (ret : Z) (info' : gameinfo_t),
    analyse_partitions srv info = (ret, info') ->
    (sent info + 1 <= sent info' <= sent info + 2)%nat.
Proof.
  intros srv info ret info' H.
  pose proof (analyse_partitions_loop_sent srv 3 0 1 false info ret info' H)
    as Hup.
  pose proof (analyse_partitions_loop_first srv 2 1 info ret info' H) as Hlo.
  lia.
Qed.

Lemma analyse_partitions_sends_one_or_two_witness :
  (sent initial_info + 1
   <= sent (snd (analyse_partitions (honest 0) initial_info))
   <= sent initial_info + 2)%nat.
Proof.
  apply (analyse_partitions_sends_one_or_two (honest 0) initial_info
           (fst (analyse_partitions (honest 0) initial_info))).
  apply surjective_pairing.
Defined.

Lemma color_loop_sent (srv : server) (n : nat) :
  forall i j k st ret st',
    color_loop srv n i j k st = (ret, st') ->
    (sent (cs_info st) <= sent (cs_info st')
     <= sent (cs_info st) + Z.to_nat (Z.of_nat i * 4 + 3 - k))%nat.
Proof.
  induction n as [|n IH]; intros i j k st ret st' H; cbn [color_loop] in H;
    [inversion H; subst; lia|].
  destruct (Z.ltb_spec k (Z.of_nat i * 4 + 3)) as [Hlt|Hge];
    [|inversion H; subst; lia].
  destruct (commit_guess srv (cs_info st) (Some [k; k; k; k; k]) zero_result)
    as [[ret1 r] info1] eqn:E.
  apply commit_guess_sent in E.
  destruct (negb (ret1 =? 0)); [inversion H; subst; cbn [cs_info]; lia|].
  destruct (res_total r =? 0).
  - apply IH in H. cbn [cs_info] in H.
    change (sent (write_possible k 0 info1)) with (sent info1) in H. lia.
  - cbv zeta in H.
    match type of H with
    | (if ?c then _ else _) = _ => destruct c
    end.
    + inversion H; subst. cbn [cs_info].
      rewrite (sent_log _ _ (log_of_memset_possible _ _ _)).
      match goal with
      | |- context [sent (write_possible ?a ?b (write_result ?c ?d info1))] =>
          change (sent (write_possible a b (write_result c d info1)))
            with (sent info1)
      end. lia.
    + apply IH in H. cbn [cs_info] in H.
      match type of H with
      | context [sent (write_possible ?a ?b (write_result ?c ?d info1))] =>
          change (sent (write_possible a b (write_result c d info1)))
            with (sent info1) in H
      end. lia.
Qed.

Lemma color_partition_sent (srv : server) (i : nat) (total : Z)
    (info : gameinfo_t) :
  forall ret total' missing info',
    color_partition srv i total info = (ret, total', missing, info') ->
    (sent info <= sent info' <= sent info + 3)%nat.
Proof.
  intros ret total' missing info' H. unfold color_partition in H.
  destruct (0 <? res_total (result_at info i)); [|inversion H; subst; lia].
  destruct (color_loop srv 4 i 0 (Z.of_nat i * 4) (mk_cs total 0 info))
    as [ret1 st] eqn:E.
  apply color_loop_sent in E. cbn [cs_info] in E.
  inversion H; subst. lia.
Qed.

Lemma color_remainder_sent (srv : server) (total : Z) (m0 m1 : bool)
    (info : gameinfo_t) :
  forall ret info',
    color_remainder srv total m0 m1 info = (ret, info') ->
    (sent info <= sent info' <= sent info + 1)%nat.
Proof.
  intros ret info' H. unfold color_remainder in H.
  destruct (total <? SLOTS).
  2:{ inversion H; subst.
      change (sent (write_possible 7 0 (write_possible 3 0 info)))
        with (sent info). lia. }
  destruct (m0 && m1).
  - destruct (commit_guess srv info (Some [7; 7; 7; 7; 7]) zero_result)
      as [[ret1 r] info1] eqn:E.
    apply commit_guess_sent in E. cbv beta iota zeta in H.
    destruct (ret1 =? 0) eqn:Er.
    + change (negb true) with false in H. cbv beta iota zeta in H.
      change (0 =? 0) with true in H. change (negb true) with false in H.
      cbv iota in H. apply pair_snd_eq in H. subst info'.
      match goal with
      | |- context [sent (write_result ?a ?b ?x)] =>
          change (sent (write_result a b x)) with (sent x)
      end.
      match goal with
      | |- context [sent (if ?c then ?x else ?y)] =>
          assert (Hs : sent (if c then x else y) = sent info1)
            by (destruct c; reflexivity)
      end.
      rewrite Hs. lia.
    + change (negb false) with true in H. cbv beta iota zeta in H.
      rewrite Er in H. change (negb false) with true in H. cbv iota in H.
      apply pair_snd_eq in H. subst info'. lia.
  - cbv beta iota zeta in H. change (0 =? 0) with true in H.
    change (negb true) with false in H. cbv iota in H.
    apply pair_snd_eq in H. subst info'.
    match goal with
    | |- context [sent (write_result ?a ?b ?x)] =>
        change (sent (write_result a b x)) with (sent x)
    end.
    match goal with
    | |- context [sent (if ?c then ?x else ?y)] =>
        assert (Hs : sent (if c then x else y) = sent info)
          by (destruct c; reflexivity)
    end.
    rewrite Hs. lia.
Qed.

(** X11: the colour counter sends at most seven guesses: up to three
    single-colour probes for each partition and one for white. *)
Theorem analyse_colors_sends_at_most_seven :
  forall (srv : server) (info : gameinfo_t) (ret : Z) (info' : gameinfo_t),
    analyse_colors srv info = (ret, info') ->
    (sent info <= sent info' <= sent info + 7)%nat.
Proof.
  intros srv info ret info' H. unfold analyse_colors in H.
  destruct (color_partition srv 0 0 info) as [[[ret0 total0] miss0] infoA] eqn:E0.
  apply color_partition_sent in E0.
  destruct (negb (ret0 =? 0)); [inversion H; subst; lia|].
  destruct (color_partition srv 1 total0 infoA) as [[[ret1 total1] miss1] infoB] eqn:E1.
  apply color_partition_sent in E1.
  destruct (negb (ret1 =? 0)); [inversion H; subst; lia|].
  apply color_remainder_sent in H. lia.
Qed.

Lemma analyse_colors_sends_at_most_seven_witness :
  (sent initial_info
   <= sent (snd (analyse_colors (honest 0) initial_info))
   <= sent initial_info + 7)%nat.
Proof.
  apply (analyse_colors_sends_at_most_seven (honest 0) initial_info
           (fst (analyse_colors (honest 0) initial_info))).
  apply surjective_pairing.
Defined.

(** ** The round loop *)

Lemma guess_loop_sent (srv : server) (fuel : nat) :
  forall before p after info,
    first_perm info = before ++ p :: after ->
    (sent (final_info (guess_loop srv fuel (before, p, after) info))
     <= sent info + length (first_perm info))%nat.
Proof.
  induction fuel as [|f IH]; intros before p after info Hptr;
    cbn [guess_loop]; [cbn [final_info]; lia|].
  destruct (commit_guess srv (set_guess (combination p) info) None zero_result)
    as [[ret r] info2] eqn:E.
  apply commit_guess_sent in E.
  change (sent (set_guess (combination p) info)) with (sent info) in E.
  assert (Hlen : length (first_perm info) = S (length (before ++ after))).
  { rewrite Hptr, !length_app. cbn [length]. lia. }
  destruct (negb (ret =? 0)); [cbn [final_info]; lia|].
  destruct (find_best_perm _ _) as [[[b' p'] a']|] eqn:Ef.
  - apply find_best_perm_points in Ef. cbn [first_perm set_first_perm] in Ef.
    specialize (IH b' p' a' (set_first_perm (before ++ after) info2) Ef).
    cbn [first_perm set_first_perm] in IH.
    change (sent (set_first_perm (before ++ after) info2)) with (sent info2) in IH.
    lia.
  - cbn [final_info].
    change (sent (set_first_perm (before ++ after) info2)) with (sent info2).
    lia.
Qed.

(** X12: started without candidates left over, [analyse_combinations]
    sends at most one guess per generated candidate, and a bound of that
    many rounds is never the reason it stops. *)
Theorem analyse_combinations_round_bound :
  forall (srv : server) (fuel : nat) (info : gameinfo_t),
    first_perm info = [] ->
    (sent (final_info (analyse_combinations srv fuel info))
     <= sent info + length (candidates (possible info)))%nat /\
    ((length (candidates (possible info)) <= fuel)%nat ->
     forall info', analyse_combinations srv fuel info <> OutOfFuel info').
Proof.
  intros srv fuel info Hfp. unfold analyse_combinations, candidates.
  cbn [possible guess first_perm set_guess set_comb set_first_perm].
  rewrite Hfp.
  destruct (process_combinations 0 [] (build_root (possible info)) 0)
    as [g perms] eqn:Ep.
  cbn [snd]. destruct perms as [|p after].
  - split; [cbn [final_info length]; unfold sent; cbn; lia | discriminate].
  - split.
    + etransitivity; [apply (guess_loop_sent srv fuel [] p after); reflexivity|].
      unfold sent.
      cbn [first_perm processed set_first_perm set_guess set_comb]. lia.
    + intros Hfuel info'.
      apply (guess_loop_fuel srv fuel [] p after); [reflexivity|].
      cbn [first_perm set_first_perm]. exact Hfuel.
Qed.

Lemma analyse_combinations_round_bound_witness :
  (sent (final_info (analyse_combinations (honest 0) 4 initial_info))
   <= sent initial_info + length (candidates (possible initial_info)))%nat.
Proof.
  apply (analyse_combinations_round_bound (honest 0) 4 initial_info).
  reflexivity.
Defined.

Lemma RED_low_bits (x : Z) : RED (Z.land x 63) = RED x.
Proof.
  unfold RED. rewrite <- Z.land_assoc. reflexivity.
Qed.

(** The two bytes on the wire give the request back. *)
Lemma wire_decode (g : Z) :
  0 <= g < 65536 ->
  nth 0 (wire_bytes g) 0 + 256 * nth 1 (wire_bytes g) 0 = g.
Proof.
  intros Hg. unfold wire_bytes. cbn [nth].
  assert (Hlo : u8 (Z.land g (Z.lnot (Z.shiftl 255 8))) = g mod 256).
  { unfold u8. change 256 with (2 ^ 8). rewrite <- !Z.land_ones by lia.
    rewrite <- Z.land_assoc. reflexivity. }
  assert (Hhi : u8 (Z.shiftr g 8) = g / 256).
  { rewrite Z.shiftr_div_pow2 by lia. change (2 ^ 8) with 256.
    unfold u8. apply Z.mod_small. split; [apply Z.div_pos; lia|].
    apply Z.div_lt_upper_bound; lia. }
  rewrite Hlo, Hhi. pose proof (Z.div_mod g 256 ltac:(lia)). lia.
Qed.

(** What an error-free server that answers for [secret] makes
    [commit_guess] record for the guess [g]. *)
Lemma commit_guess_against (srv : server) (secret : Z) (info : gameinfo_t) :
  answers_for secret srv -> error_free srv ->
  forall ret r info',
    commit_guess srv info None zero_result = (ret, r, info') ->
    processed info'
    = processed info
      ++ [mk_perm (compute_parity (guess info))
            (exact_matches secret (guess info))] /\
    guess info' = compute_parity (guess info) /\
    round info' = u8 (round info + 1) /\
    first_perm info' = first_perm info /\
    ret = (if exact_matches secret (guess info) =? SLOTS
           then round info' else 0).
Proof.
  intros Ha He ret r info' H. apply commit_guess_effect in H. cbv zeta in H.
  destruct H as (Hround & Hproc & Hguess & _ & _ & _ & Hr & _ & _ & _ & Hfp & Hret).
  cbn [generate_request snd combination] in *.
  set (gp := compute_parity (guess info)) in *.
  set (entry := mk_perm gp (res_red r)) in *.
  assert (Hresp : RED (response_to srv (length (processed info)) entry)
                  = exact_matches secret (guess info)).
  { unfold response_to. cbn [combination entry].
    rewrite <- RED_low_bits, Ha. unfold arbiter_byte. cbv zeta.
    rewrite wire_decode by apply compute_parity_range.
    pose proof (arbiter_marks_range secret gp) as Hm.
    destruct (marks_decode (arbiter_red secret gp)
                (arbiter_total secret gp - arbiter_red secret gp)
                ltac:(lia) ltac:(lia)) as [Hred _].
    rewrite Hred. unfold arbiter_red, exact_matches, gp.
    now rewrite slots_of_compute_parity. }
  assert (Herr : RESPONSE_ERROR (response_to srv (length (processed info)) entry) = 0)
    by apply He.
  rewrite Herr in Hret. change (0 <? 0) with false in Hret. cbv iota in Hret.
  rewrite Hresp in Hret.
  assert (Hrr : res_red r = exact_matches secret (guess info))
    by (rewrite Hr; cbn [res_red]; exact Hresp).
  split; [|auto].
  rewrite Hproc. unfold entry. now rewrite Hrr.
Qed.

Lemma exact_matches_self (secret c : Z) :
  slots_of c = slots_of secret -> exact_matches secret c = SLOTS.
Proof.
  intros H. unfold exact_matches. rewrite H.
  apply (count_equal_full (slots_of secret) (slots_of secret) eq_refl).
  reflexivity.
Qed.

Lemma exact_matches_slots (a b c : Z) :
  slots_of a = slots_of b -> exact_matches a c = exact_matches b c.
Proof. intros H. unfold exact_matches. now rewrite H. Qed.

Lemma guess_loop_finds (srv : server) (secret : Z) (fuel : nat) :
  answers_for secret srv -> error_free srv ->
  forall before p after info,
    first_perm info = before ++ p :: after ->
    among secret (first_perm info) ->
    record_of secret info ->
    0 <= round info ->
    round info + Z.of_nat (length (first_perm info)) < 256 ->
    (length (first_perm info) <= fuel)%nat ->
    exists ret info',
      guess_loop srv fuel (before, p, after) info = Returned ret info' /\
      round info < ret <= round info + Z.of_nat (length (first_perm info)) /\
      ret = round info' /\
      slots_of (guess info') = slots_of secret.
Proof.
  intros Ha He. induction fuel as [|f IH];
    intros before p after info Hptr Ham Hrec Hr0 Hr Hfuel.
  - rewrite Hptr, length_app in Hfuel. cbn [length] in Hfuel. lia.
  - cbn [guess_loop].
    destruct (commit_guess srv (set_guess (combination p) info) None zero_result)
      as [[ret r] info2] eqn:E.
    apply (commit_guess_against srv secret _ Ha He) in E.
    cbn [guess round processed first_perm set_guess] in E.
    destruct E as (Hproc & Hguess & Hround & Hfp & Hret).
    assert (Hlen : length (first_perm info) = S (length (before ++ after))).
    { rewrite Hptr, !length_app. cbn [length]. lia. }
    assert (Hround' : round info2 = round info + 1).
    { rewrite Hround. unfold u8. apply Z.mod_small. lia. }
    destruct (Z.eqb_spec (exact_matches secret (combination p)) SLOTS) as [Hwin|Hno].
    + subst ret. rewrite Hround'.
      destruct (Z.eqb_spec (round info + 1) 0); [lia|]. cbn [negb].
      exists (round info + 1), info2. split; [reflexivity|].
      split; [lia|]. split; [now symmetry|].
      rewrite Hguess, slots_of_compute_parity.
      unfold exact_matches in Hwin.
      symmetry.
      apply (count_equal_full (slots_of secret) (slots_of (combination p)) eq_refl).
      exact Hwin.
    + subst ret. change (negb (0 =? 0)) with false. cbv iota.
      set (info3 := set_first_perm (before ++ after) info2).
      destruct Ham as (c & Hin & Hc).
      assert (Hin3 : In c (before ++ after)).
      { rewrite Hptr in Hin. apply in_app_or in Hin.
        apply in_or_app. destruct Hin as [Hin|[Heq|Hin]]; auto.
        subst c. exfalso. apply Hno. now apply exact_matches_self. }
      assert (Hrec3 : record_of secret info3).
      { intros q Hq. cbn [processed info3 set_first_perm] in Hq.
        rewrite Hproc in Hq. apply in_app_or in Hq.
        destruct Hq as [Hq|[<-|[]]]; [now apply Hrec|].
        cbn [red combination]. unfold exact_matches.
        now rewrite slots_of_compute_parity. }
      assert (Hcons : consistent_with c (processed info3)).
      { intros q Hq. rewrite compare_perm_equal_pos_slots.
        rewrite (Hrec3 q Hq). now apply exact_matches_slots. }
      pose proof (find_best_perm_loop_spec (processed info3) (first_perm info3) [])
        as Hspec.
      unfold find_best_perm.
      destruct (find_best_perm_loop [] (first_perm info3) (processed info3))
        as [[[b' p'] a']|].
      * destruct Hspec as (Heq & _). cbn [app] in Heq.
        assert (Hr3 : round info3 = round info + 1) by exact Hround'.
        assert (Hl3 : first_perm info3 = before ++ after) by reflexivity.
        destruct (IH b' p' a' info3) as (ret & info' & Hrun & Hret & Hrest).
        -- exact Heq.
        -- exists c. split; [rewrite Hl3; exact Hin3 | exact Hc].
        -- exact Hrec3.
        -- lia.
        -- rewrite Hl3. lia.
        -- rewrite Hl3. lia.
        -- exists ret, info'. split; [exact Hrun|]. split; [|exact Hrest].
           rewrite Hl3 in Hret. lia.
      * exfalso. rewrite Forall_forall in Hspec.
        destruct (Hspec c Hin3) as (q & Hq & Hdis).
        apply Hdis. now apply Hcons.
Qed.

(** X13: against a server that answers with the marks of [secret] and
    never with an error code, the round loop of [analyse_combinations]
    ends with a win whenever the secret is among the generated candidates
    and the record so far agrees with it: it returns the number of the
    round in which it sent the secret, at most one round per candidate
    later (the [uint8_t] round counter must not wrap on the way). *)
Theorem analyse_combinations_finds_secret :
  forall (srv : server) (secret : Z) (fuel : nat) (info : gameinfo_t),
    answers_for secret srv -> error_free srv ->
    first_perm info = [] ->
    among secret (candidates (possible info)) ->
    record_of secret info ->
    0 <= round info ->
    round info + Z.of_nat (length (candidates (possible info))) < 256 ->
    (length (candidates (possible info)) <= fuel)%nat ->
    exists ret info',
      analyse_combinations srv fuel info = Returned ret info' /\
      round info < ret
        <= round info + Z.of_nat (length (candidates (possible info))) /\
      ret = round info' /\
      slots_of (guess info') = slots_of secret.
Proof.
  intros srv secret fuel info Ha He Hfp Ham Hrec Hr0 Hr Hfuel.
  unfold analyse_combinations, candidates in *.
  cbn [possible guess first_perm set_guess set_comb set_first_perm].
  rewrite Hfp.
  destruct (process_combinations 0 [] (build_root (possible info)) 0)
    as [g perms] eqn:Ep.
  cbn [snd] in *. destruct perms as [|p after].
  - destruct Ham as (c & [] & _).
  - apply (guess_loop_finds srv secret fuel Ha He [] p after);
      cbn [first_perm set_first_perm]; auto.
Qed.

Lemma honest_error_free (secret : Z) : error_free (honest secret).
Proof.
  intros n buf. unfold honest, arbiter_byte. cbv zeta.
  pose proof (arbiter_marks_range secret (nth 0 buf 0 + 256 * nth 1 buf 0)) as Hm.
  unfold RESPONSE_ERROR, u8. rewrite Z.mod_small by lia.
  rewrite Z.shiftr_div_pow2 by lia. apply Z.div_small.
  change (2 ^ 6) with 64. lia.
Qed.

(** The secret beige, beige, darkblue, darkblue, darkblue with the two
    colours known and every slot open. *)
Lemma analyse_combinations_finds_secret_witness :
  let secret := 0 + 8 * 0 + 64 * 1 + 512 * 1 + 4096 * 1 in
  let info := set_possible (two_colors 0 1 2 3) initial_info in
  exists ret info',
    analyse_combinations (honest secret) 10 info = Returned ret info' /\
    round info < ret
      <= round info + Z.of_nat (length (candidates (possible info))) /\
    ret = round info' /\
    slots_of (guess info') = slots_of secret.
Proof.
  intros secret info.
  apply (analyse_combinations_finds_secret (honest secret) secret 10 info).
  - apply honest_answers.
  - apply honest_error_free.
  - reflexivity.
  - exists (mk_perm secret 0). split; [|reflexivity].
    vm_compute. tauto.
  - intros q [].
  - vm_compute. congruence.
  - vm_compute. reflexivity.
  - vm_compute. lia.
Defined.

(** ** The answer byte and the exit status *)

(** X14: the answer byte splits without rest into the three fields the
    macros read: red in bits 0-2, white in bits 3-5, the error code in
    bits 6-7, and [TOTAL] is red plus white. *)
Theorem response_fields :
  forall resp : Z,
    0 <= resp < 256 ->
    resp = RED resp + 8 * WHITE resp + 64 * RESPONSE_ERROR resp /\
    0 <= RED resp < 8 /\ 0 <= WHITE resp < 8 /\
    0 <= RESPONSE_ERROR resp < 4 /\
    TOTAL resp = RED resp + WHITE resp.
Proof.
  intros resp Hr.
  assert (Hall : all_below 256 (fun x =>
            (x =? RED x + 8 * WHITE x + 64 * RESPONSE_ERROR x)
            && (0 <=? RED x) && (RED x <? 8)
            && (0 <=? WHITE x) && (WHITE x <? 8)
            && (0 <=? RESPONSE_ERROR x) && (RESPONSE_ERROR x <? 4)) = true)
    by (vm_compute; reflexivity).
  pose proof (all_below_spec _ _ Hall resp ltac:(lia)) as H. cbn beta in H.
  repeat (apply andb_true_iff in H; destruct H as [H ?]).
  repeat match goal with
         | H : (_ =? _) = true |- _ => apply Z.eqb_eq in H
         | H : (_ <=? _) = true |- _ => apply Z.leb_le in H
         | H : (_ <? _) = true |- _ => apply Z.ltb_lt in H
         end.
  repeat split; try assumption; try lia.
Qed.

Lemma response_fields_witness :
  0 <= RED 140 < 8 /\ RESPONSE_ERROR 140 = 2.
Proof.
  destruct (response_fields 140 ltac:(lia)) as (_ & H & _).
  split; [exact H | reflexivity].
Defined.

Lemma main_result_table (n : nat) :
  (n < 256)%nat ->
  main_result (Z.of_nat n)
  = if Z.of_nat n <? 128 then ([RundenLine (Z.of_nat n)], 0)
    else ((if Z.odd (Z.of_nat n) then [ParityErrorLine] else [])
            ++ (if Z.testbit (Z.of_nat n) 1 then [GameLostLine] else [])
            ++ (if Z.of_nat n =? 128 then [InterruptedLine] else []),
          Z.of_nat n - 127).
Proof.
  intros Hn.
  do 256 (destruct n as [|n]; [vm_compute; reflexivity|]).
  lia.
Qed.

(** X15: what [main] makes of the value of [start_game]: below 128 it is
    a number of rounds, printed with exit status 0; from 128 on the exit
    status is the value minus 127, "Parity Error" is printed when bit 0 is
    set, "Game lost" when bit 1 is set, and the interruption message for
    128 alone. *)
Theorem main_exit_status :
  forall ret : Z,
    0 <= ret < 256 ->
    main_result ret
    = if ret <? 128 then ([RundenLine ret], 0)
      else ((if Z.odd ret then [ParityErrorLine] else [])
              ++ (if Z.testbit ret 1 then [GameLostLine] else [])
              ++ (if ret =? 128 then [InterruptedLine] else []),
            ret - 127).
Proof.
  intros ret Hr. rewrite <- (Z2Nat.id ret) by lia.
  apply main_result_table. lia.
Qed.

Lemma main_exit_status_witness :
  main_result 130 = ([GameLostLine], 3).
Proof. apply (main_exit_status 130). lia. Defined.

(** X16: through [commit_guess] and [main] the error code of an answer
    becomes the exit status: an answer with the error code [e] (1 parity,
    2 game lost, 3 both) makes [commit_guess] return [128 + e], for which
    [main] exits with [e + 1]. *)
Theorem error_code_exit_status :
  forall (srv : server) (info : gameinfo_t) (partition : option (list Z))
         (r0 : result_t) (ret : Z) (r : result_t) (info' : gameinfo_t),
    commit_guess srv info partition r0 = (ret, r, info') ->
    0 < error info' ->
    ret = 128 + error info' /\
    snd (main_result ret) = error info' + 1 /\
    1 <= error info' <= 3.
Proof.
  intros srv info partition r0 ret r info' H Herr.
  apply commit_guess_effect in H. cbv zeta in H.
  destruct H as (_ & _ & _ & _ & _ & He & _ & _ & _ & _ & _ & Hret).
  rewrite <- He in Hret.
  destruct (Z.ltb_spec 0 (error info')); [|lia].
  assert (Hrange : 0 <= error info' <= 3)
    by (rewrite He; apply RESPONSE_ERROR_range).
  rewrite RETURN_ERROR_value in Hret by exact Hrange.
  split; [exact Hret|]. split; [|lia].
  rewrite Hret, main_exit_status by lia.
  destruct (Z.ltb_spec (128 + error info') 128); [lia|]. cbn [snd]. lia.
Qed.

Lemma error_code_exit_status_witness :
  let srv : server := fun _ _ => 64 in
  snd (main_result (fst (fst (commit_guess srv initial_info None zero_result))))
  = 2.
Proof.
  intros srv.
  destruct (commit_guess srv initial_info None zero_result) as [[ret r] info']
    eqn:E.
  assert (He : error info' = 1)
    by (vm_compute in E; inversion E; reflexivity).
  destruct (error_code_exit_status srv initial_info None zero_result ret r info' E
              ltac:(rewrite He; lia)) as (_ & H & _).
  cbn [fst]. rewrite H, He. reflexivity.
Defined.

(** ** Parity *)

(** X17: [compute_parity] changes nothing in a request that already
    carries its parity bit: sending the stored guess again gives the same
    two bytes. *)
Theorem compute_parity_idempotent :
  forall req : Z,
    compute_parity (compute_parity req) = compute_parity req /\
    fst (generate_request (snd (generate_request req)))
    = fst (generate_request req).
Proof.
  intros req.
  assert (H : compute_parity (compute_parity req) = compute_parity req).
  { apply Z.bits_inj'. intros n Hn.
    destruct (Z.lt_ge_cases n 15) as [Hlo|Hhi].
    - now rewrite compute_parity_low by lia.
    - destruct (Z.eq_dec n 15) as [->|Hne].
      + rewrite !compute_parity_bit15. apply xor_bits_ext.
        intros i Hi. apply compute_parity_low. lia.
      + pose proof (compute_parity_range (compute_parity req)) as R1.
        pose proof (compute_parity_range req) as R2.
        rewrite !(Z.bits_above_log2 _ n); try reflexivity; try lia.
        * destruct (Z.eq_dec (compute_parity req) 0) as [->|]; [cbn; lia|].
          assert (Z.log2 (compute_parity req) < 16)
            by (apply Z.log2_lt_pow2; [lia | change (2 ^ 16) with 65536; lia]).
          lia.
        * destruct (Z.eq_dec (compute_parity (compute_parity req)) 0) as [->|];
            [cbn; lia|].
          assert (Z.log2 (compute_parity (compute_parity req)) < 16)
            by (apply Z.log2_lt_pow2; [lia | change (2 ^ 16) with 65536; lia]).
          lia. }
  split; [exact H|]. cbn [generate_request fst snd]. now rewrite H.
Qed.

(** ** The channel *)

Lemma size_t_range (bits x : Z) : 0 < bits -> 0 <= size_t bits x < 2 ^ bits.
Proof.
  intros Hb. unfold size_t. apply Z.mod_pos_bound. apply Z.pow_pos_nonneg; lia.
Qed.

Lemma read_loop_nonneg (bits : Z) (rs : list Z) :
  0 < bits ->
  forall n b v, read_loop bits rs n b = Some v -> 0 <= v < 2 ^ bits.
Proof.
  intros Hb. induction rs as [|r rest IH]; intros n b v H; cbn [read_loop] in H;
    [discriminate|].
  destruct (r <=? 0); [inversion H; subst; now apply size_t_range|].
  cbv zeta in H.
  destruct (size_t bits (b + r) <? n); [now apply IH in H|].
  inversion H; subst. now apply size_t_range.
Qed.

Lemma read_loop_failure (bits : Z) (good : list Z) :
  0 < bits ->
  forall n b r rest,
    Forall (fun x => 0 < x) good ->
    0 <= b -> b + fold_right Z.add 0 good < n -> n <= 2 ^ bits ->
    r <= 0 ->
    read_loop bits (good ++ r :: rest) n b = Some (2 ^ bits - 1).
Proof.
  intros Hb. induction good as [|g good IH]; intros n b r rest Hall Hb0 Hsum Hn Hr.
  - cbn [app read_loop]. destruct (Z.leb_spec r 0); [|lia].
    unfold size_t. f_equal.
    assert (0 < 2 ^ bits) by (apply Z.pow_pos_nonneg; lia).
    symmetry. apply (Z.mod_unique (-1) (2 ^ bits) (-1)); lia.
  - inversion Hall as [|g' good' Hg Hgood]; subst.
    cbn [fold_right] in Hsum.
    assert (Hge : 0 <= fold_right Z.add 0 good).
    { clear -Hgood. induction Hgood; cbn [fold_right]; lia. }
    cbn [app read_loop]. destruct (Z.leb_spec g 0); [lia|]. cbv zeta.
    unfold size_t. rewrite Z.mod_small by lia.
    destruct (Z.ltb_spec (b + g) n); [|lia].
    apply IH; [exact Hgood | lia | lia | lia | exact Hr].
Qed.

Lemma read_loop_success (bits : Z) (rs : list Z) :
  0 < bits ->
  forall n b,
    rs <> [] -> Forall (fun x => 0 < x) rs ->
    0 <= b -> b + fold_right Z.add 0 rs = n -> n < 2 ^ bits ->
    read_loop bits rs n b = Some n.
Proof.
  intros Hb. induction rs as [|r rest IH]; intros n b Hne Hall Hb0 Hsum Hn;
    [congruence|].
  apply Forall_cons_iff in Hall. destruct Hall as [Hr Hrest].
  cbn [fold_right] in Hsum.
  assert (Hge : 0 <= fold_right Z.add 0 rest).
  { clear -Hrest. induction Hrest; cbn [fold_right]; lia. }
  cbn [read_loop]. destruct (Z.leb_spec r 0); [lia|]. cbv zeta.
  unfold size_t. rewrite Z.mod_small by lia.
  destruct rest as [|r2 rest2].
  - cbn [fold_right] in Hsum.
    destruct (Z.ltb_spec (b + r) n); [lia|]. f_equal. lia.
  - assert (0 < r2) by (apply Forall_cons_iff in Hrest; tauto).
    assert (0 <= fold_right Z.add 0 rest2).
    { apply Forall_cons_iff in Hrest. destruct Hrest as [_ Hrest2].
      clear -Hrest2. induction Hrest2; cbn [fold_right]; lia. }
    destruct (Z.ltb_spec (b + r) n); [|cbn [fold_right] in *; lia].
    apply (IH n (b + r)); [discriminate | exact Hrest | lia | lia | exact Hn].
Qed.

Lemma write_loop_read_loop (bits : Z) (ws : list Z) :
  forall n b, write_loop bits ws n b = read_loop bits ws n b.
Proof.
  induction ws as [|r rest IH]; intros n b; cbn [write_loop read_loop];
    [reflexivity|].
  destruct (r <=? 0); [reflexivity|]. cbv zeta.
  destruct (size_t bits (b + r) <? n); [apply IH | reflexivity].
Qed.

(** X18: [read_from_server] returns [n] when the calls of [read] deliver
    the [n] bytes in any number of pieces.  When a call fails or meets the
    end of the stream first, it returns -1 as a [size_t], which is the
    largest value of the type: the test for a negative value in
    [commit_guess] does not see it, so [bail_out] is not reached. *)
Theorem read_from_server_result :
  forall (bits n : Z) (good : list Z),
    0 < bits -> 0 < n < 2 ^ bits ->
    Forall (fun x => 0 < x) good ->
    (fold_right Z.add 0 good = n ->
       read_from_server bits good n = Some n) /\
    (fold_right Z.add 0 good < n ->
       forall r rest, r <= 0 ->
         read_from_server bits (good ++ r :: rest) n = Some (2 ^ bits - 1) /\
         transfer_failed (2 ^ bits - 1) = false).
Proof.
  intros bits n good Hb Hn Hall. unfold read_from_server. split.
  - intros Hsum. apply read_loop_success; try assumption; try lia.
    intros ->. cbn [fold_right] in Hsum. lia.
  - intros Hsum r rest Hr. split.
    + apply read_loop_failure; try assumption; lia.
    + unfold transfer_failed. apply Z.ltb_ge. lia.
Qed.

Lemma read_from_server_result_witness :
  read_from_server 64 [1] 1 = Some 1 /\
  read_from_server 64 [0] 1 = Some (2 ^ 64 - 1).
Proof.
  destruct (read_from_server_result 64 1 [1] ltac:(lia) ltac:(cbv; split; congruence)
              ltac:(repeat constructor; lia)) as [H1 _].
  destruct (read_from_server_result 64 1 [] ltac:(lia) ltac:(cbv; split; congruence)
              ltac:(constructor)) as [_ H2].
  split; [apply H1; reflexivity|].
  exact (proj1 (H2 ltac:(cbn; lia) 0 [] ltac:(lia))).
Defined.

(** X19: whatever the calls of [write] return, the value of
    [write_to_server] is not negative, so the test [< 0] in
    [commit_guess] never leads to [bail_out]; when the two bytes of a
    request go out, in one piece or two, the value is 2. *)
Theorem write_to_server_result :
  forall (bits : Z) (ws : list Z) (n v : Z),
    0 < bits ->
    write_to_server bits ws n = Some v ->
    transfer_failed v = false /\
    (1 < bits -> n = 2 ->
     (exists rest, ws = 2 :: rest) \/ (exists rest, ws = 1 :: 1 :: rest) ->
     v = 2).
Proof.
  intros bits ws n v Hb H. unfold write_to_server in H.
  rewrite write_loop_read_loop in H. split.
  - apply read_loop_nonneg in H; [|exact Hb].
    unfold transfer_failed. apply Z.ltb_ge. lia.
  - intros Hb1 -> Hws.
    assert (H4 : 4 <= 2 ^ bits).
    { change 4 with (2 ^ 2). apply Z.pow_le_mono_r; lia. }
    destruct Hws as [[rest ->]|[rest ->]]; cbn [read_loop] in H;
      cbv zeta in H; unfold size_t in H; cbn [Z.leb Z.compare Z.add Pos.add] in H;
      rewrite ?Z.mod_small in H by lia; cbn in H; congruence.
Qed.

Lemma write_to_server_result_witness :
  transfer_failed (2 ^ 64 - 1) = false.
Proof.
  apply (write_to_server_result 64 [0] 2 (2 ^ 64 - 1)); [lia | reflexivity].
Defined.
